(** * GEO Pulse: pipeline stages (enrich.py, trends.py, app.py) in Rocq

    Shallow embedding of the signal pipeline of the GEO Pulse repository:
    the relevance gate, the entity and sentiment tagger, the URL/title
    deduplicator, the week-over-week trend aggregator and the two
    opportunity scorers of the dashboard.

    Strings are Stdlib [string] (ASCII); Python's [str.lower] and
    [str.strip] are written out for ASCII.  The regular-expression tables
    whose content the properties below do not depend on (sentiment
    phrases, entity-tag and voice patterns, title blocklists) are section
    variables: every theorem holds for any behaviour of those patterns. *)

From Stdlib Require Import String Ascii List Bool Arith Lia ZArith QArith.
From Stdlib Require Import Permutation Sorting.Sorted Qabs Qpower.
Import ListNotations.
Open Scope string_scope.
Open Scope list_scope.
Open Scope nat_scope.

(* ------------------------------------------------------------------ *)
(** ** String helpers (Python str methods on ASCII strings) *)

Definition ascii_lower (c : ascii) : ascii :=
  let n := nat_of_ascii c in
  if (65 <=? n) && (n <=? 90) then ascii_of_nat (n + 32) else c.

(** [s.lower()] *)
Fixpoint lower (s : string) : string :=
  match s with
  | EmptyString => EmptyString
  | String c r => String (ascii_lower c) (lower r)
  end.

(** [str.isspace] on ASCII: \t \n \v \f \r, \x1c-\x1f and space. *)
Definition is_space (c : ascii) : bool :=
  let n := nat_of_ascii c in
  ((9 <=? n) && (n <=? 13)) || ((28 <=? n) && (n <=? 32)).

Fixpoint lstrip (s : string) : string :=
  match s with
  | EmptyString => EmptyString
  | String c r => if is_space c then lstrip r else s
  end.

Definition rev_string (s : string) : string :=
  string_of_list_ascii (rev (list_ascii_of_string s)).

(** [s.strip()] *)
Definition strip (s : string) : string :=
  rev_string (lstrip (rev_string (lstrip s))).

(** Python's [needle in hay] on strings (substring test). *)
Fixpoint contains (needle hay : string) : bool :=
  if prefix needle hay then true
  else match hay with
       | EmptyString => false
       | String _ r => contains needle r
       end.

(** Regex [\w] on ASCII: letters, digits and underscore. *)
Definition is_word (c : ascii) : bool :=
  let n := nat_of_ascii c in
  ((48 <=? n) && (n <=? 57)) || ((65 <=? n) && (n <=? 90))
  || ((97 <=? n) && (n <=? 122)) || (n =? 95).

Definition word_opt (o : option ascii) : bool :=
  match o with Some c => is_word c | None => false end.

(** Regex [\b] at position [k] of [s]. *)
Definition boundary_at (s : string) (k : nat) : bool :=
  let before := match k with 0 => None | S j => get j s end in
  xorb (word_opt before) (word_opt (get k s)).

(** [re.search(r"\b" + re.escape(w) + r"\b", s)]: an occurrence of [w] at
    some position [k] with a word boundary on each side. *)
Definition search_word (w s : string) : bool :=
  existsb (fun k => String.eqb (substring k (String.length w) s) w
                    && boundary_at s k && boundary_at s (k + String.length w))
          (seq 0 (S (String.length s))).

(* ------------------------------------------------------------------ *)
(** ** trends.py: [_compute_deltas] *)

Inductive direction := new | flat | rising | fading | stable.

(** *** CPython floats (IEEE 754 binary64)

    A finite double is represented by its exact value in [Q].  [fl x] is
    [x] rounded to 53 significant bits, to nearest with ties to even: the
    rounding of CPython's [int / int] and [float * int] and of its
    decimal-string conversion.  The exponent range is not bounded here:
    for integer operands below 2^1000 (any count of posts) every value
    rounded below lies in the normal range of binary64, where no
    overflow, underflow or subnormal occurs. *)

(** [n / d] rounded to the nearest integer, ties to even ([d > 0]). *)
Definition rne_div (n d : Z) : Z :=
  let q := (n / d)%Z in
  match Z.compare (2 * (n mod d)) d with
  | Lt => q
  | Gt => (q + 1)%Z
  | Eq => if Z.even q then q else (q + 1)%Z
  end.

Definition rne_Q (x : Q) : Z := rne_div (Qnum x) (Zpos (Qden x)).

(** The exponent [e] of the binade of a positive [x]:
    2^(e+52) <= x < 2^(e+53), so that [x / 2^e] has 53 integer bits. *)
Definition fl_exp (x : Q) : Z :=
  let t := (Z.log2 (Qnum x) - Z.log2 (Zpos (Qden x)))%Z in
  if Qle_bool (Qpower 2 t) x then (t - 52)%Z else (t - 53)%Z.

Definition fl_pos (x : Q) : Q :=
  let e := fl_exp x in (inject_Z (rne_Q (x / Qpower 2 e)) * Qpower 2 e)%Q.

(** Rounding to the nearest double; symmetric in the sign. *)
Definition fl (x : Q) : Q :=
  match Qnum x with
  | Z0 => 0%Q
  | Zpos _ => fl_pos x
  | Zneg _ => (- fl_pos (- x))%Q
  end.

(** [round(x, 1)] on a float [x]: CPython rounds the exact value of [x] to
    one decimal place, ties to even ([_Py_dg_dtoa] in mode 3), and
    converts that decimal back to the nearest double. *)
Definition py_round1 (x : Q) : Q :=
  fl (rne_div (10 * Qnum x) (Zpos (Qden x)) # 10).

(** [_compute_deltas(current, previous)] on Python ints.  [delta_pct] is
    the float [((current - previous) / previous) * 100]: the true division
    and the product are each rounded to a double; the comparisons with 20
    and -20 are exact, and the reported value is [round(delta_pct, 1)]. *)
Definition _compute_deltas (current previous : Z) : Q * direction :=
  if (previous =? 0)%Z then
    if (current =? 0)%Z then (0%Q, flat) else (inject_Z current, new)
  else
    let delta_pct :=
      fl (fl (inject_Z (current - previous) / inject_Z previous) * 100) in
    if negb (Qle_bool delta_pct 20) then (py_round1 delta_pct, rising)
    else if Qlt_le_dec delta_pct (-20) then (py_round1 delta_pct, fading)
    else (py_round1 delta_pct, stable).

(* ------------------------------------------------------------------ *)
(** ** enrich.py: [_detect_sentiment] given the pattern hit counts *)

Inductive sentiment := positive | negative | neutral.

Definition msg_neg_multi := "Multiple negative expressions detected".
Definition msg_neg := "Negative language outweighs positive".
Definition msg_pos_multi := "Multiple positive expressions detected".
Definition msg_pos := "Positive language outweighs negative".
Definition msg_mixed := "Mixed positive and negative signals".
Definition msg_none := "No strong sentiment indicators".

(** The body of [_detect_sentiment] after
    [pos = len(POSITIVE_PATTERNS.findall(text))] and
    [neg = len(NEGATIVE_PATTERNS.findall(text))]. *)
Definition classify_sentiment (pos neg : nat) : sentiment * string :=
  if (pos <? neg) && (2 <=? neg) then (negative, msg_neg_multi)
  else if pos <? neg then (negative, msg_neg)
  else if (neg <? pos) && (2 <=? pos) then (positive, msg_pos_multi)
  else if neg <? pos then (positive, msg_pos)
  else if (pos =? neg) && (0 <? pos) then (neutral, msg_mixed)
  else (neutral, msg_none).

(* ------------------------------------------------------------------ *)
(** ** Regular-expression tables of enrich.py

    The compiled patterns of enrich.py are modelled by their observable
    behaviour: [findall] counts for the two sentiment tables and
    [search] results for the others.  Every definition below takes the
    table as an argument, so every theorem holds for any pattern table. *)

Record Patterns := {
  POSITIVE_findall : string -> nat;
  NEGATIVE_findall : string -> nat;
  RE_COMPLAINT : string -> bool;
  RE_PRAISE : string -> bool;
  RE_QUESTION : string -> bool;
  RE_FUNDING : string -> bool;
  RE_LAUNCH : string -> bool;
  RE_COMPARISON : string -> bool;
  RE_BUYER : string -> bool;
  RE_FOUNDER : string -> bool;
  RE_ANALYST : string -> bool;
  RE_FEATURE_REQUEST : string -> bool;
  TITLE_BLOCKLIST : string -> bool;
  _CONDITIONAL_BLOCKLIST : string -> bool
}.

(** [_detect_sentiment(text)] *)
Definition _detect_sentiment (P : Patterns) (text : string) : sentiment * string :=
  classify_sentiment (POSITIVE_findall P text) (NEGATIVE_findall P text).

(* ------------------------------------------------------------------ *)
(** ** enrich.py: context terms, source quality *)

Definition GEO_CONTEXT : list string :=
  ["geo"; "aeo"; "ai search"; "llm"; "chatgpt"; "gemini";
   "perplexity"; "claude"; "generative engine"; "answer engine";
   "ai visibility"; "ai overview"; "seo"; "search optimization";
   "brand visibility"; "ai citation"; "search generative";
   "content optimization"; "structured data"; "schema markup";
   "featured snippet"; "knowledge panel"; "ai recommend";
   "brand mention"; "citation"; "visibility score";
   "share of voice"; "share of answer"; "zero click";
   "ai overviews"; "searchgpt"].

Definition _GEO_SHORT_TERMS : list string := ["geo"; "aeo"; "seo"; "llm"].

Definition mem (x : string) (l : list string) : bool :=
  existsb (String.eqb x) l.

(** [_has_geo_terms(text)] *)
Definition _has_geo_terms (text : string) : bool :=
  let t := lower text in
  existsb (fun term =>
             if mem term _GEO_SHORT_TERMS then search_word term t
             else contains term t) GEO_CONTEXT.

Definition GEO_SOURCES : list string := ["G2"; "Product Hunt"].

Definition NOISE_PHRASES : list string :=
  ["i am a bot"; "this action was performed automatically";
   "automoderator"; "this post has been removed";
   "please read the rules"; "megathread";
   "check out my channel"; "subscribe to my";
   "use my affiliate"; "promo code"; "discount code"].

Definition SOURCE_QUALITY : list (string * nat) :=
  [("G2", 5); ("Slack", 4); ("Hacker News", 4); ("Product Hunt", 3);
   ("News", 3); ("RSS", 3); ("Reddit", 2)].

(** [_source_quality(source)]: first table key contained in the source. *)
Fixpoint source_quality_in (tbl : list (string * nat)) (source : string) : nat :=
  match tbl with
  | [] => 2
  | (key, score) :: r =>
      if contains (lower key) (lower source) then score else source_quality_in r source
  end.

Definition _source_quality (source : string) : nat := source_quality_in SOURCE_QUALITY source.

Definition feature_keywords : list string :=
  ["dashboard"; "reporting"; "api"; "integration"; "pricing";
   "accuracy"; "citation tracking"; "share of voice"; "recommendations";
   "workflow"; "alerts"; "real-time"; "historical data"; "export";
   "white label"; "multi-brand"; "custom prompts"; "benchmarking"].

(* ------------------------------------------------------------------ *)
(** ** Posts and signals *)

(** A scraped post (the dictionary keys read by the pipeline; a missing
    key is its default, the empty string). *)
Record RawPost := {
  p_text : string;
  p_title : string;
  p_source : string;
  p_url : string;
  p_post_date : string;
  p_post_id : string
}.

(** The dictionary returned by [enrich_post]: [{**post, ...}]. *)
Record Signal := {
  post : RawPost;
  s_sentiment : sentiment;
  sentiment_reason : string;
  companies_mentioned : list string;
  is_own_brand_mention : bool;
  entity_tags : list string;
  features_mentioned : list string;
  is_buyer_voice : bool;
  is_founder_voice : bool;
  is_analyst_voice : bool;
  is_feature_request : bool;
  is_competitive_intel : bool;
  source_quality : nat
}.

(** [set.add] on a set kept as a duplicate-free list. *)
Definition set_add (x : string) (s : list string) : list string :=
  if mem x s then s else s ++ [x].

(** Python's [sorted] on strings (code-point order), as insertion sort. *)
Fixpoint insert_sorted (x : string) (l : list string) : list string :=
  match l with
  | [] => [x]
  | y :: r => if String.leb x y then x :: l else y :: insert_sorted x r
  end.

Definition sorted (l : list string) : list string := fold_right insert_sorted [] l.

(** The body of the alias loop of [enrich_post]: state is the pair
    ([companies_mentioned], [is_own_brand]). *)
Definition alias_step (text_lower : string) (own_brands : list string)
    (context_required_names : list string) (has_geo_context : bool)
    (st : list string * bool) (ac : string * string) : list string * bool :=
  let '(alias, canonical) := ac in
  let '(companies, is_own) := st in
  if String.length alias <? 3 then st
  else
    let matched :=
      if String.length alias <=? 4 then search_word alias text_lower
      else contains alias text_lower in
    if matched then
      if match context_required_names with [] => false | _ => true end
         && mem canonical context_required_names && negb has_geo_context
      then st
      else (set_add canonical companies, is_own || mem alias own_brands)
    else st.

Definition resolve_aliases (alias_map : list (string * string)) (text_lower : string)
    (own_brands context_required_names : list string) (has_geo_context : bool)
  : list string * bool :=
  fold_left (alias_step text_lower own_brands context_required_names has_geo_context)
            alias_map ([], false).

(** [enrich_post(post, alias_map, own_brands, context_required_names)].
    [alias_map] is the insertion-ordered dictionary as an association
    list.  [set_order] is the iteration order of the Python set
    [companies_mentioned] handed to [sorted]; it depends on the string
    hash seed of the process and is only known to be a permutation. *)
Definition enrich_post (P : Patterns) (set_order : list string -> list string)
    (p : RawPost) (alias_map : list (string * string))
    (own_brands context_required_names : list string) : Signal :=
  let text := strip (p_text p ++ " " ++ p_title p) in
  let text_lower := lower text in
  let has_geo_context := _has_geo_terms text in
  let '(companies, is_own_brand) :=
    resolve_aliases alias_map text_lower own_brands context_required_names has_geo_context in
  let '(sent, sent_reason) := _detect_sentiment P text in
  let tags :=
    (if match companies with [] => false | _ => true end then ["company_mention"] else [])
    ++ (if RE_COMPLAINT P text then ["complaint"] else [])
    ++ (if RE_PRAISE P text then ["praise"] else [])
    ++ (if RE_QUESTION P text then ["question"] else [])
    ++ (if RE_FUNDING P text then ["funding_news"] else [])
    ++ (if RE_LAUNCH P text then ["product_launch"] else [])
    ++ (if RE_COMPARISON P text then ["comparison"] else []) in
  {| post := p;
     s_sentiment := sent;
     sentiment_reason := sent_reason;
     companies_mentioned := sorted (set_order companies);
     is_own_brand_mention := is_own_brand;
     entity_tags := tags;
     features_mentioned := filter (fun f => contains f text_lower) feature_keywords;
     is_buyer_voice := RE_BUYER P text;
     is_founder_voice := RE_FOUNDER P text;
     is_analyst_voice := RE_ANALYST P text;
     is_feature_request := RE_FEATURE_REQUEST P text;
     is_competitive_intel := RE_COMPARISON P text && (2 <=? List.length companies);
     source_quality := _source_quality (p_source p) |}.

(* ------------------------------------------------------------------ *)
(** ** enrich.py: relevance gate of [run_enrichment] *)

Inductive gate_decision := Accept | RejectHard | RejectCond | RejectNoise | RejectNoGeo.

(** One iteration of the relevance loop of [run_enrichment]:
    [company_terms = set(alias_map.keys())] is given as a list. *)
Definition relevance_gate (P : Patterns) (company_terms : list string) (p : RawPost)
  : gate_decision :=
  let title := strip (p_title p) in
  let text := (p_text p ++ " " ++ title)%string in
  if String.length title <? 10 then RejectHard
  else if TITLE_BLOCKLIST P title then RejectHard
  else if _CONDITIONAL_BLOCKLIST P title && negb (_has_geo_terms title) then RejectCond
  else
    let text_lower := lower text in
    if existsb (fun n => contains n text_lower) NOISE_PHRASES then RejectNoise
    else
      let has_geo := _has_geo_terms text in
      let is_geo_source := mem (p_source p) GEO_SOURCES in
      if is_geo_source
         && existsb (fun alias => (3 <=? String.length alias) && contains alias text_lower)
                    company_terms
      then Accept
      else if has_geo then Accept else RejectNoGeo.

(* ------------------------------------------------------------------ *)
(** ** enrich.py: final dedup of [run_enrichment] (step D) *)

Fixpoint rstrip_slash_rev (l : list ascii) : list ascii :=
  match l with
  | "/"%char :: r => rstrip_slash_rev r
  | _ => l
  end.

(** [s.rstrip("/")] *)
Definition rstrip_slash (s : string) : string :=
  string_of_list_ascii (rev (rstrip_slash_rev (rev (list_ascii_of_string s)))).

(** [(e.get("url") or "").strip().rstrip("/")] *)
Definition norm_url (e : Signal) : string := rstrip_slash (strip (p_url (post e))).

(** [len(e["companies_mentioned"]) + len(e["entity_tags"])] *)
Definition score (e : Signal) : nat :=
  List.length (companies_mentioned e) + List.length (entity_tags e).

(** The [by_url] dictionary: an insertion-ordered association list. *)
Fixpoint lookup_url (u : string) (m : list (string * Signal)) : option Signal :=
  match m with
  | [] => None
  | (k, v) :: r => if String.eqb k u then Some v else lookup_url u r
  end.

(** [by_url[url] = e]: replaces in place, or appends a new key. *)
Fixpoint put_url (u : string) (e : Signal) (m : list (string * Signal)) : list (string * Signal) :=
  match m with
  | [] => [(u, e)]
  | (k, v) :: r => if String.eqb k u then (k, e) :: r else (k, v) :: put_url u e r
  end.

(** One iteration of the URL loop; state is ([by_url], [no_url]). *)
Definition url_step (st : list (string * Signal) * list Signal) (e : Signal)
  : list (string * Signal) * list Signal :=
  let '(by_url, no_url) := st in
  let url := norm_url e in
  if String.eqb url "" then (by_url, no_url ++ [e])
  else match lookup_url url by_url with
       | None => (put_url url e by_url, no_url)
       | Some old => if score old <? score e then (put_url url e by_url, no_url) else st
       end.

Definition url_pass (enriched : list Signal) : list (string * Signal) * list Signal :=
  fold_left url_step enriched ([], []).

Definition is_alnum_lower (c : ascii) : bool :=
  let n := nat_of_ascii c in ((48 <=? n) && (n <=? 57)) || ((97 <=? n) && (n <=? 122)).

(** [re.sub(r"[^a-z0-9]", "", (e.get("title") or "").strip().lower())[:60]] *)
Definition title_key (e : Signal) : string :=
  substring 0 60 (string_of_list_ascii
    (filter is_alnum_lower (list_ascii_of_string (lower (strip (p_title (post e))))))).

(** The title loop; state is ([seen_titles], [deduped]). *)
Definition title_step (st : list string * list Signal) (e : Signal) : list string * list Signal :=
  let '(seen, deduped) := st in
  let k := title_key e in
  let long := negb (String.eqb k "") && (8 <? String.length k) in
  if long && mem k seen then st
  else ((if long then seen ++ [k] else seen), deduped ++ [e]).

(** Step (D) of [run_enrichment]: URL pass, then title pass over
    [list(by_url.values()) + no_url]. *)
Definition final_dedup (enriched : list Signal) : list Signal :=
  let '(by_url, no_url) := url_pass enriched in
  snd (fold_left title_step (map snd by_url ++ no_url) ([], [])).

(* ------------------------------------------------------------------ *)
(** ** trends.py: [_iso_week] *)

Definition digit (c : ascii) : option nat :=
  let n := nat_of_ascii c in
  if (48 <=? n) && (n <=? 57) then Some (n - 48) else None.

Definition digit_in (lo hi : nat) (c : ascii) : option nat :=
  match digit c with
  | Some d => if (lo <=? d) && (d <=? hi) then Some d else None
  | None => None
  end.

(** Alternatives of the [%m] group of [_strptime]:
    [1[0-2]|0[1-9]|[1-9]], in priority order, with the rest of the input. *)
Definition month_alts (l : list ascii) : list (nat * list ascii) :=
  (match l with
   | "1"%char :: c :: r => match digit_in 0 2 c with Some d => [(10 + d, r)] | None => [] end
   | _ => [] end)
  ++ (match l with
      | "0"%char :: c :: r => match digit_in 1 9 c with Some d => [(d, r)] | None => [] end
      | _ => [] end)
  ++ (match l with
      | c :: r => match digit_in 1 9 c with Some d => [(d, r)] | None => [] end
      | _ => [] end).

(** Alternatives of the [%d] group: [3[01]|[12]\d|0[1-9]|[1-9]| [1-9]]. *)
Definition day_alts (l : list ascii) : list (nat * list ascii) :=
  (match l with
   | "3"%char :: c :: r => match digit_in 0 1 c with Some d => [(30 + d, r)] | None => [] end
   | _ => [] end)
  ++ (match l with
      | c1 :: c2 :: r =>
          match digit_in 1 2 c1, digit c2 with
          | Some a, Some b => [(10 * a + b, r)] | _, _ => [] end
      | _ => [] end)
  ++ (match l with
      | "0"%char :: c :: r => match digit_in 1 9 c with Some d => [(d, r)] | None => [] end
      | _ => [] end)
  ++ (match l with
      | c :: r => match digit_in 1 9 c with Some d => [(d, r)] | None => [] end
      | _ => [] end)
  ++ (match l with
      | " "%char :: c :: r => match digit_in 1 9 c with Some d => [(d, r)] | None => [] end
      | _ => [] end).

Fixpoint first_some {A B : Type} (f : A -> option B) (l : list A) : option B :=
  match l with
  | [] => None
  | x :: r => match f x with Some y => Some y | None => first_some f r end
  end.

(** [datetime.strptime(s, "%Y-%m-%d")] up to the calendar check: the
    first match of the format regex (with backtracking over the
    alternatives of [%m]), which must consume the whole string. *)
Definition strptime_ymd (s : string) : option (nat * nat * nat) :=
  match list_ascii_of_string s with
  | y1 :: y2 :: y3 :: y4 :: "-"%char :: rest =>
      match digit y1, digit y2, digit y3, digit y4 with
      | Some a, Some b, Some c, Some d =>
          let year := 1000 * a + 100 * b + 10 * c + d in
          match first_some (fun '(m, r1) =>
                  match r1 with
                  | "-"%char :: r2 =>
                      match day_alts r2 with
                      | (dd, r3) :: _ => Some (m, dd, r3)
                      | [] => None
                      end
                  | _ => None
                  end) (month_alts rest) with
          | Some (m, dd, []) => Some (year, m, dd)
          | _ => None
          end
      | _, _, _, _ => None
      end
  | _ => None
  end.

Open Scope Z_scope.

Definition _is_leap (y : Z) : bool :=
  (y mod 4 =? 0) && ((negb (y mod 100 =? 0)) || (y mod 400 =? 0)).

Definition _days_in_month (y m : Z) : Z :=
  if m =? 2 then (if _is_leap y then 29 else 28)
  else if (m =? 4) || (m =? 6) || (m =? 9) || (m =? 11) then 30 else 31.

Definition _days_before_year (year : Z) : Z :=
  let y := year - 1 in y * 365 + y / 4 - y / 100 + y / 400.

Definition _days_before_month (y m : Z) : Z :=
  fold_left (fun acc k => acc + _days_in_month y (Z.of_nat k)) (seq 1 (Z.to_nat m - 1)) 0
  .

Definition _ymd2ord (y m d : Z) : Z := _days_before_year y + _days_before_month y m + d.

Definition _isoweek1monday (year : Z) : Z :=
  let firstday := _ymd2ord year 1 1 in
  let firstweekday := (firstday + 6) mod 7 in
  let week1monday := firstday - firstweekday in
  if 3 <? firstweekday then week1monday + 7 else week1monday.

(** [date.isocalendar()]: (ISO year, ISO week). *)
Definition isocalendar (y m d : Z) : Z * Z :=
  let today := _ymd2ord y m d in
  let w1 := _isoweek1monday y in
  let week := (today - w1) / 7 in
  if week <? 0 then
    let w1' := _isoweek1monday (y - 1) in (y - 1, (today - w1') / 7 + 1)
  else if (52 <=? week) && (_isoweek1monday (y + 1) <=? today) then (y + 1, 1)
  else (y, week + 1).

Close Scope Z_scope.

Fixpoint digits_rev (fuel n : nat) : list ascii :=
  match fuel with
  | O => []
  | S f => ascii_of_nat (48 + n mod 10) :: (if n <? 10 then [] else digits_rev f (n / 10))
  end.

(** [str(n)] for a natural number. *)
Definition nat_to_string (n : nat) : string := string_of_list_ascii (rev (digits_rev (S n) n)).

(** [f"{n:02d}"] *)
Definition pad2 (n : nat) : string := if n <? 10 then "0" ++ nat_to_string n else nat_to_string n.

(** [_iso_week(date_str)]: [None] where [strptime] or the date
    constructor raises [ValueError] (year 0, day past the month's end). *)
Definition _iso_week (date_str : string) : option string :=
  match strptime_ymd date_str with
  | Some (y, m, d) =>
      if (1 <=? y) && (1 <=? d) && (Z.of_nat d <=? _days_in_month (Z.of_nat y) (Z.of_nat m))%Z
      then let '(iy, iw) := isocalendar (Z.of_nat y) (Z.of_nat m) (Z.of_nat d) in
           Some (nat_to_string (Z.to_nat iy) ++ "-W" ++ pad2 (Z.to_nat iw))%string
      else None
  | None => None
  end.

(* ------------------------------------------------------------------ *)
(** ** trends.py: [run_trends] *)

Fixpoint count_str (x : string) (l : list string) : nat :=
  match l with
  | [] => 0
  | y :: r => (if String.eqb x y then 1 else 0) + count_str x r
  end.

(** [defaultdict(list)] grouping by week, keys in insertion order. *)
Fixpoint group_add (w : string) (e : Signal) (m : list (string * list Signal))
  : list (string * list Signal) :=
  match m with
  | [] => [(w, [e])]
  | (k, v) :: r => if String.eqb k w then (k, v ++ [e]) :: r else (k, v) :: group_add w e r
  end.

Definition by_week (insights : list Signal) : list (string * list Signal) :=
  fold_left (fun m e => match _iso_week (p_post_date (post e)) with
                        | Some w => group_add w e m
                        | None => m
                        end) insights [].

Definition posts_of (m : list (string * list Signal)) (w : string) : list Signal :=
  match find (fun kv => String.eqb (fst kv) w) m with Some (_, v) => v | None => [] end.

(** The per-week metrics [weekly_metrics[week]] read by the deltas. *)
Definition week_total (ps : list Signal) : nat := List.length ps.

Definition week_company (ps : list Signal) (c : string) : nat :=
  fold_left (fun n p => n + count_str c (companies_mentioned p)) ps 0.

Definition week_tag (ps : list Signal) (t : string) : nat :=
  fold_left (fun n p => n + count_str t (entity_tags p)) ps 0.

Definition week_companies_keys (ps : list Signal) : list string :=
  fold_left (fun s p => fold_left (fun s c => set_add c s) (companies_mentioned p) s) ps [].

Definition week_tags_keys (ps : list Signal) : list string :=
  fold_left (fun s p => fold_left (fun s c => set_add c s) (entity_tags p) s) ps [].

Definition signal_names : list string :=
  ["buyer_voice"; "founder_voice"; "feature_request"; "competitive_intel"].

(** [signals[sig]] of one week: [sum(1 for p in posts if p.get(flag))]. *)
Definition week_signal (ps : list Signal) (sig : string) : nat :=
  let flag := if String.eqb sig "buyer_voice" then is_buyer_voice
              else if String.eqb sig "founder_voice" then is_founder_voice
              else if String.eqb sig "feature_request" then is_feature_request
              else is_competitive_intel in
  List.length (filter flag ps).

Record TrendEntry := {
  history : list (string * nat);
  latest_count : nat;
  t_delta_pct : Q;
  t_direction : direction
}.

Record VolumeEntry := {
  v_week : string;
  v_count : nat;
  v_delta_pct : Q;
  v_direction : direction
}.

Record TrendData := {
  weeks : list string;
  volume_trend : list VolumeEntry;
  company_trends : list (string * TrendEntry);
  tag_trends : list (string * TrendEntry);
  signal_trends : list (string * TrendEntry);
  rising_list : list (string * string * Q);
  fading_list : list (string * string * Q)
}.

(** [xs[-n:]] *)
Definition lastn {A} (n : nat) (xs : list A) : list A := skipn (List.length xs - n) xs.

(** [xs[-1]] and [xs[-2]] of a list known to have two elements. *)
Definition last1 (xs : list string) : string := last xs "".
Definition last2 (xs : list string) : string := last (removelast xs) "".

(** Volume trend: previous week's total, or 0 for the first week. *)
Fixpoint volume_from (m : list (string * list Signal)) (prev : nat) (ws : list string)
  : list VolumeEntry :=
  match ws with
  | [] => []
  | w :: r =>
      let current := week_total (posts_of m w) in
      let '(delta, dir) := _compute_deltas (Z.of_nat current) (Z.of_nat prev) in
      {| v_week := w; v_count := current; v_delta_pct := delta; v_direction := dir |}
        :: volume_from m current r
  end.

(** The trend entry of one company, tag or voice series, given its
    weekly count. *)
Definition series_entry (m : list (string * list Signal)) (weeks_sorted recent : list string)
    (count : list Signal -> nat) : TrendEntry :=
  let hist := map (fun w => (w, count (posts_of m w))) weeks_sorted in
  let '(delta, dir) :=
    if 2 <=? List.length recent then
      _compute_deltas (Z.of_nat (count (posts_of m (last1 recent))))
                      (Z.of_nat (count (posts_of m (last2 recent))))
    else (0%Q, flat) in
  {| history := lastn 12 hist;
     latest_count := match rev hist with (_, c) :: _ => c | [] => 0 end;
     t_delta_pct := delta;
     t_direction := dir |}.

Definition moves (kind : string) (dir : direction) (l : list (string * TrendEntry))
  : list (string * string * Q) :=
  map (fun '(n, te) => (n, kind, t_delta_pct te))
      (filter (fun '(_, te) => match t_direction te, dir with
                               | rising, rising | fading, fading => true
                               | _, _ => false end) l).

(** [list.sort(key=lambda x: abs(x["delta"]), reverse=True)]: stable,
    larger magnitudes first. *)
Fixpoint insert_by_mag (x : string * string * Q) (l : list (string * string * Q))
  : list (string * string * Q) :=
  match l with
  | [] => [x]
  | y :: r => if Qlt_le_dec (Qabs (snd y)) (Qabs (snd x)) then x :: l
              else y :: insert_by_mag x r
  end.

Definition sort_by_mag (l : list (string * string * Q)) : list (string * string * Q) :=
  fold_left (fun acc x => insert_by_mag x acc) l [].

(** [run_trends()] on the loaded insights; [None] is the early [{}]. *)
Definition run_trends (insights : list Signal) : option TrendData :=
  let m := by_week insights in
  let weeks_sorted := sorted (map fst m) in
  match weeks_sorted with
  | [] => None
  | _ =>
    let recent := lastn 4 weeks_sorted in
    let all_companies :=
      fold_left (fun s w => fold_left (fun s c => set_add c s)
                              (week_companies_keys (posts_of m w)) s) recent [] in
    let all_tags :=
      fold_left (fun s w => fold_left (fun s c => set_add c s)
                              (week_tags_keys (posts_of m w)) s) recent [] in
    let ct := map (fun c => (c, series_entry m weeks_sorted recent (fun ps => week_company ps c)))
                  (sorted all_companies) in
    let tt := map (fun t => (t, series_entry m weeks_sorted recent (fun ps => week_tag ps t)))
                  (sorted all_tags) in
    let st := map (fun s => (s, series_entry m weeks_sorted recent (fun ps => week_signal ps s)))
                  signal_names in
    Some {| weeks := weeks_sorted;
            volume_trend := volume_from m 0 weeks_sorted;
            company_trends := ct;
            tag_trends := tt;
            signal_trends := st;
            rising_list := sort_by_mag (moves "company" rising ct ++ moves "tag" rising tt);
            fading_list := sort_by_mag (moves "company" fading ct ++ moves "tag" fading tt) |}
  end.

(* ------------------------------------------------------------------ *)
(** ** app.py: opportunity scoring *)

Record OppRecord := {
  complaints : nat;
  requests : nat;
  praise : nat;
  evidence : nat;
  companies_tried : list string;
  companies_praised : list string;
  companies_complained : list string;
  signals : list Signal;
  confidence : nat;
  company_detail : list (string * (nat * string))
}.

(** The [defaultdict] factory of both scorers. *)
Definition opp_default : OppRecord :=
  {| complaints := 0; requests := 0; praise := 0; evidence := 0;
     companies_tried := []; companies_praised := []; companies_complained := [];
     signals := []; confidence := 0; company_detail := [] |}.

(** A [defaultdict] keyed by strings, in insertion order. *)
Fixpoint lookup_opp {V} (k : string) (m : list (string * V)) : option V :=
  match m with
  | [] => None
  | (k', v) :: r => if String.eqb k' k then Some v else lookup_opp k r
  end.

Fixpoint put_opp {V} (k : string) (v : V) (m : list (string * V)) : list (string * V) :=
  match m with
  | [] => [(k, v)]
  | (k', v') :: r => if String.eqb k' k then (k', v) :: r else (k', v') :: put_opp k v r
  end.

Definition get_default {V} (d : V) (k : string) (m : list (string * V)) : V :=
  match lookup_opp k m with Some v => v | None => d end.

Definition set_complaints od n := {| complaints := n; requests := requests od; praise := praise od; evidence := evidence od; companies_tried := companies_tried od; companies_praised := companies_praised od; companies_complained := companies_complained od; signals := signals od; confidence := confidence od; company_detail := company_detail od |}.
Definition set_requests od n := {| complaints := complaints od; requests := n; praise := praise od; evidence := evidence od; companies_tried := companies_tried od; companies_praised := companies_praised od; companies_complained := companies_complained od; signals := signals od; confidence := confidence od; company_detail := company_detail od |}.
Definition set_praise od n := {| complaints := complaints od; requests := requests od; praise := n; evidence := evidence od; companies_tried := companies_tried od; companies_praised := companies_praised od; companies_complained := companies_complained od; signals := signals od; confidence := confidence od; company_detail := company_detail od |}.
Definition set_evidence od n := {| complaints := complaints od; requests := requests od; praise := praise od; evidence := n; companies_tried := companies_tried od; companies_praised := companies_praised od; companies_complained := companies_complained od; signals := signals od; confidence := confidence od; company_detail := company_detail od |}.
Definition set_tried od s := {| complaints := complaints od; requests := requests od; praise := praise od; evidence := evidence od; companies_tried := s; companies_praised := companies_praised od; companies_complained := companies_complained od; signals := signals od; confidence := confidence od; company_detail := company_detail od |}.
Definition set_praised od s := {| complaints := complaints od; requests := requests od; praise := praise od; evidence := evidence od; companies_tried := companies_tried od; companies_praised := s; companies_complained := companies_complained od; signals := signals od; confidence := confidence od; company_detail := company_detail od |}.
Definition set_complained od s := {| complaints := complaints od; requests := requests od; praise := praise od; evidence := evidence od; companies_tried := companies_tried od; companies_praised := companies_praised od; companies_complained := s; signals := signals od; confidence := confidence od; company_detail := company_detail od |}.
Definition set_signals od s := {| complaints := complaints od; requests := requests od; praise := praise od; evidence := evidence od; companies_tried := companies_tried od; companies_praised := companies_praised od; companies_complained := companies_complained od; signals := s; confidence := confidence od; company_detail := company_detail od |}.
Definition set_confidence od n := {| complaints := complaints od; requests := requests od; praise := praise od; evidence := evidence od; companies_tried := companies_tried od; companies_praised := companies_praised od; companies_complained := companies_complained od; signals := signals od; confidence := n; company_detail := company_detail od |}.
Definition set_detail od d := {| complaints := complaints od; requests := requests od; praise := praise od; evidence := evidence od; companies_tried := companies_tried od; companies_praised := companies_praised od; companies_complained := companies_complained od; signals := signals od; confidence := confidence od; company_detail := d |}.

Definition detail_default : nat * string := (0, "").

Definition OPPORTUNITY_THEMES : list (string * list string) :=
  [("Real-time Tracking", ["real-time"; "real time"; "live tracking"; "live monitoring";
                          "instant"; "continuous"; "live data"; "monitor"]);
   ("Multi-LLM Coverage", ["multiple llm"; "all llm"; "perplexity and chatgpt"; "cross-platform";
                          "every ai"; "all ai"; "multi-model"; "chatgpt and gemini";
                          "claude and"; "different ai"; "llm coverage"]);
   ("Actionable Recs", ["actionable"; "what to do"; "next steps"; "recommendations";
                       "how to improve"; "specific advice"; "optimization tip";
                       "action item"]);
   ("ROI Measurement", ["roi"; "return on investment"; "revenue impact"; "attribution";
                       "prove value"; "business impact"; "conversion"; "kpi";
                       "measure results"; "performance metric"]);
   ("Historical Trends", ["historical"; "trend"; "over time"; "change over"; "compare week";
                         "month over month"; "trajectory"; "time series";
                         "tracking progress"; "weekly report"]);
   ("Comp. Benchmarking", ["benchmark"; "compare to competitor"; "competitive";
                          "industry average"; "how do we compare"; "vs competitor";
                          "competitor analysis"; "comparison"; "ranking"]);
   ("Content Guidance", ["what to write"; "content recommendations"; "topic suggestion";
                        "content gap"; "optimization guide"; "content strategy";
                        "content plan"]);
   ("Brand Safety", ["brand safety"; "misinformation"; "hallucination about";
                    "wrong information"; "incorrect"; "ai says wrong";
                    "inaccurate"; "false information"; "reputation"]);
   ("Integrations", ["integrate"; "integration"; "connect to"; "plugin";
                    "works with"; "api"; "google analytics"; "hubspot";
                    "webhook"; "zapier"; "export data"; "third-party"])].

(** Roadmap tab: the body of [for opp, keywords in OPPORTUNITY_THEMES.items()]
    for one insight [i]. *)
Definition roadmap_theme_step (i : Signal) (text_lower : string)
    (opportunity_data : list (string * OppRecord)) (ok : string * list string)
  : list (string * OppRecord) :=
  let '(opp, keywords) := ok in
  if existsb (fun kw => contains kw text_lower) keywords then
    let tags := entity_tags i in
    let companies_i := companies_mentioned i in
    let od := get_default opp_default opp opportunity_data in
    let od := set_evidence od (evidence od + 1) in
    let od := if mem "complaint" tags
              then let od := set_complaints od (complaints od + 1) in
                   fold_left (fun od c => set_complained od (set_add c (companies_complained od)))
                             companies_i od
              else od in
    let od := if is_feature_request i then set_requests od (requests od + 1) else od in
    let od := if mem "praise" tags && match s_sentiment i with positive => true | _ => false end
              then let od := set_praise od (praise od + 1) in
                   fold_left (fun od c => set_praised od (set_add c (companies_praised od)))
                             companies_i od
              else od in
    let od := fold_left (fun od c =>
                let od := set_tried od (set_add c (companies_tried od)) in
                let '(cnt, latest) := get_default detail_default c (company_detail od) in
                let post_date := p_post_date (post i) in
                let latest := if String.ltb latest post_date then post_date else latest in
                set_detail od (put_opp c (cnt + 1, latest) (company_detail od)))
              companies_i od in
    let od := set_signals od (signals od ++ [i]) in
    put_opp opp od opportunity_data
  else opportunity_data.

(** Roadmap tab: the confidence pass for one theme. *)
Definition roadmap_confidence (od : OppRecord) : OppRecord :=
  let conf := 30 in
  let sources_seen :=
    fold_left (fun s x => set_add x s)
              (filter (fun x => negb (String.eqb x "")) (map (fun s => p_source (post s)) (signals od)))
              [] in
  let conf := conf + List.length sources_seen * 6 in
  let extra_signals := evidence od - 1 in  (* max(evidence - 1, 0) *)
  let conf := conf + Nat.min (extra_signals * 5) 15 in
  let conf := if existsb (fun s => contains "G2" (p_source (post s))) (signals od)
              then conf + 10 else conf in
  set_confidence od (Nat.min conf 95).

(** Roadmap tab: [opportunity_data] after both loops. *)
Definition opportunity_data (insights : list Signal) : list (string * OppRecord) :=
  let raw := fold_left (fun od_map i =>
               let text_lower := lower (p_text (post i) ++ " " ++ p_title (post i)) in
               fold_left (roadmap_theme_step i text_lower) OPPORTUNITY_THEMES od_map)
             insights [] in
  map (fun '(opp, od) => (opp, roadmap_confidence od)) raw.

Definition _EXPORT_OPPORTUNITY_THEMES : list (string * list string) :=
  [("Real-time Tracking", ["real-time"; "real time"; "live tracking"; "live monitoring";
                          "instant"; "continuous"; "live data"; "monitor"]);
   ("Multi-LLM Coverage", ["multiple llm"; "all llm"; "perplexity and chatgpt"; "cross-platform";
                          "every ai"; "all ai"; "multi-model"; "chatgpt and gemini";
                          "claude and"; "different ai"; "llm coverage"]);
   ("Actionable Recs", ["actionable"; "what to do"; "next steps"; "recommendations";
                       "how to improve"; "specific advice"; "optimization tip";
                       "action item"]);
   ("ROI Measurement", ["roi"; "return on investment"; "revenue impact"; "attribution";
                       "prove value"; "business impact"; "conversion"; "kpi";
                       "measure results"; "performance metric"]);
   ("Historical Trends", ["historical"; "trend"; "over time"; "change over"; "compare week";
                         "month over month"; "trajectory"; "time series";
                         "tracking progress"; "weekly report"]);
   ("Comp. Benchmarking", ["benchmark"; "compare to competitor"; "competitive";
                          "industry average"; "how do we compare"; "vs competitor";
                          "competitor analysis"; "comparison"; "ranking"]);
   ("Content Guidance", ["what to write"; "content recommendations"; "topic suggestion";
                        "content gap"; "optimization guide"; "content strategy";
                        "content plan"]);
   ("Brand Safety", ["brand safety"; "misinformation"; "hallucination about";
                    "wrong information"; "incorrect"; "ai says wrong";
                    "inaccurate"; "false information"; "reputation"]);
   ("Integrations", ["integrate"; "integration"; "connect to"; "plugin";
                    "works with"; "api"; "google analytics"; "hubspot";
                    "webhook"; "zapier"; "export data"; "third-party"])].

(** Module-level export data: the body of
    [for _eopp, _ekws in _EXPORT_OPPORTUNITY_THEMES.items()] for one insight [_ei]. *)
Definition export_theme_step (_ei : Signal) (_etxt : string)
    (_export_opp_data : list (string * OppRecord)) (ok : string * list string)
  : list (string * OppRecord) :=
  let '(_eopp, _ekws) := ok in
  let _etags := entity_tags _ei in
  let _ecomps_i := companies_mentioned _ei in
  if existsb (fun kw => contains kw _etxt) _ekws then
    let _eod := get_default opp_default _eopp _export_opp_data in
    let _eod := set_evidence _eod (evidence _eod + 1) in
    let _eod := if mem "complaint" _etags
                then let _eod := set_complaints _eod (complaints _eod + 1) in
                     fold_left (fun _eod _ec => set_complained _eod (set_add _ec (companies_complained _eod)))
                               _ecomps_i _eod
                else _eod in
    let _eod := if is_feature_request _ei then set_requests _eod (requests _eod + 1) else _eod in
    let _eod := if mem "praise" _etags && match s_sentiment _ei with positive => true | _ => false end
                then let _eod := set_praise _eod (praise _eod + 1) in
                     fold_left (fun _eod _ec => set_praised _eod (set_add _ec (companies_praised _eod)))
                               _ecomps_i _eod
                else _eod in
    let _eod := fold_left (fun _eod _ec =>
                  let _eod := set_tried _eod (set_add _ec (companies_tried _eod)) in
                  let '(cnt, latest) := get_default detail_default _ec (company_detail _eod) in
                  let _epd := p_post_date (post _ei) in
                  let latest := if String.ltb latest _epd then _epd else latest in
                  set_detail _eod (put_opp _ec (cnt + 1, latest) (company_detail _eod)))
                _ecomps_i _eod in
    let _eod := set_signals _eod (signals _eod ++ [_ei]) in
    put_opp _eopp _eod _export_opp_data
  else _export_opp_data.

(** Module-level export data: the confidence pass for one theme. *)
Definition export_confidence (_eod : OppRecord) : OppRecord :=
  let _econf := 30 in
  let _esrc_seen :=
    fold_left (fun s x => set_add x s)
              (filter (fun x => negb (String.eqb x "")) (map (fun s => p_source (post s)) (signals _eod)))
              [] in
  let _econf := _econf + List.length _esrc_seen * 6 in
  let _econf := _econf + Nat.min ((evidence _eod - 1) * 5) 15 in
  let _econf := if existsb (fun s => contains "G2" (p_source (post s))) (signals _eod)
                then _econf + 10 else _econf in
  set_confidence _eod (Nat.min _econf 95).

(** [_export_opp_data] after both module-level loops. *)
Definition _export_opp_data (insights : list Signal) : list (string * OppRecord) :=
  let raw := fold_left (fun m _ei =>
               let _etxt := lower (p_text (post _ei) ++ " " ++ p_title (post _ei)) in
               fold_left (export_theme_step _ei _etxt) _EXPORT_OPPORTUNITY_THEMES m)
             insights [] in
  map (fun '(_eopp, _eod) => (_eopp, export_confidence _eod)) raw.

(** A pattern table under which no regular expression matches; used to
    run the stages on concrete posts. *)
Definition quiet_patterns : Patterns :=
  {| POSITIVE_findall := fun _ => 0; NEGATIVE_findall := fun _ => 0;
     RE_COMPLAINT := fun _ => false; RE_PRAISE := fun _ => false;
     RE_QUESTION := fun _ => false; RE_FUNDING := fun _ => false;
     RE_LAUNCH := fun _ => false; RE_COMPARISON := fun _ => false;
     RE_BUYER := fun _ => false; RE_FOUNDER := fun _ => false;
     RE_ANALYST := fun _ => false; RE_FEATURE_REQUEST := fun _ => false;
     TITLE_BLOCKLIST := fun _ => false; _CONDITIONAL_BLOCKLIST := fun _ => false |}.

Definition mk_post (text title source url date : string) : RawPost :=
  {| p_text := text; p_title := title; p_source := source; p_url := url;
     p_post_date := date; p_post_id := "" |}.

(** A signal with the given URL, title, companies and tags; the other
    fields are fixed. *)
Definition mk_signal (url title : string) (companies tags : list string) : Signal :=
  {| post := mk_post "" title "Reddit" url "2026-02-16";
     s_sentiment := neutral; sentiment_reason := msg_none;
     companies_mentioned := companies; is_own_brand_mention := false;
     entity_tags := tags; features_mentioned := [];
     is_buyer_voice := false; is_founder_voice := false; is_analyst_voice := false;
     is_feature_request := false; is_competitive_intel := false; source_quality := 1 |}.

(** Three signals on one URL (up to a trailing slash and spaces), with
    scores 2, 1 and 1, and distinct titles. *)
Definition dup_first : Signal :=
  mk_signal "https://example.com/a" "Comparing Acme and Zeta for AI search" ["Acme"; "Zeta"] [].
Definition dup_second : Signal :=
  mk_signal "https://example.com/a/" "Acme visibility report, week two" ["Acme"] [].
Definition dup_third : Signal :=
  mk_signal " https://example.com/a " "Zeta launches a citation tracker" ["Zeta"] [].
Definition dup_input : list Signal := [dup_first; dup_second; dup_third].

(** The ISO weeks of the dated posts, one per post whose [post_date]
    parses. *)
Definition dated_weeks (insights : list Signal) : list string :=
  flat_map (fun e => match _iso_week (p_post_date (post e)) with
                     | Some w => [w]
                     | None => []
                     end) insights.

(** One signal dated 2026-02-16, i.e. one ISO week of data. *)
Definition one_week_input : list Signal :=
  [mk_signal "https://example.com/a" "Acme visibility report, week two" ["Acme"] []].

(* ------------------------------------------------------------------ *)
(** ** enrich.py: [_load_companies] *)

(** An entry of [config/companies.json]: [name], [aliases] (missing key:
    []) and [context_required] (missing key: false). *)
Record Company := {
  c_name : string;
  c_aliases : list string;
  c_context_required : bool
}.

(** The parsed file: [own_brands] and [competitors] (missing key: []). *)
Record CompanyConfig := {
  own_brands_cfg : list Company;
  competitors_cfg : list Company
}.

(** [alias_map[k] = v] on an insertion-ordered dictionary. *)
Fixpoint put_str (k v : string) (m : list (string * string)) : list (string * string) :=
  match m with
  | [] => [(k, v)]
  | (k', v') :: r => if String.eqb k' k then (k', v) :: r else (k', v') :: put_str k v r
  end.

Fixpoint lookup_str (k : string) (m : list (string * string)) : option string :=
  match m with
  | [] => None
  | (k', v) :: r => if String.eqb k' k then Some v else lookup_str k r
  end.

(** State of the two loops: ([alias_map], [own_brand_names],
    [all_aliases], [context_required_names]). *)
Definition LoadState : Type := list (string * string) * list string * list string * list string.

Definition load_own_step (st : LoadState) (c : Company) : LoadState :=
  let '(alias_map, own, all_aliases, ctx) := st in
  let name := c_name c in
  let own := set_add (lower name) own in
  let alias_map := put_str (lower name) name alias_map in
  let '(alias_map, own, all_aliases) :=
    fold_left (fun '(am, ow, aa) a =>
                 (put_str (lower a) name am, set_add (lower a) ow, set_add (lower a) aa))
              (c_aliases c) (alias_map, own, all_aliases) in
  (alias_map, own, all_aliases, if c_context_required c then set_add name ctx else ctx).

Definition load_competitor_step (st : LoadState) (c : Company) : LoadState :=
  let '(alias_map, own, all_aliases, ctx) := st in
  let name := c_name c in
  let alias_map := put_str (lower name) name alias_map in
  let '(alias_map, all_aliases) :=
    fold_left (fun '(am, aa) a => (put_str (lower a) name am, set_add (lower a) aa))
              (c_aliases c) (alias_map, all_aliases) in
  (alias_map, own, all_aliases, if c_context_required c then set_add name ctx else ctx).

(** [_load_companies()] without [all_companies]; [None] is a missing
    [config/companies.json]. *)
Definition _load_companies (cfg : option CompanyConfig) : LoadState :=
  match cfg with
  | None => ([], [], [], [])
  | Some d =>
      fold_left load_competitor_step (competitors_cfg d)
                (fold_left load_own_step (own_brands_cfg d) ([], [], [], []))
  end.

(* ------------------------------------------------------------------ *)
(** ** enrich.py: the other steps of [run_enrichment] *)

(** Pre-dedup key: [p.get("post_id", "") or p.get("text", "")[:100]]. *)
Definition pre_key (p : RawPost) : string :=
  if String.eqb (p_post_id p) "" then substring 0 100 (p_text p) else p_post_id p.

(** The pre-dedup loop; state is ([seen], [unique]). *)
Definition pre_step (st : list string * list RawPost) (p : RawPost) : list string * list RawPost :=
  let '(seen, unique) := st in
  let key := pre_key p in
  if negb (String.eqb key "") && negb (mem key seen) then (seen ++ [key], unique ++ [p]) else st.

Definition pre_dedup (all_posts : list RawPost) : list RawPost :=
  snd (fold_left pre_step all_posts ([], [])).

(** [if since_date: relevant = [p for p in relevant if p.get("post_date", "") >= since_date]];
    [None] and [""] are both the empty string. *)
Definition date_filter (since_date : string) (relevant : list RawPost) : list RawPost :=
  if String.eqb since_date "" then relevant
  else filter (fun p => String.leb since_date (p_post_date p)) relevant.

(** [enriched.sort(key=lambda x: x.get("post_date", ""), reverse=True)]:
    a stable sort, newest first, equal dates in their original order. *)
Fixpoint insert_by_date (x : Signal) (l : list Signal) : list Signal :=
  match l with
  | [] => [x]
  | y :: r => if String.leb (p_post_date (post y)) (p_post_date (post x)) then x :: l
              else y :: insert_by_date x r
  end.

Definition sort_by_date_desc (l : list Signal) : list Signal := fold_right insert_by_date [] l.

Definition gate_accepts (P : Patterns) (company_terms : list string) (p : RawPost) : bool :=
  match relevance_gate P company_terms p with Accept => true | _ => false end.

(** [run_enrichment(since_date)] on the concatenated scraped posts
    [all_posts] and the company file [cfg]; the returned list is the one
    written to [data/enriched_insights.json]. *)
Definition run_enrichment (P : Patterns) (set_order : list string -> list string)
    (cfg : option CompanyConfig) (all_posts : list RawPost) (since_date : string)
  : list Signal :=
  let '(alias_map, own_brands, _, context_required) := _load_companies cfg in
  let company_terms := map fst alias_map in
  match all_posts with
  | [] => []
  | _ =>
    let unique := pre_dedup all_posts in
    let relevant := filter (gate_accepts P company_terms) unique in
    let relevant := date_filter since_date relevant in
    let enriched :=
      map (fun p => enrich_post P set_order p alias_map own_brands context_required) relevant in
    sort_by_date_desc (final_dedup enriched)
  end.

(** The components of the result of [_load_companies]. *)
Definition alias_map_of (st : LoadState) : list (string * string) := let '(am, _, _, _) := st in am.
Definition own_names_of (st : LoadState) : list string := let '(_, ow, _, _) := st in ow.
Definition context_required_of (st : LoadState) : list string := let '(_, _, _, cr) := st in cr.

(** The assignments [alias_map[k] = name] performed by [_load_companies],
    in file order: own brands, then competitors; for each company its
    lowercased name, then its lowercased aliases. *)
Definition alias_writes (d : CompanyConfig) : list (string * string) :=
  flat_map (fun c => (lower (c_name c), c_name c) :: map (fun a => (lower a, c_name c)) (c_aliases c))
           (own_brands_cfg d ++ competitors_cfg d).

(** The value of the last assignment to key [k], if any. *)
Definition last_write (k : string) (ws : list (string * string)) : option string :=
  fold_left (fun acc kv => if String.eqb (fst kv) k then Some (snd kv) else acc) ws None.

(** The condition under which the title pass records a title key. *)
Definition long_title (e : Signal) : bool :=
  negb (String.eqb (title_key e) "") && (8 <? String.length (title_key e)).

(** [e.get("post_date", "")] *)
Definition date_of (s : Signal) : string := p_post_date (post s).

(** A company file: one own brand and one context-required competitor. *)
Definition acme_cfg : CompanyConfig :=
  {| own_brands_cfg := [{| c_name := "Acme"; c_aliases := ["acme.ai"]; c_context_required := false |}];
     competitors_cfg := [{| c_name := "Zeta"; c_aliases := ["zeta"; "zt"];
                            c_context_required := true |}] |}.

(** Scraped posts: a G2 review, the same review scraped twice, a
    moderator notice and an off-topic post with a short title. *)
Definition scraped_example : list RawPost :=
  [{| p_text := "Acme gives us citation tracking for AI search";
      p_title := "Acme vs Zeta for AI visibility"; p_source := "G2";
      p_url := "https://g2.com/r/1"; p_post_date := "2026-02-16"; p_post_id := "g2-1" |};
   {| p_text := "Acme gives us citation tracking for AI search";
      p_title := "Acme vs Zeta for AI visibility"; p_source := "G2";
      p_url := "https://g2.com/r/1"; p_post_date := "2026-02-16"; p_post_id := "g2-1" |};
   {| p_text := "I am a bot, this action was performed automatically";
      p_title := "Weekly SEO megathread"; p_source := "Reddit";
      p_url := "https://reddit.com/x"; p_post_date := "2026-02-17"; p_post_id := "r-1" |};
   {| p_text := "nothing"; p_title := "Hi"; p_source := "Reddit";
      p_url := ""; p_post_date := "2026-02-18"; p_post_id := "r-2" |}].

Definition first_enriched_example : Signal :=
  hd (mk_signal "" "" [] [])
     (run_enrichment quiet_patterns (fun l => l) (Some acme_cfg) scraped_example "2026-01-01").

(** A signal with the given date, URL, title, companies and tags. *)
Definition mk_dated_signal (date url title : string) (companies tags : list string) : Signal :=
  {| post := {| p_text := ""; p_title := title; p_source := "Reddit"; p_url := url;
                p_post_date := date; p_post_id := "" |};
     s_sentiment := neutral; sentiment_reason := msg_none;
     companies_mentioned := companies; is_own_brand_mention := false;
     entity_tags := tags; features_mentioned := [];
     is_buyer_voice := false; is_founder_voice := false; is_analyst_voice := false;
     is_feature_request := false; is_competitive_intel := false; source_quality := 2 |}.

(** Two ISO weeks (2026-W07 and 2026-W08): Acme is mentioned once, then
    twice; Zeta appears in the second week only. *)
Definition two_week_input : list Signal :=
  [mk_dated_signal "2026-02-09" "https://example.com/1" "Acme pricing thread" ["Acme"] ["complaint"];
   mk_dated_signal "2026-02-16" "https://example.com/2" "Acme citation report" ["Acme"] [];
   mk_dated_signal "2026-02-17" "https://example.com/3" "Acme versus Zeta" ["Acme"; "Zeta"] []].

Definition empty_trend_data : TrendData :=
  {| weeks := []; volume_trend := []; company_trends := []; tag_trends := [];
     signal_trends := []; rising_list := []; fading_list := [] |}.

Definition two_week_trends : TrendData :=
  match run_trends two_week_input with Some td => td | None => empty_trend_data end.

(* ------------------------------------------------------------------ *)
(** ** app.py: feed helpers *)

(** The two title/topic regexes of the dashboard, as their [search]
    results. *)
Record AppPatterns := {
  _TITLE_BLOCKLIST : string -> bool;
  _OFFTOPIC_BLOCKLIST : string -> bool
}.

(** [_source_badge(source)] *)
Definition _source_badge (source : string) : string :=
  match find (fun key => contains (lower key) (lower source))
             ["Reddit"; "Hacker News"; "Slack"; "Product Hunt"; "G2"; "News"; "RSS"] with
  | Some key => key
  | None => if String.eqb (strip source) "" then "Source" else strip source
  end.

(** [(p.get("url") or "").strip()]: the dashboard does not strip slashes. *)
Definition app_url (p : Signal) : string := strip (p_url (post p)).

(** One iteration of the loop of [_dedup_insights]; state is
    ([by_url], [no_url]). *)
Definition app_dedup_step (st : list (string * Signal) * list Signal) (p : Signal)
  : list (string * Signal) * list Signal :=
  let '(by_url, no_url) := st in
  let url := app_url p in
  if String.eqb url "" then (by_url, no_url ++ [p])
  else match lookup_url url by_url with
       | None => (put_url url p by_url, no_url)
       | Some existing =>
           if score existing <? score p then (put_url url p by_url, no_url) else st
       end.

(** [_dedup_insights(posts)] *)
Definition _dedup_insights (posts : list Signal) : list Signal :=
  let '(by_url, no_url) := fold_left app_dedup_step posts ([], []) in
  map snd by_url ++ no_url.

(** [_is_displayable_post(insight)] *)
Definition _is_displayable_post (AP : AppPatterns) (insight : Signal) : bool :=
  let title := strip (p_title (post insight)) in
  if String.eqb title "" then false
  else if _TITLE_BLOCKLIST AP title then false
  else true.

(** [datetime.strptime(s, "%Y-%m-%d")] as a proleptic Gregorian ordinal
    ([date.toordinal()]); [None] where it raises [ValueError]. *)
Definition parse_date (s : string) : option Z :=
  match strptime_ymd s with
  | Some (y, m, d) =>
      if (1 <=? y) && (1 <=? d) && (Z.of_nat d <=? _days_in_month (Z.of_nat y) (Z.of_nat m))%Z
      then Some (_ymd2ord (Z.of_nat y) (Z.of_nat m) (Z.of_nat d))
      else None
  | None => None
  end.

(** [datetime.now()]: the ordinal of today's date and the microseconds
    elapsed since midnight. *)
Record Now := {
  now_day : Z;
  now_usec : Z
}.

Definition _MAX_AGE_DAYS : Z := 730.

(** [_within_age_limit(insight)]: [dt >= datetime.now() - timedelta(days=730)],
    comparing (day, time of day) pairs; a date at midnight [d] is not
    earlier than [(now_day - 730, now_usec)] when [d] is later, or equal
    and [now_usec] is 0. *)
Definition _within_age_limit (now : Now) (insight : Signal) : bool :=
  match parse_date (p_post_date (post insight)) with
  | None => false
  | Some d => (now_day now - _MAX_AGE_DAYS <? d)%Z
              || ((d =? now_day now - _MAX_AGE_DAYS)%Z && (now_usec now <=? 0)%Z)
  end.

(** The module-level [insights] of the dashboard:
    [_dedup_insights([i for i in _raw_insights if _within_age_limit(i) and _is_displayable_post(i)])]. *)
Definition app_insights (AP : AppPatterns) (now : Now) (raw : list Signal) : list Signal :=
  _dedup_insights (filter (fun i => _within_age_limit now i && _is_displayable_post AP i) raw).

(** The loop of [_get_new_companies] over one insight's companies. *)
Definition oldest_step (company_oldest : list (string * string)) (i : Signal)
  : list (string * string) :=
  let date_str := p_post_date (post i) in
  fold_left (fun m comp =>
               match lookup_str comp m with
               | None => put_str comp date_str m
               | Some old =>
                   if negb (String.eqb date_str "") && String.ltb date_str old
                   then put_str comp date_str m else m
               end) (companies_mentioned i) company_oldest.

Definition company_oldest (insights_list : list Signal) : list (string * string) :=
  fold_left oldest_step insights_list [].

(** [_get_new_companies(json.dumps(insights))] at time [now]: the
    companies whose recorded oldest date parses and is at most 7 days
    before today ([(now - dt).days <= 7]). *)
Definition _get_new_companies (now : Now) (insights_list : list Signal) : list string :=
  map fst (filter (fun kv => match parse_date (snd kv) with
                             | Some d => (now_day now - d <=? 7)%Z
                             | None => false
                             end) (company_oldest insights_list)).

Definition _GEO_DISPLAY_TERMS : list string :=
  ["geo "; "geo/aeo"; " aeo "; "generative engine"; "answer engine";
   "ai search"; "ai visibility"; "ai answer"; "ai citation"; "ai overview";
   "brand visibility"; "share of voice"; "share of answer";
   "llm optimization"; "llm brand"; "llm monitoring";
   "ai overviews"; "zero click"; "zero-click";
   "content optimization"; "structured data"; "schema markup";
   "searchgpt"; "search gpt";
   "chatgpt search"; "chatgpt visibility"; "chatgpt citation";
   "gemini search"; "gemini visibility";
   "perplexity search"; "perplexity answer"; "perplexity citation";
   "seo tool"; "seo platform"; "seo measurement";
   "brand mention"; "brand monitoring"; "brand measurement";
   "generative search"; "conversational search"].

Definition _GEO_WEAK_TERMS : list string := ["seo"; "chatgpt"; "perplexity"; "gemini"; "ai tool"].

(** [_is_display_relevant(insight)] *)
Definition _is_display_relevant (AP : AppPatterns) (insight : Signal) : bool :=
  let text := lower (p_text (post insight) ++ " " ++ p_title (post insight)) in
  let title := strip (p_title (post insight)) in
  if _OFFTOPIC_BLOCKLIST AP text then false
  else if _TITLE_BLOCKLIST AP title then false
  else if existsb (fun term => contains term text) _GEO_DISPLAY_TERMS then true
  else
    let has_companies := match companies_mentioned insight with [] => false | _ => true end in
    let has_weak := existsb (fun term => contains term text) _GEO_WEAK_TERMS in
    if has_companies && has_weak then true
    else if has_companies && mem (p_source (post insight)) ["G2"; "Product Hunt"] then true
    else false.

(** [s.split()]: maximal runs of non-whitespace characters. *)
Fixpoint split_ws_aux (l : list ascii) (cur : list ascii) : list string :=
  match l with
  | [] => match cur with [] => [] | _ => [string_of_list_ascii (rev cur)] end
  | c :: r =>
      if is_space c then
        match cur with
        | [] => split_ws_aux r []
        | _ => string_of_list_ascii (rev cur) :: split_ws_aux r []
        end
      else split_ws_aux r (c :: cur)
  end.

Definition split_ws (s : string) : list string := split_ws_aux (list_ascii_of_string s) [].

(** The score of one insight in [_get_relevant_posts]. *)
Definition query_score (query_lower : string) (i : Signal) : nat :=
  let text := lower (p_text (post i) ++ " " ++ p_title (post i)) in
  List.length (filter (fun word => (3 <? String.length word) && contains word text)
                      (split_ws query_lower))
  + 3 * List.length (filter (fun c => contains (lower c) query_lower) (companies_mentioned i)).

(** [scored.sort(key=lambda x: x[0], reverse=True)]: stable, highest
    score first. *)
Fixpoint insert_by_score (x : nat * Signal) (l : list (nat * Signal)) : list (nat * Signal) :=
  match l with
  | [] => [x]
  | y :: r => if fst y <=? fst x then x :: l else y :: insert_by_score x r
  end.

Definition sort_by_score (l : list (nat * Signal)) : list (nat * Signal) :=
  fold_right insert_by_score [] l.

(** [_get_relevant_posts(query, limit)] over the dashboard's [insights]. *)
Definition _get_relevant_posts (insights_list : list Signal) (query : string) (limit : nat)
  : list Signal :=
  let query_lower := lower query in
  let scored := filter (fun si => 0 <? fst si)
                       (map (fun i => (query_score query_lower i, i)) insights_list) in
  map snd (firstn limit (sort_by_score scored)).

(** Successive [d[k] = v] writes into an insertion-ordered dict. *)
Definition put_all (ws : list (string * string)) (m : list (string * string)) : list (string * string) :=
  fold_left (fun m kv => put_str (fst kv) (snd kv) m) ws m.

Definition company_writes (c : Company) : list (string * string) :=
  (lower (c_name c), c_name c) :: map (fun a => (lower a, c_name c)) (c_aliases c).

(** The insights of [l] whose stripped URL (as the dashboard computes it)
    is [u]. *)
Definition app_group (u : string) (l : list Signal) : list Signal :=
  filter (fun p => String.eqb (app_url p) u) l.

(** The effect of one insight dated [date_str] on [company_oldest[comp]]
    when [comp] is among its companies. *)
Definition oldest_update (date_str : string) (o : option string) : option string :=
  match o with
  | None => Some date_str
  | Some old => Some (if negb (String.eqb date_str "") && String.ltb date_str old then date_str else old)
  end.

(** The insights of [l] that mention [comp]. *)
Definition mentioning (comp : string) (l : list Signal) : list Signal :=
  filter (fun i => mem comp (companies_mentioned i)) l.


(** The dashboard's blocklists matching nothing, and a clock reading of
    2026-10-15 at midnight. *)
Definition quiet_app_patterns : AppPatterns :=
  {| _TITLE_BLOCKLIST := fun _ => false; _OFFTOPIC_BLOCKLIST := fun _ => false |}.

Definition now_example : Now := {| now_day := _ymd2ord 2026 10 15; now_usec := 0 |}.

(** [str(n)] for a Python int. *)
Definition py_int_str (z : Z) : string :=
  if (z <? 0)%Z then ("-" ++ nat_to_string (Z.to_nat (- z)))%string else nat_to_string (Z.to_nat z).

(** [_time_ago(date_str)]: [(datetime.now() - dt).days] is the difference
    of the day ordinals, since [dt] is at midnight. *)
Definition _time_ago (now : Now) (date_str : string) : string :=
  match parse_date date_str with
  | None => ""
  | Some d =>
      let days := (now_day now - d)%Z in
      if (days =? 0)%Z then "today"
      else if (days =? 1)%Z then "1d ago"
      else if (days <? 7)%Z then (py_int_str days ++ "d ago")%string
      else if (days <? 30)%Z then (py_int_str (days / 7) ++ "w ago")%string
      else (py_int_str (days / 30) ++ "mo ago")%string
  end.

(* ------------------------------------------------------------------ *)
(** ** Auxiliary notions used in the statements and proofs *)

(** The exact percentage change from [prior] to [current]. *)
Definition delta_pct_of (current prior : Z) : Q :=
  ((inject_Z (current - prior) / inject_Z prior) * 100)%Q.

(** Records whose evidence count is the number of their signals. *)
Definition ev_ok (od : OppRecord) : Prop := evidence od = List.length (signals od).

Definition map_ev_ok (m : list (string * OppRecord)) : Prop :=
  forall k od, lookup_opp k m = Some od -> ev_ok od.

(** Number of distinct non-empty source strings of a list of signals. *)
Definition distinct_sources (sigs : list Signal) : nat :=
  List.length (nodup string_dec (filter (fun x => negb (String.eqb x ""))
                                         (map (fun s => p_source (post s)) sigs))).

Definition has_g2 (sigs : list Signal) : bool :=
  existsb (fun s => contains "G2" (p_source (post s))) sigs.

(** A single G2 signal about real-time tracking. *)
Definition g2_realtime_signal : Signal :=
  enrich_post quiet_patterns (fun l => l)
    (mk_post "We need real-time alerts" "Acme real-time tracking" "G2" "https://g2.com/r/1" "2026-02-16")
    [("acme", "Acme")] [] [].

(** The test an alias-map entry passes to contribute its canonical name. *)
Definition alias_contributes (text_lower : string) (ctx : list string) (has_geo : bool)
    (alias canonical : string) : Prop :=
  3 <= String.length alias /\
  (String.length alias <= 4 -> search_word alias text_lower = true) /\
  (4 < String.length alias -> contains alias text_lower = true) /\
  (In canonical ctx -> has_geo = true).

(** The signals of [l] whose normalised URL is [u], in input order. *)
Definition url_group (u : string) (l : list Signal) : list Signal :=
  filter (fun e => String.eqb (norm_url e) u) l.

(** [s] is the earliest element of [g] with the largest score. *)
Definition is_first_max (g : list Signal) (s : Signal) : Prop :=
  exists i, nth_error g i = Some s /\
            (forall j e, nth_error g j = Some e -> score e <= score s) /\
            (forall j e, j < i -> nth_error g j = Some e -> score e < score s).

(** Invariant of the URL pass on a prefix [l] of the input. *)
Definition url_inv (l : list Signal) (st : list (string * Signal) * list Signal) : Prop :=
  (forall u, u <> "" ->
     (url_group u l = [] -> lookup_url u (fst st) = None) /\
     (url_group u l <> [] -> exists s, lookup_url u (fst st) = Some s /\ is_first_max (url_group u l) s)) /\
  Forall (fun kv => norm_url (snd kv) = fst kv) (fst st) /\
  NoDup (map fst (fst st)) /\
  Forall (fun e => norm_url e = "") (snd st).

(** Invariant of the loop of [_dedup_insights] on a prefix [l] of the
    input. *)
Definition app_inv (l : list Signal) (st : list (string * Signal) * list Signal) : Prop :=
  (forall u, u <> "" ->
     (app_group u l = [] -> lookup_url u (fst st) = None) /\
     (app_group u l <> [] -> exists s, lookup_url u (fst st) = Some s /\ is_first_max (app_group u l) s)) /\
  Forall (fun kv => app_url (snd kv) = fst kv /\ fst kv <> "") (fst st) /\
  NoDup (map fst (fst st)) /\
  snd st = app_group "" l.

(* ================================================================== *)
(** * Properties *)

(* ------------------------------------------------------------------ *)
(** ** Week-over-week delta classifier *)

(** *** Rounding to a double is monotone *)

Lemma rne_div_floor :
  forall n d, (0 < d)%Z -> (n / d <= rne_div n d <= n / d + 1)%Z.
Proof.
  intros n d Hd. unfold rne_div.
  destruct (Z.compare _ _); [destruct (Z.even _) |  |]; lia.
Qed.

Lemma rne_div_mono :
  forall n1 d1 n2 d2, (0 < d1)%Z -> (0 < d2)%Z -> (n1 * d2 <= n2 * d1)%Z ->
    (rne_div n1 d1 <= rne_div n2 d2)%Z.
Proof.
  intros n1 d1 n2 d2 H1 H2 H. unfold rne_div.
  pose proof (Z.div_mod n1 d1 ltac:(lia)) as E1. pose proof (Z.mod_pos_bound n1 d1 H1) as B1.
  pose proof (Z.div_mod n2 d2 ltac:(lia)) as E2. pose proof (Z.mod_pos_bound n2 d2 H2) as B2.
  generalize dependent (n1 / d1)%Z. generalize dependent (n1 mod d1)%Z.
  generalize dependent (n2 / d2)%Z. generalize dependent (n2 mod d2)%Z.
  intros r2 B2 q2 E2 r1 B1 q1 E1. subst n1 n2.
  assert (HD : (0 < d1 * d2)%Z) by nia.
  assert (Hq : (q1 <= q2)%Z).
  { destruct (Z_le_gt_dec q1 q2) as [| Hg]; [assumption | exfalso].
    assert (G : (d1 * d2 * (q2 + 1) <= d1 * d2 * q1)%Z) by (apply Z.mul_le_mono_nonneg_l; lia).
    assert (r2 * d1 < d2 * d1)%Z by nia. assert (0 <= r1 * d2)%Z by nia. nia. }
  destruct (Z.eq_dec q1 q2) as [<- | Ne].
  - assert (Hr : (r1 * d2 <= r2 * d1)%Z) by nia.
    destruct (Z.compare_spec (2 * r1) d1); destruct (Z.compare_spec (2 * r2) d2);
      try destruct (Z.even q1); nia.
  - destruct (Z.compare_spec (2 * r1) d1); destruct (Z.compare_spec (2 * r2) d2);
      try destruct (Z.even q1); try destruct (Z.even q2); lia.
Qed.

Lemma rne_Q_mono : forall x y, (x <= y)%Q -> (rne_Q x <= rne_Q y)%Z.
Proof. intros x y H. unfold rne_Q. apply rne_div_mono; [lia | lia | exact H]. Qed.

Lemma rne_Q_ge : forall x k, (inject_Z k <= x)%Q -> (k <= rne_Q x)%Z.
Proof.
  intros [n d] k H. unfold Qle in H. simpl in H. unfold rne_Q. simpl.
  pose proof (rne_div_floor n (Zpos d) ltac:(lia)).
  assert (k <= n / Zpos d)%Z by (apply Z.div_le_lower_bound; lia). lia.
Qed.

Lemma rne_Q_le : forall x k, (x < inject_Z k)%Q -> (rne_Q x <= k)%Z.
Proof.
  intros [n d] k H. unfold Qlt in H. simpl in H. unfold rne_Q. simpl.
  pose proof (rne_div_floor n (Zpos d) ltac:(lia)).
  assert (n / Zpos d < k)%Z by (apply Z.div_lt_upper_bound; lia). lia.
Qed.

Lemma two_gt_1 : (1 < 2)%Q.
Proof. reflexivity. Qed.

Lemma pow2_pos : forall e, (0 < 2 ^ e)%Q.
Proof. intros e. apply Qpower_0_lt. reflexivity. Qed.

Lemma pow2_plus : forall n m, (2 ^ (n + m) == 2 ^ n * 2 ^ m)%Q.
Proof. intros n m. apply Qpower_plus. discriminate. Qed.

Lemma pow2_Z : forall n, (0 <= n)%Z -> (inject_Z (2 ^ n) == 2 ^ n)%Q.
Proof. intros n Hn. apply (Zpower_Qpower 2 n Hn). Qed.

Lemma fl_exp_spec :
  forall x, (0 < x)%Q ->
    (2 ^ (fl_exp x + 52) <= x /\ x < 2 ^ (fl_exp x + 53))%Q.
Proof.
  intros [a d] Hx. assert (Ha : (0 < a)%Z) by (unfold Qlt in Hx; simpl in Hx; lia).
  unfold fl_exp. cbn [Qnum Qden].
  set (la := Z.log2 a). set (ld := Z.log2 (Zpos d)).
  destruct (Z.log2_spec a Ha) as [La1 La2]. fold la in La1, La2.
  destruct (Z.log2_spec (Zpos d) ltac:(lia)) as [Ld1 Ld2]. fold ld in Ld1, Ld2.
  assert (Hla : (0 <= la)%Z) by apply Z.log2_nonneg.
  assert (Hld : (0 <= ld)%Z) by apply Z.log2_nonneg.
  assert (QA1 : (2 ^ la <= inject_Z a)%Q)
    by (rewrite <- pow2_Z by lia; rewrite <- Zle_Qle; exact La1).
  assert (QA2 : (inject_Z a < 2 ^ (la + 1))%Q)
    by (rewrite <- pow2_Z by lia; rewrite <- Zlt_Qlt; exact La2).
  assert (QD1 : (2 ^ ld <= inject_Z (Zpos d))%Q)
    by (rewrite <- pow2_Z by lia; rewrite <- Zle_Qle; exact Ld1).
  assert (QD2 : (inject_Z (Zpos d) < 2 ^ (ld + 1))%Q)
    by (rewrite <- pow2_Z by lia; rewrite <- Zlt_Qlt; exact Ld2).
  assert (HD : (0 < inject_Z (Zpos d))%Q) by (unfold Qlt; simpl; lia).
  rewrite Qmake_Qdiv.
  set (t := (la - ld)%Z).
  assert (Lo : (2 ^ (t - 1) < inject_Z a / inject_Z (Zpos d))%Q).
  { apply Qlt_shift_div_l; [exact HD |].
    apply Qlt_le_trans with (2 ^ (t - 1) * 2 ^ (ld + 1))%Q.
    - apply Qmult_lt_l; [apply pow2_pos | exact QD2].
    - rewrite <- pow2_plus. replace (t - 1 + (ld + 1))%Z with la by (unfold t; ring). exact QA1. }
  assert (Hi : (inject_Z a / inject_Z (Zpos d) < 2 ^ (t + 1))%Q).
  { apply Qlt_shift_div_r; [exact HD |].
    apply Qlt_le_trans with (2 ^ (la + 1))%Q; [exact QA2 |].
    replace (la + 1)%Z with ((t + 1) + ld)%Z by (unfold t; ring). rewrite pow2_plus.
    apply Qmult_le_l; [apply pow2_pos | exact QD1]. }
  rewrite <- Qmake_Qdiv in Lo, Hi |- *.
  destruct (Qle_bool (2 ^ t) (a # d)) eqn:E.
  - apply Qle_bool_iff in E.
    replace (t - 52 + 52)%Z with t by ring. replace (t - 52 + 53)%Z with (t + 1)%Z by ring.
    split; assumption.
  - assert (E' : ((a # d) < 2 ^ t)%Q).
    { apply Qnot_le_lt. intros H. apply Qle_bool_iff in H. congruence. }
    replace (t - 53 + 52)%Z with (t - 1)%Z by ring. replace (t - 53 + 53)%Z with t by ring.
    split; [apply Qlt_le_weak |]; assumption.
Qed.

Lemma fl_pos_mant :
  forall x, (0 < x)%Q ->
    (2 ^ 52 <= rne_Q (x / 2 ^ fl_exp x) <= 2 ^ 53)%Z.
Proof.
  intros x Hx. destruct (fl_exp_spec x Hx) as [L H].
  split.
  - apply rne_Q_ge. rewrite (pow2_Z 52) by lia.
    apply Qle_shift_div_l; [apply pow2_pos |]. rewrite <- pow2_plus.
    rewrite Z.add_comm. exact L.
  - apply rne_Q_le. rewrite (pow2_Z 53) by lia.
    apply Qlt_shift_div_r; [apply pow2_pos |]. rewrite <- pow2_plus.
    rewrite Z.add_comm. exact H.
Qed.

Lemma fl_pos_nonneg : forall x, (0 < x)%Q -> (0 <= fl_pos x)%Q.
Proof.
  intros x Hx. unfold fl_pos. cbv zeta. apply Qmult_le_0_compat.
  - pose proof (fl_pos_mant x Hx). rewrite <- (Zle_Qle 0). lia.
  - apply Qlt_le_weak, pow2_pos.
Qed.

Lemma fl_pos_mono : forall x y, (0 < x)%Q -> (x <= y)%Q -> (fl_pos x <= fl_pos y)%Q.
Proof.
  intros x y Hx Hxy.
  assert (Hy : (0 < y)%Q) by (apply Qlt_le_trans with x; assumption).
  destruct (fl_exp_spec x Hx) as [Lx Ux]. destruct (fl_exp_spec y Hy) as [Ly Uy].
  pose proof (fl_pos_mant x Hx) as Mx. pose proof (fl_pos_mant y Hy) as My.
  assert (He : (fl_exp x + 52 < fl_exp y + 53)%Z).
  { apply (Qpower_lt_compat_l_inv 2); [| reflexivity].
    apply Qle_lt_trans with x; [exact Lx |]. apply Qle_lt_trans with y; assumption. }
  unfold fl_pos. cbv zeta.
  destruct (Z.eq_dec (fl_exp x) (fl_exp y)) as [Eq | Ne].
  - rewrite <- Eq. apply Qmult_le_compat_r; [| apply Qlt_le_weak, pow2_pos].
    rewrite <- Zle_Qle. apply rne_Q_mono.
    apply Qmult_le_compat_r; [exact Hxy |]. apply Qinv_le_0_compat, Qlt_le_weak, pow2_pos.
  - apply Qle_trans with (inject_Z (2 ^ 53) * 2 ^ fl_exp x)%Q.
    + apply Qmult_le_compat_r; [| apply Qlt_le_weak, pow2_pos].
      rewrite <- Zle_Qle. lia.
    + apply Qle_trans with (inject_Z (2 ^ 52) * 2 ^ fl_exp y)%Q.
      * rewrite !pow2_Z by lia. rewrite <- !pow2_plus.
        apply Qpower_le_compat_l; [lia | discriminate].
      * apply Qmult_le_compat_r; [| apply Qlt_le_weak, pow2_pos].
        rewrite <- Zle_Qle. lia.
Qed.

Lemma Qnum_pos_lt : forall x p, Qnum x = Zpos p -> (0 < x)%Q.
Proof. intros [n d] p H. simpl in H. subst. unfold Qlt. simpl. lia. Qed.

Lemma fl_mono : forall x y, (x <= y)%Q -> (fl x <= fl y)%Q.
Proof.
  intros x y H. unfold fl.
  destruct x as [[| a | a] d]; destruct y as [[| b | b] f]; cbn [Qnum];
    try (unfold Qle in H; simpl in H; lia).
  - apply Qle_refl.
  - apply fl_pos_nonneg. unfold Qlt; simpl; lia.
  - apply fl_pos_mono; [unfold Qlt; simpl; lia | exact H].
  - rewrite <- (Qopp_involutive 0). apply Qopp_le_compat. apply fl_pos_nonneg.
    unfold Qlt; simpl; lia.
  - apply Qle_trans with 0%Q.
    + rewrite <- (Qopp_involutive 0). apply Qopp_le_compat. apply fl_pos_nonneg.
      unfold Qlt; simpl; lia.
    + apply fl_pos_nonneg. unfold Qlt; simpl; lia.
  - apply Qopp_le_compat. apply fl_pos_mono; [unfold Qlt; simpl; lia |].
    apply Qopp_le_compat in H. exact H.
Qed.

Lemma py_round1_ge20 : forall x, (20 < x)%Q -> (20 <= py_round1 x)%Q.
Proof.
  intros [n d] H. unfold Qlt in H. simpl in H. unfold py_round1. cbn [Qnum Qden].
  pose proof (rne_div_floor (10 * n) (Zpos d) ltac:(lia)) as F.
  assert (200 <= 10 * n / Zpos d)%Z by (apply Z.div_le_lower_bound; lia).
  apply Qle_trans with (fl 20); [vm_compute; discriminate |].
  apply fl_mono. unfold Qle. cbn [Qnum Qden]. lia.
Qed.

Lemma py_round1_lem20 : forall x, (x < -20)%Q -> (py_round1 x <= -20)%Q.
Proof.
  intros [n d] H. unfold Qlt in H. simpl in H. unfold py_round1. cbn [Qnum Qden].
  pose proof (rne_div_floor (10 * n) (Zpos d) ltac:(lia)) as F.
  assert (10 * n / Zpos d < -200)%Z by (apply Z.div_lt_upper_bound; lia).
  apply Qle_trans with (fl (-20)); [| vm_compute; discriminate].
  apply fl_mono. unfold Qle. cbn [Qnum Qden]. lia.
Qed.

(** The ratio [(c - p) / p] as a fraction. *)
Lemma ratio_eq :
  forall c P, (inject_Z (c - Zpos P) / inject_Z (Zpos P) == (c - Zpos P) # P)%Q.
Proof. intros c P. unfold Qeq, Qdiv, Qmult, Qinv. simpl. ring. Qed.

(** For a positive [prior] up to 2^50, the double-precision comparison of
    [delta_pct] with 20 and -20 agrees with the exact one: an exact value
    above 20 is at least 20 + 20/2^50, which the two roundings cannot
    bring down to 20. *)
Lemma compute_deltas_classify_bounded :
  forall c P, (Zpos P <= 2 ^ 50)%Z ->
    let r := (inject_Z (c - Zpos P) / inject_Z (Zpos P) * 100)%Q in
    (20 < r -> snd (_compute_deltas c (Zpos P)) = rising)%Q /\
    (r < -20 -> snd (_compute_deltas c (Zpos P)) = fading)%Q /\
    (-20 <= r <= 20 -> snd (_compute_deltas c (Zpos P)) = stable)%Q.
Proof.
  intros c P HP r. unfold r.
  unfold _compute_deltas. cbn [Z.eqb]. cbv zeta.
  pose proof (ratio_eq c P) as Hq.
  set (q := (inject_Z (c - Zpos P) / inject_Z (Zpos P))%Q) in *.
  set (D := fl (fl q * 100)).
  assert (Hmono : forall a b, (a <= b)%Q -> (fl (fl a * 100) <= fl (fl b * 100))%Q).
  { intros a b Hab. apply fl_mono, Qmult_le_compat_r; [apply fl_mono, Hab | discriminate]. }
  split; [| split].
  - intros H. rewrite Hq in H. unfold Qlt in H. simpl in H.
    assert (HD : (20 < D)%Q).
    { apply Qlt_le_trans with (fl (fl (1125899906842625 # 5629499534213120) * 100)).
      - vm_compute. reflexivity.
      - apply Hmono. rewrite Hq. unfold Qle. simpl. lia. }
    destruct (Qle_bool D 20) eqn:E; [| reflexivity].
    apply Qle_bool_iff in E. exfalso. exact (Qlt_not_le _ _ HD E).
  - intros H. rewrite Hq in H. unfold Qlt in H. simpl in H.
    assert (HD : (D < -20)%Q).
    { apply Qle_lt_trans with (fl (fl ((-1125899906842625) # 5629499534213120) * 100)).
      - apply Hmono. rewrite Hq. unfold Qle. simpl. lia.
      - vm_compute. reflexivity. }
    assert (E : Qle_bool D 20 = true).
    { apply Qle_bool_iff. apply Qle_trans with (-20)%Q; [apply Qlt_le_weak, HD | discriminate]. }
    rewrite E. cbn [negb]. destruct (Qlt_le_dec D (-20)) as [| Hge]; [reflexivity |].
    exfalso. exact (Qlt_not_le _ _ HD Hge).
  - intros [H1 H2]. rewrite Hq in H1, H2. unfold Qle in H1, H2. simpl in H1, H2.
    assert (U : (D <= 20)%Q).
    { apply Qle_trans with (fl (fl (1 # 5) * 100)).
      - apply Hmono. rewrite Hq. unfold Qle. simpl. lia.
      - vm_compute. discriminate. }
    assert (L : (-20 <= D)%Q).
    { apply Qle_trans with (fl (fl ((-1) # 5) * 100)).
      - vm_compute. discriminate.
      - apply Hmono. rewrite Hq. unfold Qle. simpl. lia. }
    assert (E : Qle_bool D 20 = true) by (apply Qle_bool_iff, U).
    rewrite E. cbn [negb]. destruct (Qlt_le_dec D (-20)) as [Hlt | ]; [| reflexivity].
    exfalso. exact (Qlt_not_le _ _ Hlt L).
Qed.

(** C6 (as the code does it, for counts up to 2^50): [_compute_deltas]
    classifies a (prior, current) pair of counts as [new] when
    prior = 0 < current, [flat] (with delta 0) when both are 0, and
    otherwise by delta_pct = (current - prior) / prior * 100: [rising]
    above 20, [fading] below -20, [stable] in between; the five boundary
    examples of the spec hold.  The code compares the double-precision
    value of delta_pct, which for such counts is on the same side of 20
    and -20 as the exact one. *)
Theorem compute_deltas_classification :
  (forall prior current : nat,
     (prior = 0 -> 0 < current ->
        snd (_compute_deltas (Z.of_nat current) (Z.of_nat prior)) = new) /\
     (prior = 0 -> current = 0 ->
        _compute_deltas (Z.of_nat current) (Z.of_nat prior) = (0%Q, flat)) /\
     (0 < prior -> (Z.of_nat prior <= 2 ^ 50)%Z -> (Z.of_nat current <= 2 ^ 50)%Z ->
        (20 < delta_pct_of (Z.of_nat current) (Z.of_nat prior) ->
           snd (_compute_deltas (Z.of_nat current) (Z.of_nat prior)) = rising)%Q /\
        (delta_pct_of (Z.of_nat current) (Z.of_nat prior) < -20 ->
           snd (_compute_deltas (Z.of_nat current) (Z.of_nat prior)) = fading)%Q /\
        (-20 <= delta_pct_of (Z.of_nat current) (Z.of_nat prior) <= 20 ->
           snd (_compute_deltas (Z.of_nat current) (Z.of_nat prior)) = stable)%Q)) /\
  snd (_compute_deltas 0 0) = flat /\ snd (_compute_deltas 5 0) = new /\
  snd (_compute_deltas 13 10) = rising /\ snd (_compute_deltas 7 10) = fading /\
  snd (_compute_deltas 10 10) = stable.
Proof.
  split; [| repeat split; vm_compute; reflexivity].
  intros prior current. split; [| split].
  - intros -> Hc. destruct current as [| c]; [lia |]. reflexivity.
  - intros -> ->. reflexivity.
  - intros Hp Hb _. destruct prior as [| p]; [lia |]. unfold delta_pct_of.
    assert (E : Z.of_nat (S p) = Zpos (Pos.of_succ_nat p)) by (rewrite Zpos_P_of_succ_nat; lia).
    rewrite E in *.
    exact (compute_deltas_classify_bounded (Z.of_nat current) (Pos.of_succ_nat p) Hb).
Qed.

(** C6 as stated fails for large counts: for prior = 5 * 2^53 and
    current = 6 * 2^53 + 1 the exact delta_pct is above 20, but its
    double-precision value is exactly 20.0, so the pair is [stable]. *)
Lemma compute_deltas_large_counts_stable :
  (20 < delta_pct_of 54043195528445953 45035996273704960)%Q /\
  snd (_compute_deltas 54043195528445953 45035996273704960) = stable /\
  (fst (_compute_deltas 54043195528445953 45035996273704960) == 20)%Q.
Proof. repeat split; vm_compute; reflexivity. Qed.

(* ------------------------------------------------------------------ *)
(** ** Sentiment classifier *)

(** C7: [_detect_sentiment] is [negative] when the negative hit count
    exceeds the positive one (with the "Multiple" message exactly when that
    count is at least 2), symmetrically [positive], [neutral] with the
    "Mixed" message on a tie above zero and [neutral] with the "No strong
    sentiment" message when both counts are zero. *)
Theorem detect_sentiment_cases :
  forall (P : Patterns) (text : string),
    let pos := POSITIVE_findall P text in
    let neg := NEGATIVE_findall P text in
    (pos < neg -> _detect_sentiment P text =
                  (negative, if 2 <=? neg then msg_neg_multi else msg_neg)) /\
    (neg < pos -> _detect_sentiment P text =
                  (positive, if 2 <=? pos then msg_pos_multi else msg_pos)) /\
    (pos = neg -> 0 < pos -> _detect_sentiment P text = (neutral, msg_mixed)) /\
    (pos = 0 -> neg = 0 -> _detect_sentiment P text = (neutral, msg_none)).
Proof.
  intros P text pos neg. unfold _detect_sentiment, classify_sentiment. fold pos neg.
  repeat split; intros.
  - rewrite (proj2 (Nat.ltb_lt pos neg) H).
    destruct (2 <=? neg); reflexivity.
  - rewrite (proj2 (Nat.ltb_ge pos neg) ltac:(lia)), (proj2 (Nat.ltb_lt neg pos) H).
    destruct (2 <=? pos); reflexivity.
  - subst pos. rewrite H, Nat.ltb_irrefl, Nat.eqb_refl.
    rewrite (proj2 (Nat.ltb_lt 0 neg) ltac:(lia)). reflexivity.
  - rewrite H, H0. reflexivity.
Qed.

(* ------------------------------------------------------------------ *)
(** ** The two opportunity scorers of app.py *)

Lemma theme_step_agree :
  forall i t m ok, export_theme_step i t m ok = roadmap_theme_step i t m ok.
Proof. intros i t m [opp kws]. reflexivity. Qed.

Lemma confidence_agree : forall od, export_confidence od = roadmap_confidence od.
Proof. intros od. reflexivity. Qed.

Lemma themes_agree : _EXPORT_OPPORTUNITY_THEMES = OPPORTUNITY_THEMES.
Proof. reflexivity. Qed.

Lemma fold_left_ext {A B} (f g : A -> B -> A) :
  (forall a b, f a b = g a b) -> forall l a, fold_left f l a = fold_left g l a.
Proof. intros H l. induction l as [| b l IH]; intros a; simpl; [reflexivity |].
  rewrite H. apply IH. Qed.

(** C10: the module-level export scorer and the Roadmap-tab scorer use
    the same theme table and compute the same record (evidence, complaint,
    request and praise counts, company sets, per-company details,
    signals and confidence) for every theme, on every insight list. *)
Theorem export_opp_data_eq_opportunity_data :
  _EXPORT_OPPORTUNITY_THEMES = OPPORTUNITY_THEMES /\
  forall insights : list Signal, _export_opp_data insights = opportunity_data insights.
Proof.
  split; [exact themes_agree |].
  intros insights. unfold _export_opp_data, opportunity_data.
  rewrite themes_agree.
  rewrite (fold_left_ext _
             (fun od_map i =>
                fold_left (roadmap_theme_step i (lower (p_text (post i) ++ " " ++ p_title (post i))))
                          OPPORTUNITY_THEMES od_map)).
  - apply map_ext. intros [opp od]. rewrite confidence_agree. reflexivity.
  - intros m i. apply fold_left_ext. intros. apply theme_step_agree.
Qed.

(* ------------------------------------------------------------------ *)
(** ** Relevance gate: domain-native sources *)

(** C8: a post that passes the title, conditional-blocklist and noise
    checks, comes from a whitelisted source (G2, Product Hunt) and whose
    lowercased combined text contains a tracked alias of length at least 3
    is accepted, whatever its context terms. *)
Theorem geo_source_with_company_accepted :
  forall (P : Patterns) (company_terms : list string) (p : RawPost),
    let title := strip (p_title p) in
    let text_lower := lower (p_text p ++ " " ++ title) in
    10 <= String.length title ->
    TITLE_BLOCKLIST P title = false ->
    (_CONDITIONAL_BLOCKLIST P title = true -> _has_geo_terms title = true) ->
    existsb (fun n => contains n text_lower) NOISE_PHRASES = false ->
    In (p_source p) GEO_SOURCES ->
    (exists alias, In alias company_terms /\ 3 <= String.length alias /\
                   contains alias text_lower = true) ->
    relevance_gate P company_terms p = Accept.
Proof.
  intros P ct p title text_lower Hlen Hblock Hcond Hnoise Hsrc [a [Ha [Hal Hac]]].
  unfold relevance_gate. fold title. fold text_lower.
  rewrite (proj2 (Nat.ltb_ge _ _) Hlen), Hblock.
  replace (_CONDITIONAL_BLOCKLIST P title && negb (_has_geo_terms title)) with false
    by (destruct (_CONDITIONAL_BLOCKLIST P title) eqn:E; [rewrite (Hcond eq_refl) |]; reflexivity).
  rewrite Hnoise.
  replace (mem (p_source p) GEO_SOURCES) with true
    by (symmetry; apply existsb_exists; exists (p_source p); split;
        [exact Hsrc | apply String.eqb_refl]).
  replace (existsb (fun alias => (3 <=? String.length alias) && contains alias text_lower) ct)
    with true.
  - reflexivity.
  - symmetry. apply existsb_exists. exists a. split; [exact Ha |].
    rewrite Hac, (proj2 (Nat.leb_le _ _) Hal). reflexivity.
Qed.

(** The spec's scenario: "Acme tool review" from G2, no context term. *)
Lemma geo_source_with_company_accepted_witness :
  _has_geo_terms (p_text (mk_post "" "Acme tool review" "G2" "" "") ++ " " ++ "Acme tool review") = false /\
  relevance_gate quiet_patterns ["acme"] (mk_post "" "Acme tool review" "G2" "" "") = Accept.
Proof.
  split; [vm_compute; reflexivity |].
  apply (geo_source_with_company_accepted quiet_patterns ["acme"] (mk_post "" "Acme tool review" "G2" "" "")).
  - vm_compute. lia.
  - reflexivity.
  - discriminate.
  - vm_compute. reflexivity.
  - simpl. left. reflexivity.
  - exists "acme". split; [left; reflexivity |]. split; [vm_compute; lia | vm_compute; reflexivity].
Defined.

(* ------------------------------------------------------------------ *)
(** ** Confidence of an opportunity record *)

Lemma mem_In : forall x l, mem x l = true <-> In x l.
Proof.
  intros x l. unfold mem. rewrite existsb_exists. split.
  - intros [y [Hy Heq]]. apply String.eqb_eq in Heq. subst. exact Hy.
  - intros H. exists x. split; [exact H | apply String.eqb_refl].
Qed.

Lemma set_add_fold_spec :
  forall l acc, NoDup acc ->
    NoDup (fold_left (fun s x => set_add x s) l acc) /\
    (forall y, In y (fold_left (fun s x => set_add x s) l acc) <-> In y acc \/ In y l).
Proof.
  induction l as [| x l IH]; intros acc Hnd; simpl.
  - split; [exact Hnd | intros y; tauto].
  - destruct (mem x acc) eqn:Hm.
    + replace (set_add x acc) with acc by (unfold set_add; rewrite Hm; reflexivity).
      apply mem_In in Hm. destruct (IH acc Hnd) as [H1 H2]. split; [exact H1 |].
      intros y. rewrite H2. split; [tauto |]. intros [H | [<- | H]]; tauto.
    + replace (set_add x acc) with (acc ++ [x]) by (unfold set_add; rewrite Hm; reflexivity).
      assert (Hnd' : NoDup (acc ++ [x])).
      { apply NoDup_app; [exact Hnd | constructor; [intros [] | constructor] |].
        intros y Hy [<- | []]. apply Bool.not_true_iff_false in Hm. apply Hm, mem_In, Hy. }
      destruct (IH _ Hnd') as [H1 H2]. split; [exact H1 |].
      intros y. rewrite H2, in_app_iff. simpl. tauto.
Qed.

Lemma length_set_fold_nodup :
  forall l, List.length (fold_left (fun s x => set_add x s) l []) = List.length (nodup string_dec l).
Proof.
  intros l. destruct (set_add_fold_spec l [] (NoDup_nil _)) as [H1 H2].
  apply Permutation_length, NoDup_Permutation; [exact H1 | apply NoDup_nodup |].
  intros y. rewrite H2, nodup_In. simpl. tauto.
Qed.

Lemma lookup_put_opp {V} :
  forall k k' (v : V) m,
    lookup_opp k (put_opp k' v m) = if String.eqb k' k then Some v else lookup_opp k m.
Proof.
  intros k k' v m. induction m as [| [k0 v0] m IH]; simpl.
  - reflexivity.
  - destruct (String.eqb k0 k') eqn:E0.
    + apply String.eqb_eq in E0. subst k0. simpl. destruct (String.eqb k' k); reflexivity.
    + simpl. rewrite IH. destruct (String.eqb k0 k) eqn:E1; [| reflexivity].
      apply String.eqb_eq in E1. subst k0.
      destruct (String.eqb k' k) eqn:E2; [| reflexivity].
      apply String.eqb_eq in E2. subst. rewrite String.eqb_refl in E0. discriminate.
Qed.



Lemma fold_setter_ev {A} (f : OppRecord -> A -> OppRecord) :
  (forall od a, evidence (f od a) = evidence od /\ signals (f od a) = signals od) ->
  forall l od, evidence (fold_left f l od) = evidence od /\
               signals (fold_left f l od) = signals od.
Proof.
  intros Hf l. induction l as [| a l IH]; intros od; simpl; [split; reflexivity |].
  destruct (IH (f od a)) as [H1 H2]. destruct (Hf od a) as [H3 H4].
  split; congruence.
Qed.

Ltac fold_ev :=
  match goal with
  | |- context [fold_left ?f ?l ?od] =>
      let E1 := fresh "E" in let E2 := fresh "E" in
      destruct (fold_setter_ev f
                  ltac:(intros ? ?; cbv beta zeta;
                        repeat match goal with
                               | |- context [match ?p with pair _ _ => _ end] => destruct p
                               end; split; reflexivity) l od) as [E1 E2];
      first [rewrite E1 | rewrite E2]; rewrite ?E1, ?E2; clear E1 E2
  end.

Lemma roadmap_theme_step_ev :
  forall i t m ok, map_ev_ok m -> map_ev_ok (roadmap_theme_step i t m ok).
Proof.
  intros i t m [opp kws] Hm. unfold roadmap_theme_step.
  destruct (existsb _ kws); [| exact Hm].
  intros k od Hk. rewrite lookup_put_opp in Hk.
  destruct (String.eqb opp k); [| exact (Hm k od Hk)].
  injection Hk as <-. unfold ev_ok.
  assert (H0 : ev_ok (get_default opp_default opp m)).
  { unfold get_default. destruct (lookup_opp opp m) eqn:E; [exact (Hm _ _ E) | reflexivity]. }
  revert H0. generalize (get_default opp_default opp m). intros od0 H0.
  cbv zeta. cbn [signals evidence set_signals].
  destruct (mem "complaint" (entity_tags i)), (is_feature_request i),
           (mem "praise" (entity_tags i) && _);
  repeat (cbn [signals evidence set_praise set_requests set_complaints set_evidence]; fold_ev);
  cbn [signals evidence set_praise set_requests set_complaints set_evidence];
  rewrite length_app, H0; simpl; lia.
Qed.

Lemma fold_left_inv {A B} (Inv : A -> Prop) (g : A -> B -> A) :
  (forall a b, Inv a -> Inv (g a b)) -> forall l a, Inv a -> Inv (fold_left g l a).
Proof.
  intros Hg l. induction l as [| b l IH]; intros a Ha; [exact Ha |].
  exact (IH (g a b) (Hg a b Ha)).
Qed.

Lemma themes_fold_ev :
  forall i t th m, map_ev_ok m -> map_ev_ok (fold_left (roadmap_theme_step i t) th m).
Proof.
  intros i t th m Hm. apply fold_left_inv; [| exact Hm].
  intros m' ok Hm'. exact (roadmap_theme_step_ev i t m' ok Hm').
Qed.

Lemma opportunity_raw_ev :
  forall insights m,
    map_ev_ok m ->
    map_ev_ok (fold_left (fun od_map i =>
                 let text_lower := lower (p_text (post i) ++ " " ++ p_title (post i)) in
                 fold_left (roadmap_theme_step i text_lower) OPPORTUNITY_THEMES od_map)
               insights m).
Proof.
  intros insights m Hm. apply fold_left_inv; [| exact Hm].
  intros m' i Hm'. exact (themes_fold_ev i _ OPPORTUNITY_THEMES m' Hm').
Qed.

Lemma lookup_opp_map {V W} (f : V -> W) :
  forall k m, lookup_opp k (map (fun '(k', v) => (k', f v)) m) = option_map f (lookup_opp k m).
Proof.
  intros k m. induction m as [| [k' v] m IH]; simpl; [reflexivity |].
  destruct (String.eqb k' k); [reflexivity | exact IH].
Qed.



(** C1: every opportunity record of the Roadmap scorer has confidence
    min(95, 30 + 6 * (distinct non-empty sources of its evidence signals)
    + min(5 * (evidence signals beyond the first), 15) + 10 if a source
    contains "G2"); its evidence count is the number of its evidence
    signals, and the confidence lies in [0, 95]. *)
Theorem opportunity_confidence_formula :
  forall (insights : list Signal) (opp : string) (od : OppRecord),
    lookup_opp opp (opportunity_data insights) = Some od ->
    evidence od = List.length (signals od) /\
    confidence od =
      Nat.min (30 + 6 * distinct_sources (signals od)
               + Nat.min (5 * (List.length (signals od) - 1)) 15
               + (if has_g2 (signals od) then 10 else 0)) 95 /\
    0 <= confidence od <= 95.
Proof.
  intros insights opp od H. unfold opportunity_data in H.
  rewrite (lookup_opp_map roadmap_confidence) in H.
  destruct (lookup_opp opp _) as [od0 |] eqn:E; [| discriminate H].
  injection H as <-.
  pose proof (opportunity_raw_ev insights [] ltac:(intros ? ? Hn; discriminate Hn) opp od0 E) as Hev. unfold ev_ok in Hev.
  unfold roadmap_confidence. cbn [confidence evidence signals set_confidence].
  rewrite length_set_fold_nodup. fold (distinct_sources (signals od0)).
  rewrite Hev. unfold has_g2.
  split; [reflexivity |].
  split.
  - f_equal. destruct (existsb _ _); lia.
  - lia.
Qed.


Lemma opportunity_confidence_formula_witness :
  lookup_opp "Real-time Tracking" (opportunity_data [g2_realtime_signal])
    = Some (get_default opp_default "Real-time Tracking" (opportunity_data [g2_realtime_signal])) /\
  confidence (get_default opp_default "Real-time Tracking" (opportunity_data [g2_realtime_signal])) = 46 /\
  evidence (get_default opp_default "Real-time Tracking" (opportunity_data [g2_realtime_signal]))
    = List.length (signals (get_default opp_default "Real-time Tracking"
                                        (opportunity_data [g2_realtime_signal]))) /\
  confidence (get_default opp_default "Real-time Tracking" (opportunity_data [g2_realtime_signal])) =
      Nat.min (30 + 6 * distinct_sources (signals (get_default opp_default "Real-time Tracking"
                                                     (opportunity_data [g2_realtime_signal])))
               + Nat.min (5 * (List.length (signals (get_default opp_default "Real-time Tracking"
                                                     (opportunity_data [g2_realtime_signal]))) - 1)) 15
               + (if has_g2 (signals (get_default opp_default "Real-time Tracking"
                                                     (opportunity_data [g2_realtime_signal])))
                  then 10 else 0)) 95.
Proof.
  assert (H : lookup_opp "Real-time Tracking" (opportunity_data [g2_realtime_signal])
    = Some (get_default opp_default "Real-time Tracking" (opportunity_data [g2_realtime_signal])))
    by (vm_compute; reflexivity).
  destruct (opportunity_confidence_formula _ _ _ H) as [H1 [H2 _]].
  split; [exact H |]. split; [vm_compute; reflexivity |]. split; [exact H1 | exact H2].
Defined.

(* ------------------------------------------------------------------ *)
(** ** Determinism of the tagger *)

Lemma str_compare_le_trans :
  forall a b c, String.compare a b <> Gt -> String.compare b c <> Gt -> String.compare a c <> Gt.
Proof.
  induction a as [| x a IH]; intros [| y b] [| z c]; simpl; try congruence.
  destruct (Ascii.compare x y) eqn:Hxy; try congruence;
  destruct (Ascii.compare y z) eqn:Hyz; try congruence; intros H1 H2.
  - apply Ascii.compare_eq_iff in Hxy, Hyz. subst.
    assert (Ezz : Ascii.compare z z = Eq) by (unfold Ascii.compare; apply N.compare_refl).
    rewrite Ezz. apply IH with b; assumption.
  - apply Ascii.compare_eq_iff in Hxy. subst. rewrite Hyz. discriminate.
  - apply Ascii.compare_eq_iff in Hyz. subst. rewrite Hxy. discriminate.
  - unfold Ascii.compare in *. apply N.compare_lt_iff in Hxy, Hyz.
    rewrite (proj2 (N.compare_lt_iff _ _) (N.lt_trans _ _ _ Hxy Hyz)). discriminate.
Qed.

Lemma str_leb_trans :
  forall a b c, String.leb a b = true -> String.leb b c = true -> String.leb a c = true.
Proof.
  intros a b c. unfold String.leb.
  destruct (String.compare a b) eqn:E1; try discriminate;
  destruct (String.compare b c) eqn:E2; try discriminate; intros _ _;
  destruct (String.compare a c) eqn:E3; try reflexivity;
  exfalso; apply (str_compare_le_trans a b c); congruence.
Qed.

Lemma leb_false_leb : forall a b, String.leb a b = false -> String.leb b a = true.
Proof. intros a b H. destruct (String.leb_total a b) as [H' | H']; congruence. Qed.

Lemma insert_sorted_comm :
  forall x y l, insert_sorted x (insert_sorted y l) = insert_sorted y (insert_sorted x l).
Proof.
  intros x y l.
  destruct (String.eqb x y) eqn:Exy; [apply String.eqb_eq in Exy; subst; reflexivity |].
  assert (Hne : x <> y) by (apply String.eqb_neq; exact Exy).
  induction l as [| z l IH]; simpl.
  - destruct (String.leb x y) eqn:E1, (String.leb y x) eqn:E2; try reflexivity.
    + exfalso. apply Hne, String.leb_antisym; assumption.
    + destruct (String.leb_total x y); congruence.
  - destruct (String.leb y z) eqn:Eyz, (String.leb x z) eqn:Exz,
             (String.leb x y) eqn:E1, (String.leb y x) eqn:E2;
      simpl; rewrite ?Eyz, ?Exz, ?E1, ?E2; simpl; rewrite ?Eyz, ?Exz, ?E1, ?E2;
      try reflexivity;
      first [ exfalso; apply Hne, String.leb_antisym; assumption
            | exfalso; destruct (String.leb_total x y); congruence
            | rewrite (str_leb_trans x y z) in Exz by assumption; discriminate
            | rewrite (str_leb_trans y x z) in Eyz by assumption; discriminate
            | rewrite IH; reflexivity ].
Qed.

Lemma sorted_perm : forall l1 l2, Permutation l1 l2 -> sorted l1 = sorted l2.
Proof.
  intros l1 l2 H. induction H.
  - reflexivity.
  - unfold sorted in *. simpl. rewrite IHPermutation. reflexivity.
  - unfold sorted. simpl. apply insert_sorted_comm.
  - congruence.
Qed.

(** C9: [enrich_post] gives the same signal on two runs over the same
    post, alias map, own-brand set and context-required set, for any pattern
    table, even when the two runs iterate the Python set
    [companies_mentioned] in different orders (different hash seeds):
    every field, including the sorted company list, is equal. *)
Theorem enrich_post_deterministic :
  forall (P : Patterns) (order1 order2 : list string -> list string)
         (p : RawPost) (alias_map : list (string * string)) (own_brands ctx : list string),
    (forall l, Permutation (order1 l) l) ->
    (forall l, Permutation (order2 l) l) ->
    enrich_post P order1 p alias_map own_brands ctx = enrich_post P order2 p alias_map own_brands ctx.
Proof.
  intros P o1 o2 p am own ctx H1 H2. unfold enrich_post.
  destruct (resolve_aliases _ _ _ _ _) as [companies is_own].
  destruct (_detect_sentiment _ _) as [sent reason].
  rewrite (sorted_perm (o1 companies) (o2 companies)
             (Permutation_trans (H1 companies) (Permutation_sym (H2 companies)))).
  reflexivity.
Qed.

Lemma enrich_post_deterministic_witness :
  enrich_post quiet_patterns (fun l => l)
    (mk_post "Acme vs Zeta for seo" "Acme or Zeta? comparison" "Reddit" "" "2026-02-16")
    [("acme", "Acme"); ("zeta", "Zeta")] [] []
  = enrich_post quiet_patterns (@rev string)
    (mk_post "Acme vs Zeta for seo" "Acme or Zeta? comparison" "Reddit" "" "2026-02-16")
    [("acme", "Acme"); ("zeta", "Zeta")] [] [].
Proof.
  apply enrich_post_deterministic.
  - intros l. apply Permutation_refl.
  - intros l. apply Permutation_sym, Permutation_rev.
Defined.

(* ------------------------------------------------------------------ *)
(** ** Alias resolution *)

Lemma insert_sorted_perm : forall x l, Permutation (insert_sorted x l) (x :: l).
Proof.
  intros x l. induction l as [| y l IH]; simpl; [apply Permutation_refl |].
  destruct (String.leb x y); [apply Permutation_refl |].
  apply Permutation_trans with (y :: x :: l); [apply perm_skip, IH | apply perm_swap].
Qed.

Lemma sorted_In : forall x l, In x (sorted l) <-> In x l.
Proof.
  intros x l. induction l as [| y l IH]; simpl; [tauto |].
  split.
  - intros H. apply (Permutation_in _ (insert_sorted_perm y (sorted l))) in H.
    destruct H as [H | H]; [left; exact H | right; apply IH, H].
  - intros H. apply (Permutation_in _ (Permutation_sym (insert_sorted_perm y (sorted l)))).
    destruct H as [H | H]; [left; exact H | right; apply IH, H].
Qed.

Lemma set_add_In : forall x y s, In y (set_add x s) <-> In y s \/ y = x.
Proof.
  intros x y s. unfold set_add. destruct (mem x s) eqn:E.
  - apply mem_In in E. split; [tauto |]. intros [H | ->]; assumption.
  - rewrite in_app_iff. simpl. split.
    + intros [H | [H | []]]; [left; exact H | right; symmetry; exact H].
    + intros [H | H]; [left; exact H | right; left; symmetry; exact H].
Qed.


Lemma resolve_aliases_fold_In :
  forall tl own ctx g am cs b c,
    In c (fst (fold_left (alias_step tl own ctx g) am (cs, b))) <->
    In c cs \/ exists alias, In (alias, c) am /\ alias_contributes tl ctx g alias c.
Proof.
  intros tl own ctx g am. induction am as [| [alias canon] am IH]; intros cs b c.
  - simpl. split; [tauto |]. intros [H | [a [[] _]]]. exact H.
  - cbn [fold_left]. destruct (alias_step tl own ctx g (cs, b) (alias, canon)) as [cs' b'] eqn:Estep.
    rewrite IH.
    assert (Hstep : In c cs' <-> In c cs \/ (canon = c /\ alias_contributes tl ctx g alias c)).
    { unfold alias_step in Estep. unfold alias_contributes.
      destruct (String.length alias <? 3) eqn:Elen.
      - injection Estep as <- <-. apply Nat.ltb_lt in Elen.
        split; [tauto |]. intros [H | [_ [H _]]]; [exact H | lia].
      - apply Nat.ltb_ge in Elen.
        destruct (String.length alias <=? 4) eqn:E4.
        + apply Nat.leb_le in E4.
          destruct (search_word alias tl) eqn:Em.
          * destruct (match ctx with [] => false | _ => true end && mem canon ctx && negb g) eqn:Es.
            -- injection Estep as <- <-.
               apply andb_true_iff in Es as [Es Hg]. apply andb_true_iff in Es as [_ Hm].
               apply mem_In in Hm. apply negb_true_iff in Hg.
               split; [tauto |]. intros [H | [<- [_ [_ [_ H]]]]]; [exact H |].
               specialize (H Hm). congruence.
            -- injection Estep as <- <-. rewrite set_add_In.
               split.
               ++ intros [H | ->]; [left; exact H | right].
                  repeat split; try lia; try assumption.
                  intros Hin. destruct g; [reflexivity |].
                  exfalso. destruct ctx as [| x0 ctx0]; [destruct Hin |].
                  apply mem_In in Hin. rewrite Hin in Es. discriminate.
               ++ intros [H | [<- _]]; [left; exact H | right; reflexivity].
          * injection Estep as <- <-.
            split; [tauto |]. intros [H | [_ [_ [H _]]]]; [exact H |].
            specialize (H E4). congruence.
        + apply Nat.leb_gt in E4.
          destruct (contains alias tl) eqn:Em.
          * destruct (match ctx with [] => false | _ => true end && mem canon ctx && negb g) eqn:Es.
            -- injection Estep as <- <-.
               apply andb_true_iff in Es as [Es Hg]. apply andb_true_iff in Es as [_ Hm].
               apply mem_In in Hm. apply negb_true_iff in Hg.
               split; [tauto |]. intros [H | [<- [_ [_ [_ H]]]]]; [exact H |].
               specialize (H Hm). congruence.
            -- injection Estep as <- <-. rewrite set_add_In.
               split.
               ++ intros [H | ->]; [left; exact H | right].
                  repeat split; try lia; try assumption.
                  intros Hin. destruct g; [reflexivity |].
                  exfalso. destruct ctx as [| x0 ctx0]; [destruct Hin |].
                  apply mem_In in Hin. rewrite Hin in Es. discriminate.
               ++ intros [H | [<- _]]; [left; exact H | right; reflexivity].
          * injection Estep as <- <-.
            split; [tauto |]. intros [H | [_ [_ [_ [H _]]]]]; [exact H |].
            specialize (H E4). congruence. }
    rewrite Hstep. split.
    + intros [[H | [-> H]] | [a [Ha Hc]]]; [left; exact H | right | right].
      * exists alias. split; [left; reflexivity | exact H].
      * exists a. split; [right; exact Ha | exact Hc].
    + intros [H | [a [[Ha | Ha] Hc]]]; [left; left; exact H | | right; exists a; tauto].
      injection Ha as -> ->. left. right. tauto.
Qed.

(** Shared characterisation: a canonical name is in [companies_mentioned]
    exactly when some alias-map entry for it contributes. *)
Lemma companies_mentioned_In :
  forall P order p am own ctx c,
    (forall l, Permutation (order l) l) ->
    let text := strip (p_text p ++ " " ++ p_title p) in
    In c (companies_mentioned (enrich_post P order p am own ctx)) <->
    exists alias, In (alias, c) am /\
                  alias_contributes (lower text) ctx (_has_geo_terms text) alias c.
Proof.
  intros P order p am own ctx c Hord text. unfold enrich_post. fold text.
  unfold resolve_aliases.
  pose proof (resolve_aliases_fold_In (lower text) own ctx (_has_geo_terms text) am [] false c)
    as Hres.
  destruct (fold_left _ am ([], false)) as [companies is_own].
  destruct (_detect_sentiment P text) as [sent reason]. cbn [companies_mentioned].
  rewrite sorted_In. split.
  - intros H. apply (Permutation_in _ (Hord companies)) in H.
    apply Hres in H. destruct H as [[] | H]. exact H.
  - intros H. apply (Permutation_in _ (Permutation_sym (Hord companies))).
    apply Hres. right. exact H.
Qed.

(** C4 (as the code does it): a canonical name is in [companies_mentioned]
    exactly when some alias mapped to it has length at least 3 and occurs
    in the lowercased combined text, on word boundaries when the alias
    has length at most 4 and as a substring otherwise, and the name is not
    context-required or the text has a context term.  Aliases shorter than
    3 characters never contribute. *)
Theorem alias_resolution_rule :
  forall (P : Patterns) (order : list string -> list string) (p : RawPost)
         (alias_map : list (string * string)) (own_brands ctx : list string) (c : string),
    (forall l, Permutation (order l) l) ->
    let text := strip (p_text p ++ " " ++ p_title p) in
    In c (companies_mentioned (enrich_post P order p alias_map own_brands ctx)) <->
    exists alias, In (alias, c) alias_map /\
      3 <= String.length alias /\
      (String.length alias <= 4 -> search_word alias (lower text) = true) /\
      (4 < String.length alias -> contains alias (lower text) = true) /\
      (In c ctx -> _has_geo_terms text = true).
Proof.
  intros P order p am own ctx c Hord text.
  exact (companies_mentioned_In P order p am own ctx c Hord).
Qed.

Lemma alias_resolution_rule_witness :
  In "Acme" (companies_mentioned
               (enrich_post quiet_patterns (fun l => l) (mk_post "we tried acme." "" "Reddit" "" "")
                            [("acme", "Acme"); ("zeta", "Zeta")] [] [])) /\
  ~ In "Zeta" (companies_mentioned
               (enrich_post quiet_patterns (fun l => l) (mk_post "we tried acme." "" "Reddit" "" "")
                            [("acme", "Acme"); ("zeta", "Zeta")] [] [])).
Proof.
  split.
  - apply (alias_resolution_rule quiet_patterns (fun l => l) (mk_post "we tried acme." "" "Reddit" "" "")
             [("acme", "Acme"); ("zeta", "Zeta")] [] [] "Acme" (@Permutation_refl string)).
    exists "acme". split; [left; reflexivity |].
    split; [vm_compute; lia |]. split; [intros; vm_compute; reflexivity |].
    split; [vm_compute; lia | intros []].
  - intros H.
    apply (alias_resolution_rule quiet_patterns (fun l => l) (mk_post "we tried acme." "" "Reddit" "" "")
             [("acme", "Acme"); ("zeta", "Zeta")] [] [] "Zeta" (@Permutation_refl string)) in H.
    destruct H as [a [[Ha | [Ha | []]] [_ [Hw _]]]]; inversion Ha; subst.
    specialize (Hw ltac:(vm_compute; lia)). vm_compute in Hw. discriminate.
Defined.

(** C4 as stated fails: a two-letter alias occurring on word boundaries
    in the text does not contribute its canonical name. *)
Lemma alias_resolution_short_alias_ignored :
  search_word "ab" (lower (strip (p_text (mk_post "ab tool" "" "Reddit" "" "") ++ " " ++ ""))) = true /\
  companies_mentioned
    (enrich_post quiet_patterns (fun l => l) (mk_post "ab tool" "" "Reddit" "" "") [("ab", "AB")] [] [])
  = [].
Proof. split; vm_compute; reflexivity. Qed.

(** C5 (as the code does it): for a context-required canonical name, the
    name is absent from [companies_mentioned] when the combined text has no
    context term; when it has one, any contributing alias (length at least
    3, word-boundary match up to length 4, substring match above) puts the
    name in [companies_mentioned].  Conversely the name is present only
    through such an alias of length at least 3 and with a context term, so
    an alias shorter than 3 characters never counts, with or without a
    context term: a name all of whose aliases are shorter than 3 is never
    present. *)
Theorem context_required_suppression :
  forall (P : Patterns) (order : list string -> list string) (p : RawPost)
         (alias_map : list (string * string)) (own_brands ctx : list string) (c alias : string),
    (forall l, Permutation (order l) l) ->
    In c ctx ->
    let text := strip (p_text p ++ " " ++ p_title p) in
    (_has_geo_terms text = false ->
       ~ In c (companies_mentioned (enrich_post P order p alias_map own_brands ctx))) /\
    (_has_geo_terms text = true ->
       In (alias, c) alias_map ->
       3 <= String.length alias ->
       (String.length alias <= 4 -> search_word alias (lower text) = true) ->
       (4 < String.length alias -> contains alias (lower text) = true) ->
       In c (companies_mentioned (enrich_post P order p alias_map own_brands ctx))) /\
    (In c (companies_mentioned (enrich_post P order p alias_map own_brands ctx)) ->
       _has_geo_terms text = true /\
       exists a, In (a, c) alias_map /\ 3 <= String.length a /\
         (String.length a <= 4 -> search_word a (lower text) = true) /\
         (4 < String.length a -> contains a (lower text) = true)) /\
    ((forall a, In (a, c) alias_map -> String.length a < 3) ->
       ~ In c (companies_mentioned (enrich_post P order p alias_map own_brands ctx))).
Proof.
  intros P order p am own ctx c alias Hord Hctx text. split; [| split; [| split]].
  - intros Hg H. apply (companies_mentioned_In P order p am own ctx c Hord) in H.
    destruct H as [a [_ [_ [_ [_ H]]]]]. fold text in H. rewrite (H Hctx) in Hg. discriminate.
  - intros Hg Ha H3 Hw Hs. apply (companies_mentioned_In P order p am own ctx c Hord).
    exists alias. split; [exact Ha |]. unfold alias_contributes. fold text.
    repeat split; try assumption. intros _. exact Hg.
  - intros H. apply (companies_mentioned_In P order p am own ctx c Hord) in H.
    destruct H as [a [Ha [H3 [Hw [Hs Hg]]]]]. fold text in Hw, Hs, Hg.
    split; [exact (Hg Hctx) |]. exists a. repeat split; assumption.
  - intros Hshort H. apply (companies_mentioned_In P order p am own ctx c Hord) in H.
    destruct H as [a [Ha [H3 _]]]. specialize (Hshort a Ha). lia.
Qed.

Lemma context_required_suppression_witness :
  ~ In "Acme" (companies_mentioned
      (enrich_post quiet_patterns (fun l => l) (mk_post "acme tool" "" "Reddit" "" "")
                   [("acme", "Acme")] [] ["Acme"])) /\
  In "Acme" (companies_mentioned
      (enrich_post quiet_patterns (fun l => l) (mk_post "acme seo tool" "" "Reddit" "" "")
                   [("acme", "Acme")] [] ["Acme"])) /\
  ~ In "AB" (companies_mentioned
      (enrich_post quiet_patterns (fun l => l) (mk_post "ab seo tool" "" "Reddit" "" "")
                   [("ab", "AB")] [] ["AB"])).
Proof.
  split; [| split].
  - apply (proj1 (context_required_suppression quiet_patterns (fun l => l)
                    (mk_post "acme tool" "" "Reddit" "" "") [("acme", "Acme")] [] ["Acme"]
                    "Acme" "acme" (@Permutation_refl string) (or_introl eq_refl))).
    vm_compute. reflexivity.
  - apply (proj1 (proj2 (context_required_suppression quiet_patterns (fun l => l)
                    (mk_post "acme seo tool" "" "Reddit" "" "") [("acme", "Acme")] [] ["Acme"]
                    "Acme" "acme" (@Permutation_refl string) (or_introl eq_refl))));
      try (vm_compute; reflexivity); try (left; reflexivity); try (vm_compute; lia).
  - apply (proj2 (proj2 (proj2 (context_required_suppression quiet_patterns (fun l => l)
                    (mk_post "ab seo tool" "" "Reddit" "" "") [("ab", "AB")] [] ["AB"]
                    "AB" "ab" (@Permutation_refl string) (or_introl eq_refl))))).
    intros a [Ha | []]. injection Ha as <-. vm_compute. lia.
Defined.

(** C5 as stated fails: with a two-letter alias of a context-required
    company, the post has no company without a context term and still none
    once the context term "seo" is added. *)
Lemma context_required_short_alias_never_counts :
  contains "ab" (lower (strip (p_text (mk_post "ab tool" "" "Reddit" "" "") ++ " " ++ ""))) = true /\
  _has_geo_terms (strip (p_text (mk_post "ab tool" "" "Reddit" "" "") ++ " " ++ "")) = false /\
  companies_mentioned
    (enrich_post quiet_patterns (fun l => l) (mk_post "ab tool" "" "Reddit" "" "") [("ab", "AB")] [] ["AB"])
  = [] /\
  _has_geo_terms (strip (p_text (mk_post "ab seo tool" "" "Reddit" "" "") ++ " " ++ "")) = true /\
  companies_mentioned
    (enrich_post quiet_patterns (fun l => l) (mk_post "ab seo tool" "" "Reddit" "" "") [("ab", "AB")] [] ["AB"])
  = [].
Proof. repeat split; vm_compute; reflexivity. Qed.

(* ------------------------------------------------------------------ *)
(** ** Deduplication *)



Lemma lookup_put_url :
  forall u k e m, lookup_url u (put_url k e m) = if String.eqb k u then Some e else lookup_url u m.
Proof.
  intros u k e m. induction m as [| [k0 v0] m IH]; simpl; [reflexivity |].
  destruct (String.eqb k0 k) eqn:E0.
  - apply String.eqb_eq in E0. subst k0. simpl. destruct (String.eqb k u); reflexivity.
  - simpl. rewrite IH. destruct (String.eqb k0 u) eqn:E1; [| reflexivity].
    apply String.eqb_eq in E1. subst k0.
    destruct (String.eqb k u) eqn:E2; [| reflexivity].
    apply String.eqb_eq in E2. subst. rewrite String.eqb_refl in E0. discriminate.
Qed.

Lemma url_group_app :
  forall u l e, url_group u (l ++ [e]) =
                url_group u l ++ (if String.eqb (norm_url e) u then [e] else []).
Proof. intros u l e. unfold url_group. rewrite filter_app. simpl. destruct (String.eqb _ u); reflexivity. Qed.

Lemma is_first_max_snoc_keep :
  forall g s e, is_first_max g s -> score e <= score s -> is_first_max (g ++ [e]) s.
Proof.
  intros g s e [i [Hi [Hall Hbefore]]] He. exists i. split; [| split].
  - rewrite nth_error_app1; [exact Hi | apply nth_error_Some; congruence].
  - intros j x Hj. destruct (Nat.lt_ge_cases j (List.length g)) as [Hlt | Hge].
    + rewrite nth_error_app1 in Hj by exact Hlt. exact (Hall j x Hj).
    + rewrite nth_error_app2 in Hj by exact Hge.
      destruct (j - List.length g) as [| k]; simpl in Hj; [injection Hj as <-; exact He |].
      destruct k; discriminate.
  - intros j x Hji Hj. assert (Hlt : i < List.length g) by (apply nth_error_Some; congruence).
    rewrite nth_error_app1 in Hj by lia. exact (Hbefore j x Hji Hj).
Qed.

Lemma is_first_max_snoc_new :
  forall g s e, is_first_max g s -> score s < score e -> is_first_max (g ++ [e]) e.
Proof.
  intros g s e [i [Hi [Hall _]]] He. exists (List.length g). split; [| split].
  - rewrite nth_error_app2, Nat.sub_diag by lia. reflexivity.
  - intros j x Hj. destruct (Nat.lt_ge_cases j (List.length g)) as [Hlt | Hge].
    + rewrite nth_error_app1 in Hj by exact Hlt. specialize (Hall j x Hj). lia.
    + rewrite nth_error_app2 in Hj by exact Hge.
      destruct (j - List.length g) as [| k]; simpl in Hj; [injection Hj as <-; lia |].
      destruct k; discriminate.
  - intros j x Hj Hx. rewrite nth_error_app1 in Hx by exact Hj. specialize (Hall j x Hx). lia.
Qed.

Lemma is_first_max_single : forall e, is_first_max [e] e.
Proof.
  intros e. exists 0. split; [reflexivity | split].
  - intros [| [| j]] x Hx; simpl in Hx; try discriminate. injection Hx as <-. lia.
  - intros j x Hj. lia.
Qed.


Lemma put_url_consistent :
  forall u e m, norm_url e = u ->
    Forall (fun kv => norm_url (snd kv) = fst kv) m ->
    Forall (fun kv => norm_url (snd kv) = fst kv) (put_url u e m).
Proof.
  intros u e m He. induction m as [| [k v] m IH]; intros Hm; simpl.
  - constructor; [exact He | constructor].
  - apply Forall_cons_iff in Hm as [Hkv Hr]. destruct (String.eqb k u) eqn:E.
    + apply String.eqb_eq in E. subst k. constructor; [exact He | exact Hr].
    + constructor; [exact Hkv | apply IH, Hr].
Qed.

Lemma put_url_keys :
  forall u e m, NoDup (map fst m) -> NoDup (map fst (put_url u e m)).
Proof.
  intros u e m. induction m as [| [k v] m IH]; intros Hm; simpl.
  - constructor; [intros [] | constructor].
  - pose proof Hm as Hm0. simpl in Hm. apply NoDup_cons_iff in Hm as [Hk Hr].
    destruct (String.eqb k u) eqn:E; simpl.
    + exact Hm0.
    + constructor; [| apply IH, Hr].
      intros Hin. apply in_map_iff in Hin. destruct Hin as [[k' v'] [Hk' Hin]]. simpl in Hk'. subst k'.
      assert (Hin' : In k (map fst (put_url u e m))) by (apply in_map_iff; exists (k, v'); auto).
      clear Hin. revert Hin'. clear IH Hm0 Hr. induction m as [| [k2 v2] m IHm]; simpl.
      * intros [H | []]. subst. rewrite String.eqb_refl in E. discriminate.
      * destruct (String.eqb k2 u); simpl.
        -- intros [H | H]; apply Hk; simpl; tauto.
        -- intros [H | H]; [apply Hk; simpl; tauto |].
           apply IHm; [intros H'; apply Hk; simpl; tauto | exact H].
Qed.

Lemma url_step_inv :
  forall l st e, url_inv l st -> url_inv (l ++ [e]) (url_step st e).
Proof.
  intros l [by_url no_url] e [Hg [Hc [Hk Hn]]]. unfold url_step.
  destruct (String.eqb (norm_url e) "") eqn:Ee.
  - apply String.eqb_eq in Ee. split; [| split; [exact Hc | split; [exact Hk |]]].
    + intros u Hu. rewrite url_group_app.
      replace (String.eqb (norm_url e) u) with false
        by (symmetry; apply String.eqb_neq; congruence).
      rewrite app_nil_r. exact (Hg u Hu).
    + simpl. apply Forall_app. split; [exact Hn | constructor; [exact Ee | constructor]].
  - apply String.eqb_neq in Ee.
    set (v := norm_url e).
    assert (Hput : forall m, Forall (fun kv => norm_url (snd kv) = fst kv) m -> NoDup (map fst m) ->
               (forall u, u <> "" -> u <> v -> lookup_url u (put_url v e m) = lookup_url u m) /\
               lookup_url v (put_url v e m) = Some e /\
               Forall (fun kv => norm_url (snd kv) = fst kv) (put_url v e m) /\
               NoDup (map fst (put_url v e m))).
    { intros m H1 H2. split; [| split; [| split]].
      - intros u _ Huv. rewrite lookup_put_url.
        replace (String.eqb v u) with false by (symmetry; apply String.eqb_neq; congruence).
        reflexivity.
      - rewrite lookup_put_url, String.eqb_refl. reflexivity.
      - apply put_url_consistent; [reflexivity | exact H1].
      - apply put_url_keys, H2. }
    destruct (Hput by_url Hc Hk) as [Hp1 [Hp2 [Hp3 Hp4]]].
    assert (Hother : forall u, u <> "" -> u <> v -> url_group u (l ++ [e]) = url_group u l).
    { intros u _ Huv. rewrite url_group_app.
      replace (String.eqb (norm_url e) u) with false
        by (symmetry; apply String.eqb_neq; fold v; congruence).
      apply app_nil_r. }
    assert (Hv : url_group v (l ++ [e]) = url_group v l ++ [e]).
    { rewrite url_group_app. fold v. rewrite String.eqb_refl. reflexivity. }
    destruct (Hg v Ee) as [Hv0 Hv1]. cbn [fst] in Hv0, Hv1.
    destruct (lookup_url v by_url) as [old |] eqn:Eold.
    + destruct (url_group v l) as [| g0 gr] eqn:Egv;
        [first [specialize (Hv0 Egv) | specialize (Hv0 eq_refl)]; congruence |].
      destruct (Hv1 ltac:(congruence)) as [s [Hs Hfm]].
      assert (Hso : s = old) by congruence. subst s.
      assert (Hs' : lookup_url v by_url = Some old) by congruence. clear Hs. rename Hs' into Hs.
      destruct (score old <? score e) eqn:Esc.
      * apply Nat.ltb_lt in Esc. split; [| split; [exact Hp3 | split; [exact Hp4 | exact Hn]]].
        intros u Hu. cbn [fst snd] in *. destruct (String.eqb u v) eqn:Euv.
        -- apply String.eqb_eq in Euv. subst u. rewrite Hv.
           split; [intros H; apply app_eq_nil in H as [_ H]; discriminate H |].
           intros _. exists e. split; [exact Hp2 |].
           try rewrite Egv in Hfm; try rewrite Egv.
           exact (is_first_max_snoc_new _ _ _ Hfm Esc).
        -- apply String.eqb_neq in Euv. rewrite (Hother u Hu Euv), (Hp1 u Hu Euv). exact (Hg u Hu).
      * apply Nat.ltb_ge in Esc. split; [| split; [exact Hc | split; [exact Hk | exact Hn]]].
        intros u Hu. cbn [fst snd] in *. destruct (String.eqb u v) eqn:Euv.
        -- apply String.eqb_eq in Euv. subst u. rewrite Hv.
           split; [intros H; apply app_eq_nil in H as [_ H]; discriminate H |].
           intros _. exists old. split; [exact Hs |].
           try rewrite Egv in Hfm; try rewrite Egv.
           exact (is_first_max_snoc_keep _ _ _ Hfm Esc).
        -- apply String.eqb_neq in Euv. rewrite (Hother u Hu Euv). exact (Hg u Hu).
    + assert (Hnil : url_group v l = []).
      { destruct (url_group v l) eqn:E; [reflexivity |].
        destruct (Hv1 ltac:(discriminate)) as [s0 [Hs0 _]]. congruence. }
      split; [| split; [exact Hp3 | split; [exact Hp4 | exact Hn]]].
      intros u Hu. cbn [fst snd] in *. destruct (String.eqb u v) eqn:Euv.
      * apply String.eqb_eq in Euv. subst u. rewrite Hv, Hnil. simpl.
        split; [discriminate |]. intros _. exists e. split; [exact Hp2 | apply is_first_max_single].
      * apply String.eqb_neq in Euv. rewrite (Hother u Hu Euv), (Hp1 u Hu Euv). exact (Hg u Hu).
Qed.

Lemma url_pass_inv : forall l, url_inv l (url_pass l).
Proof.
  induction l as [| e l IH] using rev_ind.
  - split; [| split; [constructor | split; [constructor | constructor]]].
    intros u _. split; [reflexivity | intros H; exfalso; apply H; reflexivity].
  - unfold url_pass. rewrite fold_left_app. simpl. apply url_step_inv, IH.
Qed.

Lemma title_step_cases :
  forall seen acc e,
    title_step (seen, acc) e = (seen, acc) \/
    exists seen', title_step (seen, acc) e = (seen', acc ++ [e]).
Proof.
  intros seen acc e. unfold title_step.
  destruct (negb (String.eqb (title_key e) "") && (8 <? String.length (title_key e))
            && mem (title_key e) seen).
  - left; reflexivity.
  - right; eexists; reflexivity.
Qed.

Lemma title_pass_sub :
  forall l seen acc,
    (forall x, In x (snd (fold_left title_step l (seen, acc))) -> In x acc \/ In x l) /\
    (forall u, List.length (url_group u (snd (fold_left title_step l (seen, acc))))
               <= List.length (url_group u acc) + List.length (url_group u l)).
Proof.
  induction l as [| e l IH]; intros seen acc; cbn [fold_left].
  - split; [intros x H; left; exact H | intros u; simpl; lia].
  - destruct (title_step_cases seen acc e) as [Es | [seen' Es]]; rewrite Es.
    + destruct (IH seen acc) as [H1 H2]. split.
      * intros x Hx. destruct (H1 x Hx) as [H | H]; [left; exact H | right; right; exact H].
      * intros u. specialize (H2 u). unfold url_group in *. simpl.
        destruct (String.eqb (norm_url e) u); simpl; lia.
    + destruct (IH seen' (acc ++ [e])) as [H1 H2]. split.
      * intros x Hx. destruct (H1 x Hx) as [H | H].
        -- apply in_app_iff in H as [H | [H | []]]; [left; exact H | right; left; exact H].
        -- right; right; exact H.
      * intros u. specialize (H2 u). rewrite url_group_app, length_app in H2.
        unfold url_group in *. simpl.
        destruct (String.eqb (norm_url e) u); simpl in *; lia.
Qed.

Lemma by_url_group_le_1 :
  forall u m, Forall (fun kv => norm_url (snd kv) = fst kv) m -> NoDup (map fst m) ->
    List.length (url_group u (map snd m)) <= 1.
Proof.
  intros u m. induction m as [| [k v] m IH]; intros Hc Hk; simpl; [lia |].
  apply Forall_cons_iff in Hc as [Hv Hc]. simpl in Hk. apply NoDup_cons_iff in Hk as [Hk Hnd].
  simpl in Hv. rewrite Hv. destruct (String.eqb k u) eqn:E.
  - apply String.eqb_eq in E. subst k. simpl.
    assert (Hnil : url_group u (map snd m) = []).
    { clear IH Hnd. induction m as [| [k' v'] m IHm]; [reflexivity |].
      apply Forall_cons_iff in Hc as [Hv' Hc]. simpl in Hv', Hk |- *.
      unfold url_group. simpl. rewrite Hv'.
      destruct (String.eqb k' u) eqn:E'; [apply String.eqb_eq in E'; subst; tauto |].
      apply IHm; [exact Hc | tauto]. }
    fold (url_group u (map snd m)). rewrite Hnil. simpl. lia.
  - apply IH; assumption.
Qed.

Lemma by_url_member_lookup :
  forall s m, Forall (fun kv => norm_url (snd kv) = fst kv) m -> NoDup (map fst m) ->
    In s (map snd m) -> lookup_url (norm_url s) m = Some s.
Proof.
  intros s m. induction m as [| [k v] m IH]; intros Hc Hk Hin; [destruct Hin |].
  apply Forall_cons_iff in Hc as [Hv Hc]. simpl in Hk, Hv, Hin |- *.
  apply NoDup_cons_iff in Hk as [Hk Hnd].
  destruct Hin as [<- | Hin].
  - rewrite Hv, String.eqb_refl. reflexivity.
  - destruct (String.eqb k (norm_url s)) eqn:E.
    + exfalso. apply String.eqb_eq in E. apply Hk. rewrite E.
      apply in_map_iff in Hin as [[k' v'] [Hv' Hin]]. simpl in Hv'. subst v'.
      apply in_map_iff. exists (k', s). split; [| exact Hin].
      rewrite Forall_forall in Hc. exact (eq_sym (Hc _ Hin)).
    + apply IH; assumption.
Qed.

(** C3 (as the code does it): for every non-empty normalised URL [u], the
    deduplicated output holds at most one signal with URL [u]; the URL
    pass keeps for [u] the earliest signal of the group with the largest
    score len(companies_mentioned) + len(entity_tags); and any output
    signal with URL [u] is that one. *)
Theorem final_dedup_url_survivor :
  forall (l : list Signal) (u : string),
    u <> "" ->
    List.length (url_group u (final_dedup l)) <= 1 /\
    (url_group u l <> [] ->
       exists s, lookup_url u (fst (url_pass l)) = Some s /\ is_first_max (url_group u l) s) /\
    (forall s, In s (final_dedup l) -> norm_url s = u -> is_first_max (url_group u l) s).
Proof.
  intros l u Hu. pose proof (url_pass_inv l) as [Hg [Hc [Hk Hn]]].
  unfold final_dedup. destruct (url_pass l) as [by_url no_url]. cbn [fst snd] in *.
  destruct (title_pass_sub (map snd by_url ++ no_url) [] []) as [Hsub Hlen].
  assert (Hno : url_group u no_url = []).
  { clear Hsub Hlen. induction no_url as [| e r IHr]; [reflexivity |].
    apply Forall_cons_iff in Hn as [He Hr]. unfold url_group. simpl. rewrite He.
    replace (String.eqb "" u) with false by (symmetry; apply String.eqb_neq; congruence).
    apply IHr, Hr. }
  split; [| split].
  - specialize (Hlen u). unfold url_group at 3 in Hlen. rewrite filter_app in Hlen.
    fold (url_group u (map snd by_url)) (url_group u no_url) in Hlen.
    rewrite Hno, app_nil_r in Hlen. simpl in Hlen.
    pose proof (by_url_group_le_1 u by_url Hc Hk). lia.
  - apply (Hg u Hu).
  - intros s Hs Hsu. destruct (Hsub s Hs) as [[] | Hin].
    apply in_app_iff in Hin as [Hin | Hin].
    + pose proof (by_url_member_lookup s by_url Hc Hk Hin) as Hl. rewrite Hsu in Hl.
      destruct (url_group u l) eqn:Eg.
      * rewrite (proj1 (Hg u Hu) Eg) in Hl. discriminate.
      * destruct (proj2 (Hg u Hu) ltac:(rewrite Eg; discriminate)) as [s' [Hs' Hfm]].
        rewrite Hl in Hs'. injection Hs' as <-. rewrite Eg in Hfm. exact Hfm.
    + rewrite Forall_forall in Hn. rewrite (Hn s Hin) in Hsu. congruence.
Qed.

Lemma final_dedup_url_survivor_witness :
  "https://example.com/a" <> "" /\
  (List.length (url_group "https://example.com/a" (final_dedup dup_input)) <= 1 /\
   (url_group "https://example.com/a" dup_input <> [] ->
      exists s, lookup_url "https://example.com/a" (fst (url_pass dup_input)) = Some s /\
                is_first_max (url_group "https://example.com/a" dup_input) s) /\
   (forall s, In s (final_dedup dup_input) -> norm_url s = "https://example.com/a" ->
      is_first_max (url_group "https://example.com/a" dup_input) s)).
Proof.
  split; [discriminate |].
  apply final_dedup_url_survivor. discriminate.
Defined.

(** C3, counterexample to the pairwise reading: [dup_second] and
    [dup_third] share a non-empty normalised URL and have equal scores,
    and [dup_second] is seen first; yet the survivor of their URL group is
    [dup_first], which has a higher score, and [dup_second] is not in the
    output. *)
Lemma dedup_tied_pair_first_seen_not_survivor :
  norm_url dup_second = "https://example.com/a" /\
  norm_url dup_third = "https://example.com/a" /\
  score dup_second = score dup_third /\
  lookup_url "https://example.com/a" (fst (url_pass dup_input)) = Some dup_first /\
  dup_first <> dup_second /\
  ~ In dup_second (final_dedup dup_input) /\
  In dup_first (final_dedup dup_input).
Proof.
  assert (Hout : final_dedup dup_input = [dup_first]) by (vm_compute; reflexivity).
  rewrite Hout.
  split; [vm_compute; reflexivity |].
  split; [vm_compute; reflexivity |].
  split; [reflexivity |].
  split; [vm_compute; reflexivity |].
  split; [discriminate |].
  split; [intros [H | []]; discriminate H | left; reflexivity].
Qed.

Lemma group_add_keys :
  forall w e m k, In k (map fst (group_add w e m)) <-> In k (map fst m) \/ k = w.
Proof.
  intros w e m k. induction m as [| [k' v] m IH]; simpl.
  - split; [intros [H | []]; right; congruence | intros [[] | H]; left; congruence].
  - destruct (String.eqb k' w) eqn:E; simpl.
    + apply String.eqb_eq in E. subst k'. split; [tauto |].
      intros [H | H]; [exact H | left; congruence].
    + rewrite IH. tauto.
Qed.

Lemma group_add_nodup :
  forall w e m, NoDup (map fst m) -> NoDup (map fst (group_add w e m)).
Proof.
  intros w e m. induction m as [| [k' v] m IH]; intros Hnd; simpl.
  - constructor; [intros [] | constructor].
  - simpl in Hnd. apply NoDup_cons_iff in Hnd as [Hk Hnd].
    destruct (String.eqb k' w) eqn:E; simpl; apply NoDup_cons_iff; split.
    + exact Hk.
    + exact Hnd.
    + rewrite group_add_keys. intros [H | H]; [tauto |].
      subst k'. rewrite String.eqb_refl in E. discriminate.
    + apply IH, Hnd.
Qed.

Lemma group_add_nonempty :
  forall w e m, Forall (fun kv => snd kv <> []) m ->
    Forall (fun kv => snd kv <> []) (group_add w e m).
Proof.
  intros w e m. induction m as [| [k' v] m IH]; intros H; simpl.
  - constructor; [simpl; discriminate | constructor].
  - apply Forall_cons_iff in H as [Hv H].
    destruct (String.eqb k' w); constructor.
    + simpl. intros Happ. apply app_eq_nil in Happ as [_ Happ]. discriminate.
    + exact H.
    + exact Hv.
    + apply IH, H.
Qed.

Lemma by_week_fold_spec :
  forall l m,
    NoDup (map fst m) -> Forall (fun kv => snd kv <> []) m ->
    let m' := fold_left (fun m e => match _iso_week (p_post_date (post e)) with
                                    | Some w => group_add w e m
                                    | None => m
                                    end) l m in
    NoDup (map fst m') /\ Forall (fun kv => snd kv <> []) m' /\
    (forall k, In k (map fst m') <-> In k (map fst m) \/ In k (dated_weeks l)).
Proof.
  induction l as [| e l IH]; intros m Hnd Hne; cbn [fold_left].
  - split; [exact Hnd | split; [exact Hne |]]. intros k. simpl. tauto.
  - unfold dated_weeks. cbn [flat_map]. fold (dated_weeks l).
    destruct (_iso_week (p_post_date (post e))) as [w |].
    + destruct (IH (group_add w e m) (group_add_nodup w e m Hnd) (group_add_nonempty w e m Hne))
        as [H1 [H2 H3]].
      split; [exact H1 | split; [exact H2 |]].
      intros k. rewrite H3, group_add_keys. simpl. split; intros H; intuition congruence.
    + destruct (IH m Hnd Hne) as [H1 [H2 H3]].
      split; [exact H1 | split; [exact H2 |]]. intros k. rewrite H3. simpl. tauto.
Qed.

Lemma by_week_spec :
  forall insights,
    NoDup (map fst (by_week insights)) /\
    Forall (fun kv => snd kv <> []) (by_week insights) /\
    (forall k, In k (map fst (by_week insights)) <-> In k (dated_weeks insights)).
Proof.
  intros insights.
  destruct (by_week_fold_spec insights [] (NoDup_nil _) (Forall_nil _)) as [H1 [H2 H3]].
  unfold by_week. split; [exact H1 | split; [exact H2 |]].
  intros k. rewrite H3. simpl. tauto.
Qed.

Lemma nodup_all_equal_length :
  forall (l : list string), NoDup l -> (forall x y, In x l -> In y l -> x = y) ->
    List.length l <= 1.
Proof.
  intros [| a [| b r]] Hnd Heq; simpl; try lia.
  exfalso. apply NoDup_cons_iff in Hnd as [Ha _]. apply Ha.
  rewrite (Heq a b) by (simpl; tauto). simpl; tauto.
Qed.

Lemma moves_all_flat :
  forall kind dir l,
    Forall (fun kv => t_direction (snd kv) = flat) l -> moves kind dir l = [].
Proof.
  intros kind dir l H. unfold moves.
  induction l as [| [n te] l IH]; [reflexivity |].
  apply Forall_cons_iff in H as [Hd H]. simpl in Hd |- *. rewrite Hd.
  destruct dir; exact (IH H).
Qed.

Lemma series_entry_one_week :
  forall m w (count : list Signal -> nat),
    t_delta_pct (series_entry m [w] (lastn 4 [w]) count) = 0%Q /\
    t_direction (series_entry m [w] (lastn 4 [w]) count) = flat.
Proof. intros m w count. split; reflexivity. Qed.

Lemma compute_deltas_from_zero :
  forall c, 0 < c -> _compute_deltas (Z.of_nat c) (Z.of_nat 0) = (inject_Z (Z.of_nat c), new).
Proof. intros [| c] Hc; [lia | reflexivity]. Qed.

Lemma by_week_fold_sizes :
  forall l m,
    list_sum (map (fun kv => List.length (snd kv))
      (fold_left (fun m e => match _iso_week (p_post_date (post e)) with
                             | Some w => group_add w e m
                             | None => m
                             end) l m)) =
    list_sum (map (fun kv => List.length (snd kv)) m) + List.length (dated_weeks l).
Proof.
  induction l as [| e l IH]; intros m; cbn [fold_left]; [simpl; lia |].
  rewrite IH. unfold dated_weeks. cbn [flat_map]. fold (dated_weeks l).
  destruct (_iso_week (p_post_date (post e))) as [w |]; simpl; [| reflexivity].
  assert (G : forall m, list_sum (map (fun kv => List.length (snd kv)) (group_add w e m)) =
                        S (list_sum (map (fun kv => List.length (snd kv)) m))).
  { induction m0 as [| [k v] m0 IHm]; simpl; [reflexivity |].
    destruct (String.eqb k w); simpl; [rewrite length_app; simpl; lia | rewrite IHm; lia]. }
  rewrite G. lia.
Qed.

Lemma insert_sorted_nonnil : forall x l, insert_sorted x l <> [].
Proof. intros x [| y l]; simpl; [discriminate |]. destruct (String.leb x y); discriminate. Qed.

(** [run_trends] returns the early [{}] exactly when no post has a
    parseable date. *)
Lemma run_trends_none_iff :
  forall insights, run_trends insights = None <-> dated_weeks insights = [].
Proof.
  intros insights. destruct (by_week_spec insights) as [_ [_ Hkeys]].
  unfold run_trends. cbv zeta. split.
  - destruct (by_week insights) as [| [k v] m] eqn:E.
    + intros _. destruct (dated_weeks insights) as [| k ks] eqn:Ed; [reflexivity |].
      exfalso. assert (Hk := proj2 (Hkeys k) (or_introl eq_refl)). destruct Hk.
    + destruct (sorted (map fst ((k, v) :: m))) eqn:Ei.
      * exfalso. exact (insert_sorted_nonnil _ _ Ei).
      * intros Hc. discriminate Hc.
  - intros Ed. destruct (by_week insights) as [| [k v] m] eqn:E; [reflexivity |].
    exfalso. assert (Hk := proj1 (Hkeys k) (or_introl eq_refl)). rewrite Ed in Hk. destruct Hk.
Qed.

(** C2 (as the code does it): when the parseable post dates fall in
    fewer than 2 distinct ISO weeks, [run_trends] does not fail: with no
    dated post it returns the empty result, and with one week [w] the
    company, tag and signal trends are all [flat] with a 0 delta, the
    rising and fading lists are empty, but the single volume-trend entry
    is [new], and both its count and its delta are the number of posts of
    that week ([dated_weeks] has one entry per dated post). *)
Theorem run_trends_fewer_than_two_weeks :
  forall insights : list Signal,
    (forall w1 w2, In w1 (dated_weeks insights) -> In w2 (dated_weeks insights) -> w1 = w2) ->
    (dated_weeks insights = [] -> run_trends insights = None) /\
    (forall w, In w (dated_weeks insights) ->
       exists td,
         run_trends insights = Some td /\ weeks td = [w] /\
         volume_trend td =
           [{| v_week := w; v_count := List.length (dated_weeks insights);
               v_delta_pct := inject_Z (Z.of_nat (List.length (dated_weeks insights)));
               v_direction := new |}] /\
         Forall (fun kv => t_delta_pct (snd kv) = 0%Q /\ t_direction (snd kv) = flat)
                (company_trends td ++ tag_trends td ++ signal_trends td) /\
         rising_list td = [] /\ fading_list td = []).
Proof.
  intros insights Hone. split; [apply run_trends_none_iff |].
  intros w0 Hw0.
  destruct (by_week_spec insights) as [Hnd [Hne Hkeys]].
  assert (Hlen : List.length (map fst (by_week insights)) <= 1).
  { apply nodup_all_equal_length; [exact Hnd |].
    intros x y Hx Hy. apply Hone; apply Hkeys; assumption. }
  assert (Hsz : list_sum (map (fun kv => List.length (snd kv)) (by_week insights)) =
                List.length (dated_weeks insights))
    by (unfold by_week; rewrite by_week_fold_sizes; reflexivity).
  apply Hkeys in Hw0.
  unfold run_trends.
  destruct (by_week insights) as [| [w ps] [| kv r]] eqn:E.
  - destruct Hw0.
  - destruct Hw0 as [Hw | []]. cbn [fst] in Hw. subst w0.
    assert (Hcount : List.length ps = List.length (dated_weeks insights)) by (rewrite <- Hsz; simpl; lia).
    rewrite <- Hcount.
    cbv zeta. change (sorted (map fst [(w, ps)])) with [w]. cbv beta iota.
    assert (Hc : 0 < List.length ps).
    { apply Forall_cons_iff in Hne as [Hps _]. simpl in Hps.
      destruct ps; [congruence | simpl; lia]. }
    eexists. split; [reflexivity |]. split; [reflexivity |].
    assert (Hflat : Forall (fun kv => t_delta_pct (snd kv) = 0%Q /\ t_direction (snd kv) = flat)
      (map (fun c => (c, series_entry [(w, ps)] [w] (lastn 4 [w]) (fun ps0 => week_company ps0 c)))
           (sorted (fold_left (fun s w0 => fold_left (fun s0 c => set_add c s0)
                      (week_companies_keys (posts_of [(w, ps)] w0)) s) (lastn 4 [w]) [])) ++
       map (fun t => (t, series_entry [(w, ps)] [w] (lastn 4 [w]) (fun ps0 => week_tag ps0 t)))
           (sorted (fold_left (fun s w0 => fold_left (fun s0 c => set_add c s0)
                      (week_tags_keys (posts_of [(w, ps)] w0)) s) (lastn 4 [w]) [])) ++
       map (fun s => (s, series_entry [(w, ps)] [w] (lastn 4 [w]) (fun ps0 => week_signal ps0 s)))
           signal_names)).
    { repeat rewrite Forall_app. repeat split; rewrite Forall_map, Forall_forall;
        intros x _; apply series_entry_one_week. }
    split.
    + cbn [volume_trend volume_from]. unfold posts_of. cbn [find fst].
      rewrite String.eqb_refl. unfold week_total.
      rewrite (compute_deltas_from_zero _ Hc). reflexivity.
    + split; [exact Hflat |].
      apply Forall_app in Hflat as [Hct Htt]. apply Forall_app in Htt as [Htt _].
      pose proof (fun k d => moves_all_flat k d _ (Forall_impl _ (fun kv H => proj2 H) Hct)) as Dct.
      pose proof (fun k d => moves_all_flat k d _ (Forall_impl _ (fun kv H => proj2 H) Htt)) as Dtt.
      cbn [rising_list fading_list]. rewrite !Dct, !Dtt. split; reflexivity.
  - exfalso. simpl in Hlen. lia.
Qed.

Lemma run_trends_fewer_than_two_weeks_witness :
  (forall w1 w2, In w1 (dated_weeks one_week_input) -> In w2 (dated_weeks one_week_input) ->
     w1 = w2) /\
  In "2026-W08" (dated_weeks one_week_input) /\
  exists td,
    run_trends one_week_input = Some td /\ weeks td = ["2026-W08"] /\
    volume_trend td =
      [{| v_week := "2026-W08"; v_count := List.length (dated_weeks one_week_input);
          v_delta_pct := inject_Z (Z.of_nat (List.length (dated_weeks one_week_input)));
          v_direction := new |}] /\
    Forall (fun kv => t_delta_pct (snd kv) = 0%Q /\ t_direction (snd kv) = flat)
           (company_trends td ++ tag_trends td ++ signal_trends td) /\
    rising_list td = [] /\ fading_list td = [].
Proof.
  assert (Ed : dated_weeks one_week_input = ["2026-W08"]) by (vm_compute; reflexivity).
  assert (H : forall w1 w2, In w1 (dated_weeks one_week_input) ->
                In w2 (dated_weeks one_week_input) -> w1 = w2).
  { rewrite Ed. intros w1 w2 [<- | []] [<- | []]. reflexivity. }
  assert (Hw : In "2026-W08" (dated_weeks one_week_input)) by (rewrite Ed; left; reflexivity).
  split; [exact H | split; [exact Hw |]].
  exact (proj2 (run_trends_fewer_than_two_weeks one_week_input H) "2026-W08" Hw).
Defined.

(** C2, counterexample: with a single dated week, the volume-trend entry
    is [new] with delta 1 (the week's count), not [flat] with 0%. *)
Lemma run_trends_one_week_volume_new :
  dated_weeks one_week_input = ["2026-W08"] /\
  option_map (fun td => map (fun v => (v_direction v, v_delta_pct v)) (volume_trend td))
             (run_trends one_week_input) = Some [(new, 1%Q)].
Proof. split; vm_compute; reflexivity. Qed.

(* ------------------------------------------------------------------ *)
(** ** Further properties of enrich.py *)

Lemma pre_fold_spec :
  forall l seen acc,
    seen = map pre_key acc -> NoDup seen -> Forall (fun p => pre_key p <> "") acc ->
    fst (fold_left pre_step l (seen, acc)) = map pre_key (snd (fold_left pre_step l (seen, acc))) /\ NoDup (fst (fold_left pre_step l (seen, acc))) /\ Forall (fun p => pre_key p <> "") (snd (fold_left pre_step l (seen, acc))) /\
    (forall x, In x (snd (fold_left pre_step l (seen, acc))) -> In x acc \/ In x l) /\
    (forall k, In k seen -> In k (fst (fold_left pre_step l (seen, acc)))) /\
    (forall p, In p l -> pre_key p <> "" -> In (pre_key p) (fst (fold_left pre_step l (seen, acc)))).
Proof.
  induction l as [| p l IH]; intros seen acc Hs Hnd Hne; cbn [fold_left].
  - cbn [fst snd]. repeat split; auto. intros p [].
  - assert (Hst : pre_step (seen, acc) p =
                   if negb (String.eqb (pre_key p) "") && negb (mem (pre_key p) seen)
                   then (seen ++ [pre_key p], acc ++ [p]) else (seen, acc)) by reflexivity.
    rewrite Hst.
    destruct (negb (String.eqb (pre_key p) "") && negb (mem (pre_key p) seen)) eqn:E.
    + apply andb_true_iff in E as [E1 E2]. apply negb_true_iff in E1, E2.
      assert (Hs' : seen ++ [pre_key p] = map pre_key (acc ++ [p])) by (rewrite map_app; subst; reflexivity).
      assert (Hnd' : NoDup (seen ++ [pre_key p])).
      { apply NoDup_app; [exact Hnd | constructor; [intros [] | constructor] |].
        intros x Hx [<- | []]. apply mem_In in Hx. congruence. }
      assert (Hne' : Forall (fun p => pre_key p <> "") (acc ++ [p])).
      { apply Forall_app; split; [exact Hne |]. constructor; [| constructor].
        apply String.eqb_neq. exact E1. }
      destruct (IH _ _ Hs' Hnd' Hne') as [H1 [H2 [H3 [H4 [H5 H6]]]]].
      repeat split; try assumption.
      * intros x Hx. destruct (H4 x Hx) as [H | H].
        -- apply in_app_iff in H as [H | [<- | []]]; [left; exact H | right; left; reflexivity].
        -- right; right; exact H.
      * intros k Hk. apply H5, in_app_iff. left; exact Hk.
      * intros q [<- | Hq] Hk; [apply H5, in_app_iff; right; left; reflexivity | exact (H6 q Hq Hk)].
    + destruct (IH _ _ Hs Hnd Hne) as [H1 [H2 [H3 [H4 [H5 H6]]]]].
      repeat split; try assumption.
      * intros x Hx. destruct (H4 x Hx) as [H | H]; [left; exact H | right; right; exact H].
      * intros q [<- | Hq] Hk; [| exact (H6 q Hq Hk)].
        apply H5. apply andb_false_iff in E as [E | E].
        -- apply negb_false_iff, String.eqb_eq in E. contradiction.
        -- apply negb_false_iff, mem_In in E. exact E.
Qed.

(** The pre-dedup of [run_enrichment] keeps only input posts, never two
    with the same key [post_id or text[:100]], never one whose key is
    empty, and for every input post with a non-empty key it keeps a post
    with that key. *)
Theorem pre_dedup_spec :
  forall all_posts : list RawPost,
    (forall p, In p (pre_dedup all_posts) -> In p all_posts) /\
    NoDup (map pre_key (pre_dedup all_posts)) /\
    (forall p, In p (pre_dedup all_posts) -> pre_key p <> "") /\
    (forall p, In p all_posts -> pre_key p <> "" ->
       exists q, In q (pre_dedup all_posts) /\ pre_key q = pre_key p).
Proof.
  intros l. unfold pre_dedup.
  destruct (pre_fold_spec l [] [] eq_refl (NoDup_nil _) (Forall_nil _))
    as [H1 [H2 [H3 [H4 [_ H6]]]]].
  split; [| split; [| split]].
  - intros p Hp. destruct (H4 p Hp) as [[] | H]; exact H.
  - rewrite <- H1. exact H2.
  - rewrite Forall_forall in H3. exact H3.
  - intros p Hp Hk. specialize (H6 p Hp Hk). rewrite H1 in H6.
    apply in_map_iff in H6 as [q [Hq Hin]]. exists q. split; assumption.
Qed.

(** The relevance gate of [run_enrichment] admits a post exactly when its
    stripped title has at least 10 characters and is not on the title
    blocklist, a conditionally blocked title has a domain term, the
    lowercased text has no noise phrase, and either the text has a
    domain term or the source is G2 or Product Hunt and the text contains
    a company term of at least 3 characters. *)
Theorem relevance_gate_accept_iff :
  forall (P : Patterns) (company_terms : list string) (p : RawPost),
    let title := strip (p_title p) in
    let text := (p_text p ++ " " ++ title)%string in
    relevance_gate P company_terms p = Accept <->
    10 <= String.length title /\
    TITLE_BLOCKLIST P title = false /\
    (_CONDITIONAL_BLOCKLIST P title = true -> _has_geo_terms title = true) /\
    (forall n, In n NOISE_PHRASES -> contains n (lower text) = false) /\
    (_has_geo_terms text = true \/
     (In (p_source p) GEO_SOURCES /\
      exists a, In a company_terms /\ 3 <= String.length a /\ contains a (lower text) = true)).
Proof.
  intros P terms p title text. unfold relevance_gate. fold title text.
  destruct (String.length title <? 10) eqn:E1.
  { split; [discriminate | intros [H _]]. apply Nat.ltb_lt in E1. lia. }
  apply Nat.ltb_ge in E1.
  destruct (TITLE_BLOCKLIST P title) eqn:E2.
  { split; [discriminate | intros [_ [H _]]; discriminate]. }
  destruct (_CONDITIONAL_BLOCKLIST P title) eqn:E3;
    destruct (_has_geo_terms title) eqn:E4; cbn [andb negb];
    try (split; [discriminate | intros [_ [_ [H _]]]; specialize (H eq_refl); discriminate]).
  all: destruct (existsb (fun n => contains n (lower text)) NOISE_PHRASES) eqn:E5;
    [ split; [discriminate |]; intros [_ [_ [_ [H _]]]];
      apply existsb_exists in E5 as [n [Hn Hc]]; rewrite (H n Hn) in Hc; discriminate | ].
  all: assert (HN : forall n, In n NOISE_PHRASES -> contains n (lower text) = false)
         by (intros n Hn; destruct (contains n (lower text)) eqn:Ec; [| reflexivity];
             rewrite <- E5; symmetry; apply existsb_exists; exists n; split; assumption).
  all: destruct (mem (p_source p) GEO_SOURCES &&
                 existsb (fun alias => (3 <=? String.length alias) && contains alias (lower text))
                         terms) eqn:E6.
  all: try (split; [intros _; repeat split; auto; try discriminate;
                    right; apply andb_true_iff in E6 as [Es Ea];
                    split; [apply mem_In; exact Es |];
                    apply existsb_exists in Ea as [a [Ha Hc]];
                    apply andb_true_iff in Hc as [Hl Hc]; apply Nat.leb_le in Hl;
                    exists a; repeat split; assumption
                   | intros _; reflexivity]).
  all: destruct (_has_geo_terms text) eqn:E7.
  all: try (split; [intros _; repeat split; auto; discriminate | intros _; reflexivity]).
  all: split; [discriminate |]; intros [_ [_ [_ [_ [H | [Hs [a [Ha [Hl Hc]]]]]]]]]; [discriminate |].
  all: apply andb_false_iff in E6 as [E6 | E6];
    [apply mem_In in Hs; congruence |].
  all: assert (Hx : existsb (fun alias => (3 <=? String.length alias) && contains alias (lower text))
                      terms = true)
         by (apply existsb_exists; exists a; split; [exact Ha |];
             apply andb_true_iff; split; [apply Nat.leb_le; exact Hl | exact Hc]).
  all: congruence.
Qed.

Lemma lookup_put_str :
  forall k k' v m, lookup_str k (put_str k' v m) = if String.eqb k' k then Some v else lookup_str k m.
Proof.
  intros k k' v m. induction m as [| [k0 v0] m IH]; simpl; [reflexivity |].
  destruct (String.eqb k0 k') eqn:E0; simpl.
  - apply String.eqb_eq in E0. subst k0. destruct (String.eqb k' k); reflexivity.
  - rewrite IH. destruct (String.eqb k0 k) eqn:E1, (String.eqb k' k) eqn:E2; try reflexivity.
    apply String.eqb_eq in E1, E2. subst. rewrite String.eqb_refl in E0. discriminate.
Qed.

Lemma lookup_put_all :
  forall k ws m,
    lookup_str k (put_all ws m) =
    fold_left (fun acc kv => if String.eqb (fst kv) k then Some (snd kv) else acc) ws (lookup_str k m).
Proof.
  intros k ws. unfold put_all. induction ws as [| [k' v] ws IH]; intros m; simpl; [reflexivity |].
  rewrite IH, lookup_put_str. reflexivity.
Qed.

Lemma put_all_app : forall ws1 ws2 m, put_all (ws1 ++ ws2) m = put_all ws2 (put_all ws1 m).
Proof. intros. unfold put_all. apply fold_left_app. Qed.

Lemma own_aliases_fold :
  forall name als am ow aa,
    let r := fold_left (fun '(am, ow, aa) a =>
                          (put_str (lower a) name am, set_add (lower a) ow, set_add (lower a) aa))
                       als (am, ow, aa) in
    fst (fst r) = put_all (map (fun a => (lower a, name)) als) am /\
    (forall x, In x (snd (fst r)) <-> In x ow \/ In x (map lower als)).
Proof.
  intros name als. induction als as [| a als IH]; intros am ow aa; cbn [fold_left map].
  - split; [reflexivity | simpl; tauto].
  - destruct (IH (put_str (lower a) name am) (set_add (lower a) ow) (set_add (lower a) aa))
      as [H1 H2].
    split; [exact H1 |]. intros x. rewrite H2, set_add_In. simpl. intuition (subst; auto).
Qed.

Lemma competitor_aliases_fold :
  forall name als am aa,
    fst (fold_left (fun '(am, aa) a => (put_str (lower a) name am, set_add (lower a) aa))
                   als (am, aa)) = put_all (map (fun a => (lower a, name)) als) am.
Proof.
  intros name als. induction als as [| a als IH]; intros am aa; cbn [fold_left map];
    [reflexivity | apply IH].
Qed.

Lemma load_own_step_spec :
  forall st c,
    alias_map_of (load_own_step st c) = put_all (company_writes c) (alias_map_of st) /\
    (forall x, In x (own_names_of (load_own_step st c)) <->
               In x (own_names_of st) \/ x = lower (c_name c) \/ In x (map lower (c_aliases c))) /\
    (forall n, In n (context_required_of (load_own_step st c)) <->
               In n (context_required_of st) \/ (c_context_required c = true /\ n = c_name c)).
Proof.
  intros [[[am ow] aa] cr] c. unfold load_own_step.
  destruct (own_aliases_fold (c_name c) (c_aliases c) (put_str (lower (c_name c)) (c_name c) am)
              (set_add (lower (c_name c)) ow) aa) as [H1 H2].
  destruct (fold_left _ (c_aliases c) _) as [[am' ow'] aa'] eqn:E. cbn [fst snd] in H1, H2.
  cbn [alias_map_of own_names_of context_required_of]. split; [| split].
  - rewrite H1. reflexivity.
  - intros x. rewrite H2, set_add_In. tauto.
  - intros n. destruct (c_context_required c).
    + rewrite set_add_In. split; intros [H | H]; [left; exact H | right; split; auto |
                                                   left; exact H | right; apply H].
    + split; [tauto | intros [H | [H _]]; [exact H | discriminate]].
Qed.

Lemma load_competitor_step_spec :
  forall st c,
    alias_map_of (load_competitor_step st c) = put_all (company_writes c) (alias_map_of st) /\
    own_names_of (load_competitor_step st c) = own_names_of st /\
    (forall n, In n (context_required_of (load_competitor_step st c)) <->
               In n (context_required_of st) \/ (c_context_required c = true /\ n = c_name c)).
Proof.
  intros [[[am ow] aa] cr] c. unfold load_competitor_step.
  pose proof (competitor_aliases_fold (c_name c) (c_aliases c)
                (put_str (lower (c_name c)) (c_name c) am) aa) as H1.
  destruct (fold_left _ (c_aliases c) _) as [am' aa'] eqn:E. cbn [fst snd] in H1.
  cbn [alias_map_of own_names_of context_required_of]. split; [| split].
  - rewrite H1. reflexivity.
  - reflexivity.
  - intros n. destruct (c_context_required c).
    + rewrite set_add_In. split; intros [H | H]; [left; exact H | right; split; auto |
                                                   left; exact H | right; apply H].
    + split; [tauto | intros [H | [H _]]; [exact H | discriminate]].
Qed.

Lemma load_own_fold_spec :
  forall cs st,
    alias_map_of (fold_left load_own_step cs st) = put_all (flat_map company_writes cs) (alias_map_of st) /\
    (forall x, In x (own_names_of (fold_left load_own_step cs st)) <->
               In x (own_names_of st) \/
               exists c, In c cs /\ (x = lower (c_name c) \/ In x (map lower (c_aliases c)))) /\
    (forall n, In n (context_required_of (fold_left load_own_step cs st)) <->
               In n (context_required_of st) \/
               exists c, In c cs /\ c_context_required c = true /\ n = c_name c).
Proof.
  induction cs as [| c cs IH]; intros st; cbn [fold_left flat_map].
  - split; [reflexivity |]. split; intros; split; intros H; auto;
      destruct H as [H | [c [[] _]]]; exact H.
  - destruct (load_own_step_spec st c) as [A1 [A2 A3]].
    destruct (IH (load_own_step st c)) as [B1 [B2 B3]]. split; [| split].
    + rewrite B1, A1, put_all_app. reflexivity.
    + intros x. rewrite B2, A2. split.
      * intros [[H | [H | H]] | [c' [Hc H]]]; [left; exact H | right; exists c; simpl; tauto |
          right; exists c; simpl; tauto | right; exists c'; simpl; tauto].
      * intros [H | [c' [[<- | Hc] H]]]; [tauto | tauto | right; exists c'; tauto].
    + intros n. rewrite B3, A3. split.
      * intros [[H | H] | [c' [Hc H]]]; [left; exact H | right; exists c; simpl; tauto |
          right; exists c'; simpl; tauto].
      * intros [H | [c' [[<- | Hc] H]]]; [tauto | tauto | right; exists c'; tauto].
Qed.

Lemma load_competitor_fold_spec :
  forall cs st,
    alias_map_of (fold_left load_competitor_step cs st) =
      put_all (flat_map company_writes cs) (alias_map_of st) /\
    own_names_of (fold_left load_competitor_step cs st) = own_names_of st /\
    (forall n, In n (context_required_of (fold_left load_competitor_step cs st)) <->
               In n (context_required_of st) \/
               exists c, In c cs /\ c_context_required c = true /\ n = c_name c).
Proof.
  induction cs as [| c cs IH]; intros st; cbn [fold_left flat_map].
  - split; [reflexivity | split; [reflexivity |]]. intros n; split; intros H; auto;
      destruct H as [H | [c [[] _]]]; exact H.
  - destruct (load_competitor_step_spec st c) as [A1 [A2 A3]].
    destruct (IH (load_competitor_step st c)) as [B1 [B2 B3]]. split; [| split].
    + rewrite B1, A1, put_all_app. reflexivity.
    + rewrite B2, A2. reflexivity.
    + intros n. rewrite B3, A3. split.
      * intros [[H | H] | [c' [Hc H]]]; [left; exact H | right; exists c; simpl; tauto |
          right; exists c'; simpl; tauto].
      * intros [H | [c' [[<- | Hc] H]]]; [tauto | tauto | right; exists c'; tauto].
Qed.

(** [_load_companies] resolves every key of [alias_map] to the name of
    the last company, in file order (own brands first, then
    competitors), whose lowercased name or alias is that key: a later
    company listing the same alias overrides an earlier one.  A key no
    company lists is absent. *)
Theorem load_companies_alias_last_wins :
  forall (d : CompanyConfig) (k : string),
    lookup_str k (alias_map_of (_load_companies (Some d))) = last_write k (alias_writes d).
Proof.
  intros d k. unfold _load_companies.
  destruct (load_competitor_fold_spec (competitors_cfg d)
              (fold_left load_own_step (own_brands_cfg d) ([], [], [], []))) as [H1 _].
  destruct (load_own_fold_spec (own_brands_cfg d) ([], [], [], [])) as [H2 _].
  rewrite H1, H2. cbn [alias_map_of]. rewrite <- put_all_app.
  rewrite lookup_put_all. unfold last_write, alias_writes. rewrite flat_map_app. reflexivity.
Qed.

(** [_load_companies] puts into [own_brand_names] exactly the lowercased
    names and aliases of the own brands (no competitor's), and into
    [context_required_names] exactly the names of the companies, own or
    competitor, flagged [context_required]. *)
Theorem load_companies_own_and_context :
  forall (d : CompanyConfig),
    (forall x, In x (own_names_of (_load_companies (Some d))) <->
       exists c, In c (own_brands_cfg d) /\
                 (x = lower (c_name c) \/ In x (map lower (c_aliases c)))) /\
    (forall n, In n (context_required_of (_load_companies (Some d))) <->
       exists c, In c (own_brands_cfg d ++ competitors_cfg d) /\
                 c_context_required c = true /\ n = c_name c).
Proof.
  intros d. unfold _load_companies.
  destruct (load_competitor_fold_spec (competitors_cfg d)
              (fold_left load_own_step (own_brands_cfg d) ([], [], [], []))) as [_ [H1 H2]].
  destruct (load_own_fold_spec (own_brands_cfg d) ([], [], [], [])) as [_ [H3 H4]].
  split.
  - intros x. rewrite H1, H3. cbn [own_names_of In]. split; [intros [[] | H]; exact H | tauto].
  - intros n. rewrite H2, H4. cbn [context_required_of In]. split.
    + intros [[[] | [c [Hc H]]] | [c [Hc H]]]; exists c; rewrite in_app_iff; tauto.
    + intros [c [Hc H]]. apply in_app_iff in Hc as [Hc | Hc]; [left; right | right]; exists c; tauto.
Qed.

Lemma insert_by_date_perm : forall x l, Permutation (insert_by_date x l) (x :: l).
Proof.
  intros x l. induction l as [| y l IH]; simpl; [apply Permutation_refl |].
  destruct (String.leb _ _); [apply Permutation_refl |].
  eapply perm_trans; [apply perm_skip, IH | apply perm_swap].
Qed.

Lemma sort_by_date_perm : forall l, Permutation (sort_by_date_desc l) l.
Proof.
  induction l as [| x l IH]; simpl; [apply Permutation_refl |].
  eapply perm_trans; [apply insert_by_date_perm | apply perm_skip, IH].
Qed.

Lemma insert_by_date_sorted :
  forall x l, Sorted (fun a b => String.leb (date_of b) (date_of a) = true) l ->
    Sorted (fun a b => String.leb (date_of b) (date_of a) = true) (insert_by_date x l).
Proof.
  intros x l. induction l as [| y l IH]; intros Hs; simpl; [repeat constructor |].
  unfold date_of in *.
  destruct (String.leb (p_post_date (post y)) (p_post_date (post x))) eqn:E.
  - constructor; [exact Hs | constructor; exact E].
  - apply Sorted_inv in Hs as [Hl Hh]. constructor; [apply IH, Hl |].
    destruct l as [| z l]; simpl; [constructor; apply leb_false_leb, E |].
    destruct (String.leb (p_post_date (post z)) (p_post_date (post x))); constructor.
    + apply leb_false_leb, E.
    + inversion Hh; assumption.
Qed.

Lemma sort_by_date_sorted :
  forall l, Sorted (fun a b => String.leb (date_of b) (date_of a) = true) (sort_by_date_desc l).
Proof.
  induction l as [| x l IH]; simpl; [constructor | apply insert_by_date_sorted, IH].
Qed.

Lemma put_url_values :
  forall u e m s, In s (map snd (put_url u e m)) -> In s (map snd m) \/ s = e.
Proof.
  intros u e m s. induction m as [| [k v] m IH]; simpl.
  - intros [H | []]. right; congruence.
  - destruct (String.eqb k u); simpl.
    + intros [H | H]; [right; congruence | left; right; exact H].
    + intros [H | H]; [left; left; exact H | destruct (IH H); [left; right | right]; assumption].
Qed.

Lemma url_pass_members_gen :
  forall l st s,
    In s (map snd (fst (fold_left url_step l st)) ++ snd (fold_left url_step l st)) ->
    In s (map snd (fst st) ++ snd st) \/ In s l.
Proof.
  induction l as [| e l IH]; intros [bu nu] s Hs; cbn [fold_left] in Hs; [left; exact Hs |].
  destruct (IH _ _ Hs) as [H | H]; [| right; right; exact H].
  unfold url_step in H. cbn [fst snd] in H |- *.
  destruct (String.eqb (norm_url e) "").
  - cbn [fst snd] in H. rewrite !in_app_iff in H |- *.
    destruct H as [H | H]; [tauto |].
    apply in_app_iff in H as [H | [H | []]]; [tauto | right; left; congruence].
  - destruct (lookup_url (norm_url e) bu) as [old |].
    + destruct (score old <? score e); cbn [fst snd] in H; [| left; exact H].
      rewrite in_app_iff in H |- *. destruct H as [H | H]; [| tauto].
      destruct (put_url_values _ _ _ _ H); [tauto | right; left; congruence].
    + cbn [fst snd] in H. rewrite in_app_iff in H |- *. destruct H as [H | H]; [| tauto].
      destruct (put_url_values _ _ _ _ H); [tauto | right; left; congruence].
Qed.

Lemma final_dedup_members : forall l s, In s (final_dedup l) -> In s l.
Proof.
  intros l s Hs. unfold final_dedup in Hs.
  pose proof (url_pass_members_gen l ([], []) s) as Hm. fold (url_pass l) in Hm.
  destruct (url_pass l) as [bu nu]. cbn [fst snd] in Hm.
  destruct (title_pass_sub (map snd bu ++ nu) [] []) as [Hsub _].
  destruct (Hsub s Hs) as [[] | H]. destruct (Hm H) as [[] | H']; exact H'.
Qed.

Lemma final_dedup_url_le_1 :
  forall l u, u <> "" -> List.length (url_group u (final_dedup l)) <= 1.
Proof.
  intros l u Hu. pose proof (url_pass_inv l) as [_ [Hc [Hk Hn]]].
  unfold final_dedup. destruct (url_pass l) as [by_url no_url]. cbn [fst snd] in *.
  assert (Hno : url_group u no_url = []).
  { clear Hc Hk. induction no_url as [| e r IHr]; [reflexivity |].
    apply Forall_cons_iff in Hn as [He Hr]. unfold url_group. simpl. rewrite He.
    replace (String.eqb "" u) with false by (symmetry; apply String.eqb_neq; congruence).
    apply IHr, Hr. }
  destruct (title_pass_sub (map snd by_url ++ no_url) [] []) as [_ Hlen].
  specialize (Hlen u). unfold url_group at 3 in Hlen. rewrite filter_app in Hlen.
  fold (url_group u (map snd by_url)) (url_group u no_url) in Hlen.
  rewrite Hno, app_nil_r in Hlen. simpl in Hlen.
  pose proof (by_url_group_le_1 u by_url Hc Hk). lia.
Qed.

Lemma title_pass_keys :
  forall l seen acc,
    seen = map title_key (filter long_title acc) -> NoDup seen ->
    NoDup (map title_key (filter long_title (snd (fold_left title_step l (seen, acc))))).
Proof.
  induction l as [| e l IH]; intros seen acc Hs Hnd; cbn [fold_left].
  - cbn [snd]. rewrite <- Hs. exact Hnd.
  - assert (Hst : title_step (seen, acc) e =
                  if long_title e && mem (title_key e) seen then (seen, acc)
                  else ((if long_title e then seen ++ [title_key e] else seen), acc ++ [e]))
      by reflexivity.
    rewrite Hst. destruct (long_title e) eqn:El; cbn [andb].
    + destruct (mem (title_key e) seen) eqn:Em; [apply IH; assumption |].
      apply IH.
      * rewrite filter_app, map_app, Hs. simpl. rewrite El. reflexivity.
      * apply NoDup_app; [exact Hnd | constructor; [intros [] | constructor] |].
        intros x Hx [<- | []]. apply mem_In in Hx. congruence.
    + apply IH; [| exact Hnd].
      rewrite filter_app, Hs. simpl. rewrite El, app_nil_r. reflexivity.
Qed.

Lemma final_dedup_title_nodup :
  forall l, NoDup (map title_key (filter long_title (final_dedup l))).
Proof.
  intros l. unfold final_dedup. destruct (url_pass l) as [bu nu].
  apply title_pass_keys; [reflexivity | constructor].
Qed.

Lemma url_group_perm :
  forall u l1 l2, Permutation l1 l2 -> List.length (url_group u l1) = List.length (url_group u l2).
Proof.
  intros u l1 l2 H. unfold url_group. apply Permutation_length.
  induction H; simpl.
  - constructor.
  - destruct (String.eqb (norm_url x) u); [apply perm_skip |]; exact IHPermutation.
  - destruct (String.eqb (norm_url x) u), (String.eqb (norm_url y) u);
      try apply perm_swap; try apply perm_skip; apply Permutation_refl.
  - eapply perm_trans; eassumption.
Qed.

Lemma perm_filter_gen :
  forall {A} (f : A -> bool) l1 l2, Permutation l1 l2 -> Permutation (filter f l1) (filter f l2).
Proof.
  intros A f l1 l2 H. induction H; simpl.
  - constructor.
  - destruct (f x); [apply perm_skip |]; exact IHPermutation.
  - destruct (f x), (f y); try apply perm_swap; try apply perm_skip; apply Permutation_refl.
  - eapply perm_trans; eassumption.
Qed.

Lemma run_enrichment_shape :
  forall P so cfg posts since,
    run_enrichment P so cfg posts since = [] \/
    exists l, run_enrichment P so cfg posts since = sort_by_date_desc (final_dedup l) /\
      forall s, In s l ->
        exists p, In p posts /\
          s = enrich_post P so p (alias_map_of (_load_companies cfg))
                (own_names_of (_load_companies cfg)) (context_required_of (_load_companies cfg)) /\
          gate_accepts P (map fst (alias_map_of (_load_companies cfg))) p = true /\
          (since = "" \/ String.leb since (p_post_date p) = true).
Proof.
  intros P so cfg posts since. unfold run_enrichment.
  destruct (_load_companies cfg) as [[[am ow] aa] cr]. cbn [alias_map_of own_names_of context_required_of].
  destruct posts as [| p0 ps]; [left; reflexivity |]. right.
  eexists; split; [reflexivity |].
  intros s Hs. apply in_map_iff in Hs as [p [<- Hp]].
  destruct (pre_fold_spec (p0 :: ps) [] [] eq_refl (NoDup_nil _) (Forall_nil _))
    as [_ [_ [_ [Hin _]]]].
  exists p. unfold date_filter in Hp.
  destruct (String.eqb since "") eqn:Es.
  - apply filter_In in Hp as [Hp Hg]. apply String.eqb_eq in Es.
    destruct (Hin p Hp) as [[] | H]. repeat split; auto.
  - apply filter_In in Hp as [Hp Hd]. apply filter_In in Hp as [Hp Hg].
    destruct (Hin p Hp) as [[] | H]. repeat split; auto.
Qed.

(** Every signal written by [run_enrichment] is [enrich_post] applied to
    one of the scraped posts, with the alias map, own-brand names and
    context-required names of [_load_companies]; that post passed the
    relevance gate and, when [since_date] is given, has a [post_date] not
    earlier than it (as strings). *)
Theorem run_enrichment_provenance :
  forall P so cfg posts since s,
    In s (run_enrichment P so cfg posts since) ->
    exists p, In p posts /\
      s = enrich_post P so p (alias_map_of (_load_companies cfg))
            (own_names_of (_load_companies cfg)) (context_required_of (_load_companies cfg)) /\
      gate_accepts P (map fst (alias_map_of (_load_companies cfg))) p = true /\
      (since = "" \/ String.leb since (p_post_date p) = true).
Proof.
  intros P so cfg posts since s Hs.
  destruct (run_enrichment_shape P so cfg posts since) as [E | [l [E Hl]]];
    rewrite E in Hs; [destruct Hs |].
  apply (Permutation_in _ (sort_by_date_perm _)) in Hs.
  apply final_dedup_members in Hs. exact (Hl s Hs).
Qed.

(** The list written by [run_enrichment] is ordered newest first by
    [post_date] (string order). *)
Theorem run_enrichment_sorted_by_date :
  forall P so cfg posts since,
    Sorted (fun a b => String.leb (date_of b) (date_of a) = true)
           (run_enrichment P so cfg posts since).
Proof.
  intros P so cfg posts since.
  destruct (run_enrichment_shape P so cfg posts since) as [E | [l [E _]]]; rewrite E;
    [constructor | apply sort_by_date_sorted].
Qed.

(** The list written by [run_enrichment] holds at most one signal per
    non-empty normalised URL, and no two signals whose title keys are
    equal and longer than 8 characters. *)
Theorem run_enrichment_no_duplicates :
  forall P so cfg posts since,
    (forall u, u <> "" -> List.length (url_group u (run_enrichment P so cfg posts since)) <= 1) /\
    NoDup (map title_key (filter long_title (run_enrichment P so cfg posts since))).
Proof.
  intros P so cfg posts since.
  destruct (run_enrichment_shape P so cfg posts since) as [E | [l [E _]]]; rewrite E.
  - split; [intros u _; simpl; lia | constructor].
  - split.
    + intros u Hu. rewrite (url_group_perm u _ _ (sort_by_date_perm _)).
      apply final_dedup_url_le_1, Hu.
    + eapply Permutation_NoDup; [| apply final_dedup_title_nodup].
      apply Permutation_map, perm_filter_gen. symmetry. apply sort_by_date_perm.
Qed.

Lemma run_enrichment_provenance_witness :
  In first_enriched_example
     (run_enrichment quiet_patterns (fun l => l) (Some acme_cfg) scraped_example "2026-01-01") /\
  exists p, In p scraped_example /\
    first_enriched_example =
      enrich_post quiet_patterns (fun l => l) p (alias_map_of (_load_companies (Some acme_cfg)))
        (own_names_of (_load_companies (Some acme_cfg)))
        (context_required_of (_load_companies (Some acme_cfg))) /\
    gate_accepts quiet_patterns (map fst (alias_map_of (_load_companies (Some acme_cfg)))) p = true /\
    ("2026-01-01" = "" \/ String.leb "2026-01-01" (p_post_date p) = true).
Proof.
  assert (H : In first_enriched_example
                (run_enrichment quiet_patterns (fun l => l) (Some acme_cfg) scraped_example
                   "2026-01-01")) by (vm_compute; left; reflexivity).
  split; [exact H | exact (run_enrichment_provenance _ _ _ _ _ _ H)].
Defined.

(* ------------------------------------------------------------------ *)
(** ** Further properties of trends.py *)

Lemma insert_sorted_sorted :
  forall x l, Sorted (fun a b => String.leb a b = true) l ->
    Sorted (fun a b => String.leb a b = true) (insert_sorted x l).
Proof.
  intros x l. induction l as [| y l IH]; intros Hs; simpl; [repeat constructor |].
  destruct (String.leb x y) eqn:E.
  - constructor; [exact Hs | constructor; exact E].
  - apply Sorted_inv in Hs as [Hl Hh]. constructor; [apply IH, Hl |].
    destruct l as [| z l]; simpl; [constructor; apply leb_false_leb, E |].
    destruct (String.leb x z); constructor.
    + apply leb_false_leb, E.
    + inversion Hh; assumption.
Qed.

Lemma sorted_sorted : forall l, Sorted (fun a b => String.leb a b = true) (sorted l).
Proof. induction l as [| x l IH]; simpl; [constructor | apply insert_sorted_sorted, IH]. Qed.

Lemma sorted_perm_self : forall l, Permutation (sorted l) l.
Proof.
  induction l as [| x l IH]; simpl; [constructor |].
  eapply perm_trans; [apply insert_sorted_perm | apply perm_skip, IH].
Qed.

Lemma leb_neq_lt : forall a b, String.leb a b = true -> a <> b -> String.compare a b = Lt.
Proof.
  intros a b H Hne. unfold String.leb in H.
  destruct (String.compare a b) eqn:E; try reflexivity; [| discriminate].
  apply String.compare_eq_iff in E. contradiction.
Qed.

Lemma sorted_nodup_strict :
  forall l, Sorted (fun a b => String.leb a b = true) l -> NoDup l ->
    Sorted (fun a b => String.compare a b = Lt) l.
Proof.
  induction l as [| a l IH]; intros Hs Hnd; [constructor |].
  apply Sorted_inv in Hs as [Hl Hh]. apply NoDup_cons_iff in Hnd as [Ha Hnd].
  constructor; [apply IH; assumption |].
  destruct l as [| b l]; constructor. inversion Hh as [| ? ? Hab]; subst.
  apply leb_neq_lt; [exact Hab |]. intros ->. apply Ha. left; reflexivity.
Qed.

Lemma run_trends_some :
  forall insights td, run_trends insights = Some td ->
    weeks td = sorted (map fst (by_week insights)) /\
    volume_trend td = volume_from (by_week insights) 0 (sorted (map fst (by_week insights))).
Proof.
  intros insights td H. unfold run_trends in H. cbv zeta in H.
  destruct (sorted (map fst (by_week insights))) as [| w ws] eqn:E; [discriminate |].
  injection H as <-. split; reflexivity.
Qed.

Lemma volume_from_shape :
  forall m ws prev,
    map v_week (volume_from m prev ws) = ws /\
    map v_count (volume_from m prev ws) = map (fun w => week_total (posts_of m w)) ws.
Proof.
  intros m ws. induction ws as [| w ws IH]; intros prev; [split; reflexivity |].
  cbn [volume_from]. destruct (_compute_deltas _ _) as [d dir].
  destruct (IH (week_total (posts_of m w))) as [H1 H2]. simpl. rewrite H1, H2. split; reflexivity.
Qed.

Lemma posts_of_keys :
  forall m, NoDup (map fst m) ->
    map (fun w => week_total (posts_of m w)) (map fst m) = map (fun kv => List.length (snd kv)) m.
Proof.
  induction m as [| [k v] m IH]; intros Hnd; [reflexivity |].
  simpl in Hnd |- *. apply NoDup_cons_iff in Hnd as [Hk Hnd].
  unfold posts_of at 1. simpl. rewrite String.eqb_refl. f_equal.
  rewrite <- IH by exact Hnd. apply map_ext_in. intros w Hw.
  unfold posts_of. simpl. destruct (String.eqb k w) eqn:E; [| reflexivity].
  apply String.eqb_eq in E. subst. contradiction.
Qed.

Lemma run_trends_shape :
  forall insights : list Signal,
    match run_trends insights with
    | None => dated_weeks insights = []
    | Some td =>
        Sorted (fun a b => String.compare a b = Lt) (weeks td) /\
        (forall w, In w (weeks td) <-> In w (dated_weeks insights)) /\
        map v_week (volume_trend td) = weeks td /\
        Forall (fun v => 0 < v_count v) (volume_trend td) /\
        list_sum (map v_count (volume_trend td)) = List.length (dated_weeks insights)
    end.
Proof.
  intros insights.
  destruct (by_week_spec insights) as [Hnd [Hne Hkeys]].
  destruct (run_trends insights) as [td |] eqn:E.
  - destruct (run_trends_some _ _ E) as [Hw Hv].
    destruct (volume_from_shape (by_week insights) (sorted (map fst (by_week insights))) 0)
      as [V1 V2].
    pose proof (sorted_perm_self (map fst (by_week insights))) as Hp.
    split; [| split; [| split; [| split]]].
    + rewrite Hw. apply sorted_nodup_strict; [apply sorted_sorted |].
      eapply Permutation_NoDup; [symmetry; exact Hp | exact Hnd].
    + intros w. rewrite Hw, <- Hkeys. split; apply Permutation_in; [exact Hp | symmetry; exact Hp].
    + rewrite Hv, Hw. exact V1.
    + rewrite Hv. apply Forall_forall. intros v Hin.
      assert (Hc : In (v_count v) (map v_count (volume_from (by_week insights) 0
                                                  (sorted (map fst (by_week insights)))))).
      { apply in_map, Hin. }
      rewrite V2 in Hc. apply in_map_iff in Hc as [w [Hwv Hin']].
      apply (Permutation_in _ Hp) in Hin'. apply in_map_iff in Hin' as [[k ps] [Hk Hkp]].
      cbn [fst] in Hk. subst k. rewrite <- Hwv.
      rewrite Forall_forall in Hne. specialize (Hne _ Hkp). cbn [snd] in Hne.
      pose proof (posts_of_keys _ Hnd) as Hpk.
      assert (Hi : In (w, ps) (by_week insights)) by exact Hkp.
      clear -Hi Hnd Hne. induction (by_week insights) as [| [k v] m IH]; [destruct Hi |].
      simpl in Hnd. apply NoDup_cons_iff in Hnd as [Hk Hnd].
      unfold posts_of, week_total. simpl. destruct Hi as [Hi | Hi].
      * injection Hi as -> ->. rewrite String.eqb_refl. destruct ps; [congruence | simpl; lia].
      * destruct (String.eqb k w) eqn:Ekw.
        -- apply String.eqb_eq in Ekw. subst k. exfalso. apply Hk.
           apply in_map_iff. exists (w, ps). split; [reflexivity | exact Hi].
        -- exact (IH Hnd Hi).
    + rewrite Hv, V2.
      rewrite (Permutation_list_sum (Permutation_map (fun w => week_total (posts_of (by_week insights) w)) Hp)).
      rewrite (posts_of_keys _ Hnd). unfold by_week.
      rewrite by_week_fold_sizes. reflexivity.
  - unfold run_trends in E. cbv zeta in E.
    destruct (sorted (map fst (by_week insights))) as [| w ws] eqn:Es; [| discriminate].
    destruct (dated_weeks insights) as [| k ks] eqn:Ed; [reflexivity |].
    exfalso. assert (Hk : In k (map fst (by_week insights))) by (apply Hkeys; left; reflexivity).
    apply (Permutation_in _ (Permutation_sym (sorted_perm_self _))) in Hk. rewrite Es in Hk. destruct Hk.
Qed.

(** X8: [run_trends] returns the empty result exactly when no post has a
    parseable date; otherwise its [weeks] are strictly increasing (string
    order) and are exactly the ISO weeks of the dated posts, and the
    volume trend has one entry per week, in that order, whose counts are
    positive and add up to the number of dated posts. *)
Theorem run_trends_weeks_and_volume :
  forall insights : list Signal,
    (run_trends insights = None <-> dated_weeks insights = []) /\
    (forall td, run_trends insights = Some td ->
        Sorted (fun a b => String.compare a b = Lt) (weeks td) /\
        (forall w, In w (weeks td) <-> In w (dated_weeks insights)) /\
        map v_week (volume_trend td) = weeks td /\
        Forall (fun v => 0 < v_count v) (volume_trend td) /\
        list_sum (map v_count (volume_trend td)) = List.length (dated_weeks insights)).
Proof.
  intros insights. split; [apply run_trends_none_iff |].
  intros td E. pose proof (run_trends_shape insights) as H. rewrite E in H. exact H.
Qed.

Lemma compute_deltas_rising_ge :
  forall c p d, _compute_deltas c p = (d, rising) -> (20 <= d)%Q.
Proof.
  intros c p d H. unfold _compute_deltas in H.
  destruct (p =? 0)%Z; [destruct (c =? 0)%Z; discriminate |].
  destruct (Qle_bool _ 20) eqn:E; cbn [negb] in H.
  - destruct (Qlt_le_dec _ _); discriminate.
  - injection H as <-. apply py_round1_ge20.
    apply Qnot_le_lt. intros Hle. apply Qle_bool_iff in Hle. congruence.
Qed.

Lemma compute_deltas_fading_le :
  forall c p d, _compute_deltas c p = (d, fading) -> (d <= -20)%Q.
Proof.
  intros c p d H. unfold _compute_deltas in H.
  destruct (p =? 0)%Z; [destruct (c =? 0)%Z; discriminate |].
  destruct (Qle_bool _ 20); cbn [negb] in H; [| discriminate].
  destruct (Qlt_le_dec _ _) as [Hl | Hl]; [injection H as <-; apply py_round1_lem20, Hl | discriminate].
Qed.

Lemma series_entry_moves :
  forall m ws recent count,
    (t_direction (series_entry m ws recent count) = rising ->
       (20 <= t_delta_pct (series_entry m ws recent count))%Q) /\
    (t_direction (series_entry m ws recent count) = fading ->
       (t_delta_pct (series_entry m ws recent count) <= -20)%Q).
Proof.
  intros m ws recent count. unfold series_entry.
  destruct (2 <=? List.length recent).
  - destruct (_compute_deltas _ _) as [d dir] eqn:E. cbn [t_direction t_delta_pct].
    split; intros ->; [apply (compute_deltas_rising_ge _ _ _ E) | apply (compute_deltas_fading_le _ _ _ E)].
  - cbn [t_direction]. split; discriminate.
Qed.

Lemma moves_In :
  forall kind dir l x, In x (moves kind dir l) ->
    exists n te, x = (n, kind, t_delta_pct te) /\ In (n, te) l /\ t_direction te = dir.
Proof.
  intros kind dir l x H. unfold moves in H. apply in_map_iff in H as [[n te] [Hx Hin]].
  apply filter_In in Hin as [Hin Hd]. exists n, te. split; [symmetry; exact Hx |].
  split; [exact Hin |]. destruct (t_direction te), dir; try discriminate; reflexivity.
Qed.

Lemma insert_by_mag_perm : forall x l, Permutation (insert_by_mag x l) (x :: l).
Proof.
  intros x l. induction l as [| y l IH]; simpl; [apply Permutation_refl |].
  destruct (Qlt_le_dec _ _); [apply Permutation_refl |].
  eapply perm_trans; [apply perm_skip, IH | apply perm_swap].
Qed.

Lemma insert_by_mag_sorted :
  forall x l, Sorted (fun a b : string * string * Q => (Qabs (snd b) <= Qabs (snd a))%Q) l ->
    Sorted (fun a b : string * string * Q => (Qabs (snd b) <= Qabs (snd a))%Q) (insert_by_mag x l).
Proof.
  intros x l. induction l as [| y l IH]; intros Hs; simpl; [repeat constructor |].
  destruct (Qlt_le_dec (Qabs (snd y)) (Qabs (snd x))) as [Hl | Hl].
  - constructor; [exact Hs | constructor; apply Qlt_le_weak, Hl].
  - apply Sorted_inv in Hs as [Hs Hh]. constructor; [apply IH, Hs |].
    destruct l as [| z l]; simpl; [constructor; exact Hl |].
    destruct (Qlt_le_dec (Qabs (snd z)) (Qabs (snd x))); constructor; [exact Hl |].
    inversion Hh; assumption.
Qed.

Lemma sort_by_mag_spec :
  forall l, Permutation (sort_by_mag l) l /\
    Sorted (fun a b : string * string * Q => (Qabs (snd b) <= Qabs (snd a))%Q) (sort_by_mag l).
Proof.
  intros l. unfold sort_by_mag.
  assert (G : forall l acc,
             Sorted (fun a b : string * string * Q => (Qabs (snd b) <= Qabs (snd a))%Q) acc ->
             Permutation (fold_left (fun acc x => insert_by_mag x acc) l acc) (l ++ acc) /\
             Sorted (fun a b : string * string * Q => (Qabs (snd b) <= Qabs (snd a))%Q)
                    (fold_left (fun acc x => insert_by_mag x acc) l acc)).
  { induction l0 as [| x l0 IH]; intros acc Hs; simpl; [split; [apply Permutation_refl | exact Hs] |].
    destruct (IH (insert_by_mag x acc) (insert_by_mag_sorted x acc Hs)) as [H1 H2].
    split; [| exact H2].
    eapply perm_trans; [exact H1 |].
    eapply perm_trans; [apply Permutation_app_head, insert_by_mag_perm |].
    apply Permutation_sym, Permutation_middle. }
  destruct (G l [] (Sorted_nil _)) as [H1 H2]. rewrite app_nil_r in H1. split; assumption.
Qed.

Lemma run_trends_lists :
  forall insights td, run_trends insights = Some td ->
    rising_list td = sort_by_mag (moves "company" rising (company_trends td) ++
                                  moves "tag" rising (tag_trends td)) /\
    fading_list td = sort_by_mag (moves "company" fading (company_trends td) ++
                                  moves "tag" fading (tag_trends td)) /\
    (forall n te, In (n, te) (company_trends td ++ tag_trends td) ->
       exists m ws recent count, te = series_entry m ws recent count).
Proof.
  intros insights td H. unfold run_trends in H. cbv zeta in H.
  destruct (sorted (map fst (by_week insights))) as [| w ws] eqn:E; [discriminate |].
  injection H as <-. cbn [rising_list fading_list company_trends tag_trends].
  split; [reflexivity | split; [reflexivity |]].
  intros n te Hin. apply in_app_iff in Hin as [Hin | Hin];
    apply in_map_iff in Hin as [c [Hc _]]; injection Hc as _ <-; do 4 eexists; reflexivity.
Qed.

(** In a result of [run_trends], the [rising] list holds exactly the
    company and tag trends whose direction is [rising] (as name, type and
    reported delta), ordered by decreasing absolute reported delta, and
    each of their reported deltas, rounded to one decimal, is at least
    20; the [fading] list likewise holds the [fading] ones, each with a
    reported delta of at most -20.  (A trend is classified on the
    unrounded double, so a rising delta of 20.0495 is reported as 20.0.) *)
Theorem run_trends_rising_fading :
  forall insights td, run_trends insights = Some td ->
    Permutation (rising_list td)
      (moves "company" rising (company_trends td) ++ moves "tag" rising (tag_trends td)) /\
    Permutation (fading_list td)
      (moves "company" fading (company_trends td) ++ moves "tag" fading (tag_trends td)) /\
    Sorted (fun a b : string * string * Q => (Qabs (snd b) <= Qabs (snd a))%Q) (rising_list td) /\
    Sorted (fun a b : string * string * Q => (Qabs (snd b) <= Qabs (snd a))%Q) (fading_list td) /\
    (forall x, In x (rising_list td) -> (20 <= snd x)%Q) /\
    (forall x, In x (fading_list td) -> (snd x <= -20)%Q).
Proof.
  intros insights td H. destruct (run_trends_lists _ _ H) as [Hr [Hf He]].
  destruct (sort_by_mag_spec (moves "company" rising (company_trends td) ++
                              moves "tag" rising (tag_trends td))) as [Pr Sr].
  destruct (sort_by_mag_spec (moves "company" fading (company_trends td) ++
                              moves "tag" fading (tag_trends td))) as [Pf Sf].
  rewrite Hr, Hf. split; [exact Pr | split; [exact Pf | split; [exact Sr | split; [exact Sf |]]]].
  split.
  - intros x Hx. apply (Permutation_in _ Pr) in Hx. apply in_app_iff in Hx as [Hx | Hx];
      apply moves_In in Hx as [n [te [-> [Hin Hd]]]]; cbn [snd];
      destruct (He n te ltac:(apply in_app_iff; auto)) as [m [ws [rc [cnt ->]]]];
      apply (proj1 (series_entry_moves m ws rc cnt)); exact Hd.
  - intros x Hx. apply (Permutation_in _ Pf) in Hx. apply in_app_iff in Hx as [Hx | Hx];
      apply moves_In in Hx as [n [te [-> [Hin Hd]]]]; cbn [snd];
      destruct (He n te ltac:(apply in_app_iff; auto)) as [m [ws [rc [cnt ->]]]];
      apply (proj2 (series_entry_moves m ws rc cnt)); exact Hd.
Qed.

Lemma run_trends_rising_fading_witness :
  run_trends two_week_input = Some two_week_trends /\
  Permutation (rising_list two_week_trends)
    (moves "company" rising (company_trends two_week_trends) ++
     moves "tag" rising (tag_trends two_week_trends)) /\
  Permutation (fading_list two_week_trends)
    (moves "company" fading (company_trends two_week_trends) ++
     moves "tag" fading (tag_trends two_week_trends)) /\
  Sorted (fun a b : string * string * Q => (Qabs (snd b) <= Qabs (snd a))%Q)
         (rising_list two_week_trends) /\
  Sorted (fun a b : string * string * Q => (Qabs (snd b) <= Qabs (snd a))%Q)
         (fading_list two_week_trends) /\
  (forall x, In x (rising_list two_week_trends) -> (20 <= snd x)%Q) /\
  (forall x, In x (fading_list two_week_trends) -> (snd x <= -20)%Q).
Proof.
  assert (H : run_trends two_week_input = Some two_week_trends) by (vm_compute; reflexivity).
  split; [exact H | exact (run_trends_rising_fading _ _ H)].
Defined.

(* ------------------------------------------------------------------ *)
(** ** Further properties of app.py *)

Lemma put_url_forall :
  forall (P : string * Signal -> Prop) u e m, P (u, e) -> Forall P m -> Forall P (put_url u e m).
Proof.
  intros P u e m He. induction m as [| [k v] m IH]; intros Hm; simpl.
  - constructor; [exact He | constructor].
  - apply Forall_cons_iff in Hm as [Hkv Hr]. destruct (String.eqb k u) eqn:E.
    + apply String.eqb_eq in E. subst k. constructor; [exact He | exact Hr].
    + constructor; [exact Hkv | apply IH, Hr].
Qed.

Lemma app_group_app :
  forall u l e, app_group u (l ++ [e]) =
                app_group u l ++ (if String.eqb (app_url e) u then [e] else []).
Proof. intros u l e. unfold app_group. rewrite filter_app. simpl. destruct (String.eqb _ u); reflexivity. Qed.

Lemma app_step_inv :
  forall l st e, app_inv l st -> app_inv (l ++ [e]) (app_dedup_step st e).
Proof.
  intros l [by_url no_url] e [Hg [Hc [Hk Hn]]]. unfold app_dedup_step.
  cbn [fst snd] in *.
  destruct (String.eqb (app_url e) "") eqn:Ee.
  - apply String.eqb_eq in Ee. split; [| split; [exact Hc | split; [exact Hk |]]].
    + intros u Hu. rewrite app_group_app.
      replace (String.eqb (app_url e) u) with false
        by (symmetry; apply String.eqb_neq; congruence).
      rewrite app_nil_r. exact (Hg u Hu).
    + cbn [snd]. rewrite app_group_app, Ee, String.eqb_refl, Hn. reflexivity.
  - apply String.eqb_neq in Ee.
    set (v := app_url e).
    assert (Hput : forall m, Forall (fun kv => app_url (snd kv) = fst kv /\ fst kv <> "") m ->
               NoDup (map fst m) ->
               (forall u, u <> v -> lookup_url u (put_url v e m) = lookup_url u m) /\
               lookup_url v (put_url v e m) = Some e /\
               Forall (fun kv => app_url (snd kv) = fst kv /\ fst kv <> "") (put_url v e m) /\
               NoDup (map fst (put_url v e m))).
    { intros m H1 H2. split; [| split; [| split]].
      - intros u Huv. rewrite lookup_put_url.
        replace (String.eqb v u) with false by (symmetry; apply String.eqb_neq; congruence).
        reflexivity.
      - rewrite lookup_put_url, String.eqb_refl. reflexivity.
      - apply put_url_forall; [split; [reflexivity | exact Ee] | exact H1].
      - apply put_url_keys, H2. }
    destruct (Hput by_url Hc Hk) as [Hp1 [Hp2 [Hp3 Hp4]]].
    assert (Hother : forall u, u <> v -> app_group u (l ++ [e]) = app_group u l).
    { intros u Huv. rewrite app_group_app.
      replace (String.eqb (app_url e) u) with false
        by (symmetry; apply String.eqb_neq; fold v; congruence).
      apply app_nil_r. }
    assert (Hnu : snd (by_url, no_url) = app_group "" (l ++ [e])).
    { cbn [snd]. rewrite Hother by (fold v in Ee; congruence). exact Hn. }
    assert (Hv : app_group v (l ++ [e]) = app_group v l ++ [e]).
    { rewrite app_group_app. fold v. rewrite String.eqb_refl. reflexivity. }
    destruct (Hg v Ee) as [Hv0 Hv1].
    destruct (lookup_url v by_url) as [old |] eqn:Eold.
    + destruct (app_group v l) as [| g0 gr] eqn:Egv;
        [first [specialize (Hv0 Egv) | specialize (Hv0 eq_refl)]; congruence |].
      destruct (Hv1 ltac:(congruence)) as [s [Hs Hfm]].
      assert (Hso : s = old) by congruence. subst s.
      destruct (score old <? score e) eqn:Esc.
      * apply Nat.ltb_lt in Esc. split; [| split; [exact Hp3 | split; [exact Hp4 | exact Hnu]]].
        intros u Hu. cbn [fst snd] in *. destruct (String.eqb u v) eqn:Euv.
        -- apply String.eqb_eq in Euv. subst u. rewrite Hv.
           split; [intros H; apply app_eq_nil in H as [_ H]; discriminate H |].
           intros _. exists e. split; [exact Hp2 |].
           try rewrite Egv in Hfm; try rewrite Egv.
           exact (is_first_max_snoc_new _ _ _ Hfm Esc).
        -- apply String.eqb_neq in Euv. rewrite (Hother u Euv), (Hp1 u Euv). exact (Hg u Hu).
      * apply Nat.ltb_ge in Esc. split; [| split; [exact Hc | split; [exact Hk | exact Hnu]]].
        intros u Hu. cbn [fst snd] in *. destruct (String.eqb u v) eqn:Euv.
        -- apply String.eqb_eq in Euv. subst u. rewrite Hv.
           split; [intros H; apply app_eq_nil in H as [_ H]; discriminate H |].
           intros _. exists old. split; [exact Eold |].
           try rewrite Egv in Hfm; try rewrite Egv.
           exact (is_first_max_snoc_keep _ _ _ Hfm Esc).
        -- apply String.eqb_neq in Euv. rewrite (Hother u Euv). exact (Hg u Hu).
    + assert (Hnil : app_group v l = []).
      { destruct (app_group v l) eqn:E; [reflexivity |].
        destruct (Hv1 ltac:(discriminate)) as [s0 [Hs0 _]]. congruence. }
      split; [| split; [exact Hp3 | split; [exact Hp4 | exact Hnu]]].
      intros u Hu. cbn [fst snd] in *. destruct (String.eqb u v) eqn:Euv.
      * apply String.eqb_eq in Euv. subst u. rewrite Hv, Hnil. simpl.
        split; [discriminate |]. intros _. exists e. split; [exact Hp2 | apply is_first_max_single].
      * apply String.eqb_neq in Euv. rewrite (Hother u Euv), (Hp1 u Euv). exact (Hg u Hu).
Qed.

Lemma app_pass_inv : forall l, app_inv l (fold_left app_dedup_step l ([], [])).
Proof.
  induction l as [| e l IH] using rev_ind.
  - split; [| split; [constructor | split; [constructor | reflexivity]]].
    intros u _. split; [reflexivity | intros H; exfalso; apply H; reflexivity].
  - rewrite fold_left_app. simpl. apply app_step_inv, IH.
Qed.

Lemma lookup_url_notin :
  forall u (m : list (string * Signal)), ~ In u (map fst m) -> lookup_url u m = None.
Proof.
  intros u m. induction m as [| [k v] m IH]; simpl; intros H; [reflexivity |].
  destruct (String.eqb k u) eqn:E; [apply String.eqb_eq in E; tauto | apply IH; tauto].
Qed.

Lemma app_group_by_url :
  forall u m, Forall (fun kv => app_url (snd kv) = fst kv /\ fst kv <> "") m -> NoDup (map fst m) ->
    app_group u (map snd m) = match lookup_url u m with Some s => [s] | None => [] end.
Proof.
  intros u m. induction m as [| [k v] m IH]; intros Hc Hk; [reflexivity |].
  apply Forall_cons_iff in Hc as [[Hv _] Hc]. cbn [fst snd map] in Hk, Hv. apply NoDup_cons_iff in Hk as [Hk Hnd].
  unfold app_group. cbn [map filter lookup_url fst snd]. rewrite Hv.
  fold (app_group u (map snd m)). rewrite (IH Hc Hnd).
  destruct (String.eqb k u) eqn:E; [| reflexivity].
  apply String.eqb_eq in E. subst k. rewrite lookup_url_notin by (rewrite <- E; exact Hk). reflexivity.
Qed.

Lemma app_group_twice :
  forall u u' l, app_group u (app_group u' l) = if String.eqb u u' then app_group u l else [].
Proof.
  intros u u' l. destruct (String.eqb_spec u u') as [<- | Hne]; induction l as [| x l IH];
    try reflexivity; unfold app_group in *; simpl.
  - destruct (String.eqb (app_url x) u) eqn:E; simpl; [rewrite E; f_equal |]; exact IH.
  - destruct (String.eqb (app_url x) u') eqn:E; simpl; [| exact IH].
    destruct (String.eqb (app_url x) u) eqn:E2; [| exact IH].
    apply String.eqb_eq in E, E2. congruence.
Qed.

Lemma dedup_insights_groups :
  forall l,
    app_group "" (_dedup_insights l) = app_group "" l /\
    (forall u, u <> "" ->
       (app_group u l = [] -> app_group u (_dedup_insights l) = []) /\
       (app_group u l <> [] ->
          exists s, app_group u (_dedup_insights l) = [s] /\ is_first_max (app_group u l) s)).
Proof.
  intros l. pose proof (app_pass_inv l) as [Hg [Hc [Hk Hn]]].
  unfold _dedup_insights. destruct (fold_left app_dedup_step l ([], [])) as [by_url no_url].
  cbn [fst snd] in *. subst no_url.
  assert (Hsplit : forall u, app_group u (map snd by_url ++ app_group "" l) =
                             match lookup_url u by_url with Some s => [s] | None => [] end
                             ++ (if String.eqb u "" then app_group u l else [])).
  { intros u. unfold app_group at 1. rewrite filter_app.
    fold (app_group u (map snd by_url)) (app_group u (app_group "" l)).
    rewrite app_group_by_url, app_group_twice by assumption. reflexivity. }
  split.
  - rewrite Hsplit, String.eqb_refl, lookup_url_notin; [reflexivity |].
    intros Hin. apply in_map_iff in Hin as [[k v] [Hkv Hin]]. cbn [fst] in Hkv. subst k.
    rewrite Forall_forall in Hc. exact (proj2 (Hc _ Hin) eq_refl).
  - intros u Hu. rewrite Hsplit.
    replace (String.eqb u "") with false by (symmetry; apply String.eqb_neq; exact Hu).
    rewrite app_nil_r. destruct (Hg u Hu) as [H0 H1]. split.
    + intros He. rewrite (H0 He). reflexivity.
    + intros Hne. destruct (H1 Hne) as [s [Hs Hfm]]. exists s. rewrite Hs. split; [reflexivity | exact Hfm].
Qed.

Lemma is_first_max_In : forall g s, is_first_max g s -> In s g.
Proof. intros g s [i [Hi _]]. exact (nth_error_In g i Hi). Qed.

Lemma dedup_insights_members : forall l s, In s (_dedup_insights l) -> In s l.
Proof.
  intros l s Hs. destruct (dedup_insights_groups l) as [H0 H1].
  assert (Hsg : In s (app_group (app_url s) (_dedup_insights l)))
    by (apply filter_In; split; [exact Hs | apply String.eqb_refl]).
  destruct (String.eqb (app_url s) "") eqn:E.
  - apply String.eqb_eq in E. rewrite E, H0 in Hsg. apply filter_In in Hsg. exact (proj1 Hsg).
  - apply String.eqb_neq in E. destruct (H1 _ E) as [Hn Hne].
    destruct (app_group (app_url s) l) eqn:Eg.
    + rewrite (Hn eq_refl) in Hsg. destruct Hsg.
    + destruct (Hne ltac:(discriminate)) as [s' [Hs' Hfm]]. rewrite Hs' in Hsg.
      destruct Hsg as [<- | []]. apply is_first_max_In in Hfm.
      rewrite <- Eg in Hfm. apply filter_In in Hfm. exact (proj1 Hfm).
Qed.

Lemma dedup_insights_url_le_1 :
  forall l u, u <> "" -> List.length (app_group u (_dedup_insights l)) <= 1.
Proof.
  intros l u Hu. destruct (dedup_insights_groups l) as [_ H1]. destruct (H1 u Hu) as [Hn Hne].
  destruct (app_group u l) eqn:Eg.
  - rewrite (Hn eq_refl). simpl. lia.
  - destruct (Hne ltac:(discriminate)) as [s0 [Hs0 _]]. rewrite Hs0. simpl. lia.
Qed.

Lemma put_url_absent :
  forall u e m, lookup_url u m = None -> put_url u e m = m ++ [(u, e)].
Proof.
  intros u e m. induction m as [| [k v] m IH]; simpl; intros H; [reflexivity |].
  destruct (String.eqb k u) eqn:E; [discriminate |]. rewrite (IH H). reflexivity.
Qed.

Lemma dedup_fold_by_url :
  forall m B N, Forall (fun kv => app_url (snd kv) = fst kv /\ fst kv <> "") m ->
    NoDup (map fst (B ++ m)) ->
    fold_left app_dedup_step (map snd m) (B, N) = (B ++ m, N).
Proof.
  induction m as [| [k v] m IH]; intros B N Hc Hk; simpl; [rewrite app_nil_r; reflexivity |].
  apply Forall_cons_iff in Hc as [[Hv Hne] Hc]. cbn [fst snd] in Hv, Hne.
  unfold app_dedup_step. rewrite Hv.
  replace (String.eqb k "") with false by (symmetry; apply String.eqb_neq; exact Hne).
  rewrite map_app in Hk. cbn [map fst] in Hk.
  rewrite lookup_url_notin.
  - rewrite put_url_absent by (apply lookup_url_notin; apply NoDup_remove_2 in Hk;
                                 rewrite in_app_iff in Hk; tauto).
    rewrite IH; [rewrite <- app_assoc; reflexivity | exact Hc |].
    rewrite <- app_assoc, map_app. exact Hk.
  - apply NoDup_remove_2 in Hk. rewrite in_app_iff in Hk. tauto.
Qed.

Lemma dedup_fold_no_url :
  forall l B N, Forall (fun p => app_url p = "") l ->
    fold_left app_dedup_step l (B, N) = (B, N ++ l).
Proof.
  induction l as [| p l IH]; intros B N Hl; cbn [fold_left]; [rewrite app_nil_r; reflexivity |].
  apply Forall_cons_iff in Hl as [Hp Hl].
  assert (Hst : app_dedup_step (B, N) p = (B, N ++ [p]))
    by (unfold app_dedup_step; rewrite Hp; reflexivity).
  rewrite Hst.
  rewrite IH by exact Hl. rewrite <- app_assoc. reflexivity.
Qed.

Lemma app_group_all_empty : forall l, Forall (fun p => app_url p = "") (app_group "" l).
Proof.
  intros l. apply Forall_forall. intros p Hp. apply filter_In in Hp as [_ Hp].
  apply String.eqb_eq, Hp.
Qed.

(** _dedup_insights (app.py): the posts with an empty stripped URL are
    all kept, in their input order; for every non-empty stripped URL [u],
    the output holds no post with URL [u] when the input holds none, and
    otherwise exactly one, which is the earliest input post with URL [u]
    among those with the largest len(companies_mentioned) +
    len(entity_tags). *)
Theorem dedup_insights_by_url :
  forall (l : list Signal) (u : string),
    u <> "" ->
    app_group "" (_dedup_insights l) = app_group "" l /\
    (app_group u l = [] -> app_group u (_dedup_insights l) = []) /\
    (app_group u l <> [] ->
       exists s, app_group u (_dedup_insights l) = [s] /\ is_first_max (app_group u l) s).
Proof.
  intros l u Hu. destruct (dedup_insights_groups l) as [H0 H1].
  split; [exact H0 | exact (H1 u Hu)].
Qed.

Lemma dedup_insights_by_url_witness :
  "https://example.com/a" <> "" /\
  app_group "" (_dedup_insights dup_input) = app_group "" dup_input /\
  (app_group "https://example.com/a" dup_input = [] ->
     app_group "https://example.com/a" (_dedup_insights dup_input) = []) /\
  (app_group "https://example.com/a" dup_input <> [] ->
     exists s, app_group "https://example.com/a" (_dedup_insights dup_input) = [s] /\
               is_first_max (app_group "https://example.com/a" dup_input) s).
Proof.
  assert (Hu : "https://example.com/a" <> "") by discriminate.
  split; [exact Hu | exact (dedup_insights_by_url dup_input _ Hu)].
Defined.

(** _dedup_insights (app.py): deduplicating an already deduplicated list
    changes nothing. *)
Theorem dedup_insights_idempotent :
  forall l : list Signal, _dedup_insights (_dedup_insights l) = _dedup_insights l.
Proof.
  intros l. pose proof (app_pass_inv l) as [_ [Hc [Hk Hn]]].
  assert (E : _dedup_insights l = map snd (fst (fold_left app_dedup_step l ([], [])))
                                  ++ snd (fold_left app_dedup_step l ([], [])))
    by (unfold _dedup_insights; destruct (fold_left app_dedup_step l ([], [])); reflexivity).
  rewrite E. destruct (fold_left app_dedup_step l ([], [])) as [by_url no_url].
  cbn [fst snd] in *. unfold _dedup_insights.
  rewrite fold_left_app, (dedup_fold_by_url by_url [] [] Hc Hk).
  rewrite dedup_fold_no_url by (rewrite Hn; apply app_group_all_empty).
  reflexivity.
Qed.

(** The dashboard feed [insights] (app.py, module level): every insight
    shown comes from the raw insights, has a non-empty stripped title that
    the title blocklist does not match, and has a post_date that parses
    as a date at most 730 days before today; and no two shown insights
    share a non-empty stripped URL. *)
Theorem app_insights_shown :
  forall (AP : AppPatterns) (now : Now) (raw : list Signal) (i : Signal),
    In i (app_insights AP now raw) ->
    In i raw /\
    strip (p_title (post i)) <> "" /\
    _TITLE_BLOCKLIST AP (strip (p_title (post i))) = false /\
    (exists d, parse_date (p_post_date (post i)) = Some d /\ (now_day now - _MAX_AGE_DAYS <= d)%Z) /\
    (forall u, u <> "" -> List.length (app_group u (app_insights AP now raw)) <= 1).
Proof.
  intros AP now raw i Hi. unfold app_insights in *.
  apply dedup_insights_members in Hi. apply filter_In in Hi as [Hin Hok].
  apply andb_prop in Hok as [Hage Hdisp].
  split; [exact Hin |]. split; [| split; [| split]].
  - unfold _is_displayable_post in Hdisp.
    destruct (String.eqb (strip (p_title (post i))) "") eqn:E; [discriminate |].
    apply String.eqb_neq, E.
  - unfold _is_displayable_post in Hdisp.
    destruct (String.eqb (strip (p_title (post i))) "") eqn:E; [discriminate |].
    destruct (_TITLE_BLOCKLIST AP (strip (p_title (post i)))); [discriminate | reflexivity].
  - unfold _within_age_limit in Hage. destruct (parse_date (p_post_date (post i))) as [d |]; [| discriminate].
    exists d. split; [reflexivity |].
    apply orb_prop in Hage as [H | H]; [apply Z.ltb_lt in H; lia |].
    apply andb_prop in H as [H _]. apply Z.eqb_eq in H. lia.
  - intros u Hu. apply dedup_insights_url_le_1, Hu.
Qed.

Lemma app_insights_shown_witness :
  In dup_first (app_insights quiet_app_patterns now_example dup_input) /\
  In dup_first dup_input /\
  strip (p_title (post dup_first)) <> "" /\
  _TITLE_BLOCKLIST quiet_app_patterns (strip (p_title (post dup_first))) = false /\
  (exists d, parse_date (p_post_date (post dup_first)) = Some d /\
             (now_day now_example - _MAX_AGE_DAYS <= d)%Z) /\
  (forall u, u <> "" ->
     List.length (app_group u (app_insights quiet_app_patterns now_example dup_input)) <= 1).
Proof.
  assert (H : app_insights quiet_app_patterns now_example dup_input = [dup_first; dup_second])
    by (vm_compute; reflexivity).
  assert (Hin : In dup_first (app_insights quiet_app_patterns now_example dup_input))
    by (rewrite H; left; reflexivity).
  split; [exact Hin | exact (app_insights_shown _ _ _ _ Hin)].
Defined.

Lemma str_compare_refl : forall s, String.compare s s = Eq.
Proof.
  induction s as [| c s IH]; simpl; [reflexivity |].
  assert (Ec : Ascii.compare c c = Eq) by (unfold Ascii.compare; apply N.compare_refl).
  rewrite Ec. exact IH.
Qed.

Lemma str_leb_refl : forall s, String.leb s s = true.
Proof. intros s. unfold String.leb. rewrite str_compare_refl. reflexivity. Qed.

Lemma str_ltb_empty : forall s, String.ltb s "" = false.
Proof. intros [| c s]; reflexivity. Qed.

Lemma str_ltb_leb : forall a b, String.ltb a b = true -> String.leb a b = true.
Proof. intros a b. unfold String.ltb, String.leb. destruct (String.compare a b); congruence. Qed.

Lemma str_ltb_false_leb : forall a b, String.ltb a b = false -> String.leb b a = true.
Proof.
  intros a b. unfold String.ltb, String.leb. rewrite (String.compare_antisym b a).
  destruct (String.compare a b); simpl; congruence.
Qed.

Lemma oldest_update_idem : forall d o, oldest_update d (oldest_update d o) = oldest_update d o.
Proof.
  intros d [old |]; simpl.
  - destruct (negb (String.eqb d "") && String.ltb d old) eqn:E; [| rewrite E]; 
      destruct (negb (String.eqb d "") && String.ltb d d); reflexivity.
  - destruct (negb (String.eqb d "") && String.ltb d d); reflexivity.
Qed.

Lemma oldest_step_lookup :
  forall m i c,
    lookup_str c (oldest_step m i) =
    if mem c (companies_mentioned i) then oldest_update (p_post_date (post i)) (lookup_str c m)
    else lookup_str c m.
Proof.
  intros m i c. unfold oldest_step. generalize (p_post_date (post i)) as d.
  intros d. generalize (companies_mentioned i) as cs. intros cs. revert m.
  induction cs as [| x cs IH]; intros m; [reflexivity |].
  cbn [fold_left]. rewrite IH. unfold mem. cbn [existsb]. fold (mem c cs).
  set (m' := match lookup_str x m with
             | Some old => if negb (String.eqb d "") && String.ltb d old then put_str x d m else m
             | None => put_str x d m
             end).
  assert (Hm' : lookup_str c m' = if String.eqb x c then oldest_update d (lookup_str c m) else lookup_str c m).
  { unfold m'. destruct (String.eqb x c) eqn:Exc.
    - apply String.eqb_eq in Exc. subst x. destruct (lookup_str c m) as [old |] eqn:Eo; simpl.
      + destruct (negb (String.eqb d "") && String.ltb d old);
          [rewrite lookup_put_str, String.eqb_refl; reflexivity | exact Eo].
      + rewrite lookup_put_str, String.eqb_refl. reflexivity.
    - destruct (lookup_str x m) as [old |].
      + destruct (negb (String.eqb d "") && String.ltb d old); [| reflexivity].
        rewrite lookup_put_str, Exc. reflexivity.
      + rewrite lookup_put_str, Exc. reflexivity. }
  rewrite Hm', (String.eqb_sym c x).
  destruct (String.eqb x c), (mem c cs); simpl; try reflexivity. apply oldest_update_idem.
Qed.

Lemma mentioning_app :
  forall c l x, mentioning c (l ++ [x]) =
                mentioning c l ++ (if mem c (companies_mentioned x) then [x] else []).
Proof. intros c l x. unfold mentioning. rewrite filter_app. simpl. destruct (mem c _); reflexivity. Qed.

Lemma company_oldest_gen :
  forall c l,
    (mentioning c l = [] -> lookup_str c (company_oldest l) = None) /\
    (forall i0 rest, mentioning c l = i0 :: rest ->
       exists o, lookup_str c (company_oldest l) = Some o /\
                 In o (map (fun i => p_post_date (post i)) (mentioning c l)) /\
                 (p_post_date (post i0) = "" -> o = "") /\
                 (p_post_date (post i0) <> "" ->
                    o <> "" /\
                    forall i, In i (mentioning c l) -> p_post_date (post i) <> "" ->
                              String.leb o (p_post_date (post i)) = true)).
Proof.
  intros c l. induction l as [| x l IH] using rev_ind.
  - split; [reflexivity | intros i0 rest H; discriminate H].
  - unfold company_oldest. rewrite fold_left_app. cbn [fold_left]. fold (company_oldest l).
    rewrite oldest_step_lookup, mentioning_app. destruct IH as [IH0 IH1].
    destruct (mem c (companies_mentioned x)) eqn:Em; [| rewrite app_nil_r; split; assumption].
    set (dx := p_post_date (post x)).
    destruct (mentioning c l) as [| j0 r] eqn:Eml.
    + rewrite (IH0 eq_refl). simpl. split; [discriminate |].
      intros i0 rest Hx. injection Hx as <- _. exists dx. split; [reflexivity |].
      split; [left; reflexivity |]. split; [auto |].
      intros Hne. split; [exact Hne |]. intros i [<- | []] _. apply str_leb_refl.
    + destruct (IH1 j0 r eq_refl) as [o [Ho [Hin [Hemp Hmin]]]]. rewrite Ho. cbn [oldest_update].
      split; [discriminate |]. intros i0 rest Hi0. injection Hi0 as <- _.
      destruct (negb (String.eqb dx "") && String.ltb dx o) eqn:Ec.
      * apply andb_prop in Ec as [Ene Elt]. apply negb_true_iff, String.eqb_neq in Ene.
        exists dx. split; [reflexivity |]. split.
        { rewrite map_app. apply in_app_iff. right. left. reflexivity. }
        split.
        { intros He. rewrite (Hemp He) in Elt. rewrite str_ltb_empty in Elt. discriminate. }
        intros Hne0. split; [exact Ene |]. intros i Hi Hdi.
        apply in_app_iff in Hi as [Hi | [<- | []]]; [| apply str_leb_refl].
        destruct (Hmin Hne0) as [_ Hm]. apply (str_leb_trans _ o); [apply str_ltb_leb, Elt |].
        exact (Hm i Hi Hdi).
      * exists o. split; [reflexivity |]. split.
        { rewrite map_app. apply in_app_iff. left. exact Hin. }
        split; [exact Hemp |]. intros Hne0. destruct (Hmin Hne0) as [Hone Hm].
        split; [exact Hone |]. intros i Hi Hdi.
        apply in_app_iff in Hi as [Hi | [<- | []]]; [exact (Hm i Hi Hdi) |].
        fold dx in Hdi. apply String.eqb_neq in Hdi. rewrite Hdi in Ec. cbn in Ec.
        apply str_ltb_false_leb, Ec.
Qed.

Lemma put_str_keys :
  forall k v m, NoDup (map fst m) -> NoDup (map fst (put_str k v m)).
Proof.
  intros k v m. induction m as [| [k0 v0] m IH]; intros Hm; simpl.
  - constructor; [intros [] | constructor].
  - simpl in Hm. apply NoDup_cons_iff in Hm as [Hk Hr].
    destruct (String.eqb k0 k) eqn:E; simpl; [constructor; assumption |].
    constructor; [| apply IH, Hr].
    intros Hin. apply Hk. clear IH Hr Hk. induction m as [| [k2 v2] m IHm]; simpl in *.
    + destruct Hin as [H | []]. subst. rewrite String.eqb_refl in E. discriminate.
    + destruct (String.eqb k2 k); simpl in Hin; [exact Hin |]. destruct Hin as [H | H]; [left; exact H |].
      right. apply IHm, H.
Qed.

Lemma company_oldest_keys : forall l, NoDup (map fst (company_oldest l)).
Proof.
  intros l. unfold company_oldest.
  assert (G : forall l m, NoDup (map fst m) -> NoDup (map fst (fold_left oldest_step l m))).
  { induction l0 as [| i l0 IH]; intros m Hm; [exact Hm |]. cbn [fold_left]. apply IH.
    unfold oldest_step. generalize (companies_mentioned i). intros cs. revert m Hm.
    induction cs as [| x cs IHc]; intros m Hm; [exact Hm |]. cbn [fold_left]. apply IHc.
    destruct (lookup_str x m); [destruct (_ && _) |]; try apply put_str_keys; exact Hm. }
  apply G. constructor.
Qed.

Lemma lookup_str_In :
  forall k v m, NoDup (map fst m) -> (In (k, v) m <-> lookup_str k m = Some v).
Proof.
  intros k v m. induction m as [| [k0 v0] m IH]; intros Hm; simpl; [split; [intros [] | discriminate] |].
  simpl in Hm. apply NoDup_cons_iff in Hm as [Hk Hr]. destruct (String.eqb k0 k) eqn:E.
  - apply String.eqb_eq in E. subst k0. split.
    + intros [H | H]; [congruence |]. exfalso. apply Hk. apply in_map_iff. exists (k, v). auto.
    + intros H. injection H as <-. left. reflexivity.
  - rewrite <- (IH Hr). split; [intros [H | H]; [| exact H] | intros H; right; exact H].
    injection H as <- _. rewrite String.eqb_refl in E. discriminate.
Qed.

Lemma get_new_companies_iff :
  forall now l c,
    In c (_get_new_companies now l) <->
    exists o d, lookup_str c (company_oldest l) = Some o /\ parse_date o = Some d /\
                (now_day now - d <= 7)%Z.
Proof.
  intros now l c. unfold _get_new_companies. pose proof (company_oldest_keys l) as Hk.
  rewrite in_map_iff. split.
  - intros [[k o] [Hkc Hin]]. cbn [fst] in Hkc. subst k. apply filter_In in Hin as [Hin Hf].
    cbn [snd] in Hf. apply (lookup_str_In _ _ _ Hk) in Hin.
    destruct (parse_date o) as [d |] eqn:Ed; [| discriminate].
    exists o, d. split; [exact Hin |]. split; [exact Ed | apply Z.leb_le, Hf].
  - intros [o [d [Ho [Hd Hle]]]]. exists (c, o). split; [reflexivity |].
    apply filter_In. split; [apply (lookup_str_In _ _ _ Hk), Ho |].
    cbn [snd]. rewrite Hd. apply Z.leb_le, Hle.
Qed.

(** _get_new_companies (app.py), the [company_oldest] dictionary: a
    company that no insight mentions gets no entry; otherwise its entry
    is the post_date of one of the insights mentioning it; it is "" when
    the first insight mentioning it has an empty post_date; and when that
    first date is non-empty, the entry is non-empty and no later than any
    non-empty post_date of an insight mentioning the company. *)
Theorem company_oldest_spec :
  forall (c : string) (l : list Signal),
    (mentioning c l = [] -> lookup_str c (company_oldest l) = None) /\
    (forall i0 rest, mentioning c l = i0 :: rest ->
       exists o, lookup_str c (company_oldest l) = Some o /\
                 In o (map (fun i => p_post_date (post i)) (mentioning c l)) /\
                 (p_post_date (post i0) = "" -> o = "") /\
                 (p_post_date (post i0) <> "" ->
                    o <> "" /\
                    forall i, In i (mentioning c l) -> p_post_date (post i) <> "" ->
                              String.leb o (p_post_date (post i)) = true)).
Proof. exact company_oldest_gen. Qed.

(** _get_new_companies (app.py): a company is reported new exactly when
    its recorded oldest date parses as a date and today is at most 7 days
    after it (a future date counts); in particular a company whose first
    mentioning insight has an empty post_date is never reported new,
    whatever the dates of the later insights. *)
Theorem get_new_companies_spec :
  forall (now : Now) (l : list Signal) (c : string),
    (In c (_get_new_companies now l) <->
     exists o d, lookup_str c (company_oldest l) = Some o /\ parse_date o = Some d /\
                 (now_day now - d <= 7)%Z) /\
    (forall i0 rest, mentioning c l = i0 :: rest -> p_post_date (post i0) = "" ->
       ~ In c (_get_new_companies now l)).
Proof.
  intros now l c. split; [apply get_new_companies_iff |].
  intros i0 rest Hm He Hin. apply get_new_companies_iff in Hin as [o [d [Ho [Hd _]]]].
  destruct (proj2 (company_oldest_gen c l) i0 rest Hm) as [o' [Ho' [_ [Hemp _]]]].
  rewrite Ho in Ho'. injection Ho' as <-. rewrite (Hemp He) in Hd. discriminate Hd.
Qed.

Lemma existsb_contains :
  forall terms text, existsb (fun t => contains t text) terms = true <->
                     exists t, In t terms /\ contains t text = true.
Proof. intros terms text. apply existsb_exists. Qed.

(** _is_display_relevant (app.py): an insight is displayed exactly when
    the off-topic blocklist does not match its lower-cased text and title,
    the title blocklist does not match its stripped title, and either a
    strong GEO display term occurs in the lower-cased text and title, or
    it mentions at least one company and a weak GEO term occurs there or
    its source is exactly "G2" or "Product Hunt". *)
Theorem display_relevant_iff :
  forall (AP : AppPatterns) (i : Signal),
    _is_display_relevant AP i = true <->
    _OFFTOPIC_BLOCKLIST AP (lower (p_text (post i) ++ " " ++ p_title (post i))) = false /\
    _TITLE_BLOCKLIST AP (strip (p_title (post i))) = false /\
    ((exists t, In t _GEO_DISPLAY_TERMS /\
                contains t (lower (p_text (post i) ++ " " ++ p_title (post i))) = true) \/
     (companies_mentioned i <> [] /\
      ((exists t, In t _GEO_WEAK_TERMS /\
                  contains t (lower (p_text (post i) ++ " " ++ p_title (post i))) = true) \/
       In (p_source (post i)) ["G2"; "Product Hunt"]))).
Proof.
  intros AP i. unfold _is_display_relevant.
  set (text := lower (p_text (post i) ++ " " ++ p_title (post i))).
  rewrite <- !existsb_contains, <- mem_In.
  destruct (_OFFTOPIC_BLOCKLIST AP text), (_TITLE_BLOCKLIST AP (strip (p_title (post i))));
    try (split; [discriminate | intros [H1 [H2 _]]; discriminate]).
  destruct (existsb (fun term => contains term text) _GEO_DISPLAY_TERMS);
    [split; [intros _; auto | reflexivity] |].
  destruct (companies_mentioned i) as [| c cs];
    destruct (existsb (fun term => contains term text) _GEO_WEAK_TERMS),
             (mem (p_source (post i)) ["G2"; "Product Hunt"]); simpl;
    (split; [intros H; try discriminate H | intros H]);
    try reflexivity;
    try (repeat split; auto; right; split; [discriminate | auto]; fail);
    destruct H as [_ [_ [H | [Hc H]]]]; try discriminate H;
    try (exfalso; apply Hc; reflexivity); destruct H as [H | H]; discriminate H.
Qed.

Lemma insert_by_score_perm : forall x l, Permutation (insert_by_score x l) (x :: l).
Proof.
  intros x l. induction l as [| y l IH]; simpl; [apply Permutation_refl |].
  destruct (fst y <=? fst x); [apply Permutation_refl |].
  eapply perm_trans; [apply perm_skip, IH | apply perm_swap].
Qed.

Lemma sort_by_score_perm : forall l, Permutation (sort_by_score l) l.
Proof.
  induction l as [| x l IH]; simpl; [apply Permutation_refl |].
  eapply perm_trans; [apply insert_by_score_perm | apply perm_skip, IH].
Qed.

Lemma insert_by_score_sorted :
  forall x l, Sorted (fun a b : nat * Signal => fst b <= fst a) l ->
    Sorted (fun a b : nat * Signal => fst b <= fst a) (insert_by_score x l).
Proof.
  intros x l. induction l as [| y l IH]; intros Hs; simpl; [repeat constructor |].
  destruct (fst y <=? fst x) eqn:E.
  - apply Nat.leb_le in E. constructor; [exact Hs | constructor; exact E].
  - apply Nat.leb_gt in E. apply Sorted_inv in Hs as [Hs Hh]. constructor; [apply IH, Hs |].
    destruct l as [| z l]; simpl; [constructor; lia |].
    destruct (fst z <=? fst x); constructor; [lia |]. inversion Hh; assumption.
Qed.

Lemma sort_by_score_sorted :
  forall l, Sorted (fun a b : nat * Signal => fst b <= fst a) (sort_by_score l).
Proof. induction l as [| x l IH]; simpl; [constructor | apply insert_by_score_sorted, IH]. Qed.

Lemma sorted_firstn {A} (R : A -> A -> Prop) :
  forall n l, Sorted R l -> Sorted R (firstn n l).
Proof.
  induction n as [| n IH]; intros l Hs; [constructor |].
  destruct l as [| x l]; [constructor |]. simpl. apply Sorted_inv in Hs as [Hs Hh].
  constructor; [apply IH, Hs |]. destruct n, l; simpl; try constructor. inversion Hh; assumption.
Qed.

Lemma strongly_sorted_app {A} (R : A -> A -> Prop) :
  forall l1 l2, StronglySorted R (l1 ++ l2) -> forall a b, In a l1 -> In b l2 -> R a b.
Proof.
  induction l1 as [| x l1 IH]; intros l2 Hs a b Ha Hb; [destruct Ha |].
  simpl in Hs. apply StronglySorted_inv in Hs as [Hs Hf]. destruct Ha as [<- | Ha].
  - rewrite Forall_forall in Hf. apply Hf, in_app_iff. right. exact Hb.
  - exact (IH l2 Hs a b Ha Hb).
Qed.

Lemma in_firstn_gen {A} : forall n (l : list A) x, In x (firstn n l) -> In x l.
Proof. intros n l x H. rewrite <- (firstn_skipn n l). apply in_app_iff. left. exact H. Qed.

Lemma scored_shape :
  forall (f : Signal -> nat) l,
    map snd (filter (fun si => 0 <? fst si) (map (fun i => (f i, i)) l)) = filter (fun i => 0 <? f i) l /\
    Forall (fun si => fst si = f (snd si)) (filter (fun si => 0 <? fst si) (map (fun i => (f i, i)) l)).
Proof.
  intros f l. induction l as [| x l [IH1 IH2]]; simpl; [split; [reflexivity | constructor] |].
  destruct (0 <? f x); simpl; [split; [f_equal; exact IH1 | constructor; [reflexivity | exact IH2]] |].
  split; assumption.
Qed.

Lemma sorted_map_snd :
  forall (f : Signal -> nat) l,
    Forall (fun si => fst si = f (snd si)) l ->
    Sorted (fun a b : nat * Signal => fst b <= fst a) l ->
    Sorted (fun a b => f b <= f a) (map snd l).
Proof.
  intros f l Hf Hs. induction Hs as [| x l Hs IH Hh]; simpl; [constructor |].
  apply Forall_cons_iff in Hf as [Hx Hf]. constructor; [apply IH, Hf |].
  destruct Hh as [| y l Hxy]; simpl; constructor.
  apply Forall_cons_iff in Hf as [Hy _]. lia.
Qed.

(** _get_relevant_posts (app.py): with [score] the query score (one point
    per word of the lower-cased query longer than 3 characters found in
    the lower-cased text and title, three per mentioned company whose
    lower-cased name occurs in the query), the result has
    min(limit, number of positively scored posts) posts, all drawn from
    the insights with a positive score, in non-increasing score order;
    and a positively scored post left out means the result is full and
    every returned post scores at least as high. *)
Theorem get_relevant_posts_spec :
  forall (insights_list : list Signal) (query : string) (limit : nat),
    List.length (_get_relevant_posts insights_list query limit) =
      Nat.min limit (List.length (filter (fun i => 0 <? query_score (lower query) i) insights_list)) /\
    (forall i, In i (_get_relevant_posts insights_list query limit) ->
               In i insights_list /\ 0 < query_score (lower query) i) /\
    Sorted (fun a b => query_score (lower query) b <= query_score (lower query) a)
           (_get_relevant_posts insights_list query limit) /\
    (forall i, In i insights_list -> 0 < query_score (lower query) i ->
       ~ In i (_get_relevant_posts insights_list query limit) ->
       List.length (_get_relevant_posts insights_list query limit) = limit /\
       Forall (fun j => query_score (lower query) i <= query_score (lower query) j)
              (_get_relevant_posts insights_list query limit)).
Proof.
  intros insights_list query limit. unfold _get_relevant_posts.
  set (f := query_score (lower query)).
  set (scored := filter (fun si => 0 <? fst si) (map (fun i => (f i, i)) insights_list)).
  destruct (scored_shape f insights_list) as [Hsnd Hfst]. fold scored in Hsnd, Hfst.
  set (S := sort_by_score scored).
  assert (HP : Permutation S scored) by apply sort_by_score_perm.
  assert (HS : Sorted (fun a b : nat * Signal => fst b <= fst a) S) by apply sort_by_score_sorted.
  assert (HfS : Forall (fun si => fst si = f (snd si)) S)
    by (rewrite Forall_forall in Hfst |- *; intros x Hx; apply Hfst, (Permutation_in _ HP), Hx).
  assert (Hmem : forall si, In si S -> In (snd si) insights_list /\ 0 < f (snd si)).
  { intros si Hsi. apply (Permutation_in _ HP) in Hsi.
    assert (Hm : In (snd si) (map snd scored)) by (apply in_map, Hsi).
    rewrite Hsnd in Hm. apply filter_In in Hm as [Hm Hp]. split; [exact Hm | apply Nat.ltb_lt, Hp]. }
  split; [| split; [| split]].
  - rewrite length_map, length_firstn, (Permutation_length HP), <- Hsnd, length_map. reflexivity.
  - intros i Hi. apply in_map_iff in Hi as [si [<- Hsi]]. apply Hmem, (in_firstn_gen _ _ _ Hsi).
  - apply sorted_map_snd; [| apply sorted_firstn, HS].
    rewrite Forall_forall in HfS |- *. intros x Hx. apply HfS, (in_firstn_gen _ _ _ Hx).
  - intros i Hi Hp Hn.
    assert (Hsc : In (f i, i) S).
    { apply (Permutation_in _ (Permutation_sym HP)). apply filter_In.
      split; [apply (in_map (fun i => (f i, i))), Hi | apply Nat.ltb_lt, Hp]. }
    assert (HSS : StronglySorted (fun a b : nat * Signal => fst b <= fst a) S)
      by (apply Sorted_StronglySorted; [intros a b c H1 H2; lia | exact HS]).
    rewrite <- (firstn_skipn limit S) in Hsc, HSS.
    apply in_app_iff in Hsc as [Hsc | Hsc].
    + exfalso. apply Hn. apply (in_map snd) in Hsc. exact Hsc.
    + split.
      * rewrite length_map, length_firstn.
        assert (Hlen : 0 < List.length (skipn limit S)) by (destruct (skipn limit S); [destruct Hsc | simpl; lia]).
        rewrite length_skipn in Hlen. lia.
      * apply Forall_forall. intros j Hj. apply in_map_iff in Hj as [sj [<- Hsj]].
        pose proof (strongly_sorted_app _ _ _ HSS sj (f i, i) Hsj Hsc) as Hle. cbn [fst] in Hle.
        rewrite Forall_forall in HfS. rewrite <- (HfS sj (in_firstn_gen _ _ _ Hsj)). exact Hle.
Qed.

Lemma alias_step_cases :
  forall tl own ctx g cs b alias canon,
    (alias_step tl own ctx g (cs, b) (alias, canon) = (set_add canon cs, b || mem alias own) /\
     alias_contributes tl ctx g alias canon) \/
    (alias_step tl own ctx g (cs, b) (alias, canon) = (cs, b) /\
     ~ alias_contributes tl ctx g alias canon).
Proof.
  intros tl own ctx g cs b alias canon. unfold alias_step, alias_contributes.
  destruct (String.length alias <? 3) eqn:Elen.
  { right. split; [reflexivity |]. apply Nat.ltb_lt in Elen. intros [H _]. lia. }
  apply Nat.ltb_ge in Elen.
  assert (Hcond : (match ctx with [] => false | _ => true end && mem canon ctx && negb g) = true <->
                  In canon ctx /\ g = false).
  { split.
    - intros Es. apply andb_prop in Es as [Es Hg]. apply andb_prop in Es as [_ Hm].
      apply mem_In in Hm. apply negb_true_iff in Hg. auto.
    - intros [Hi Hg]. subst g. destruct ctx as [| x ctx']; [destruct Hi |].
      apply mem_In in Hi. rewrite Hi. reflexivity. }
  assert (Hm : forall matched : bool, matched = true ->
            (if matched then
               if match ctx with [] => false | _ => true end && mem canon ctx && negb g
               then (cs, b) else (set_add canon cs, b || mem alias own)
             else (cs, b)) = (set_add canon cs, b || mem alias own) /\ (In canon ctx -> g = true) \/
            (if matched then
               if match ctx with [] => false | _ => true end && mem canon ctx && negb g
               then (cs, b) else (set_add canon cs, b || mem alias own)
             else (cs, b)) = (cs, b) /\ In canon ctx /\ g = false).
  { intros matched ->.
    destruct (match ctx with [] => false | _ => true end && mem canon ctx && negb g) eqn:Es.
    - right. split; [reflexivity | apply Hcond; reflexivity].
    - left. split; [reflexivity |]. intros Hi. destruct g; [reflexivity |].
      pose proof (proj2 Hcond (conj Hi eq_refl)) as Hf. discriminate Hf. }
  destruct (String.length alias <=? 4) eqn:E4.
  - apply Nat.leb_le in E4. destruct (search_word alias tl) eqn:Em.
    + destruct (Hm true eq_refl) as [[-> Hg] | [-> [Hi Hg]]].
      * left. split; [reflexivity |]. repeat split; auto. intros H. lia.
      * right. split; [reflexivity |]. intros [_ [_ [_ H]]]. specialize (H Hi). congruence.
    + right. split; [reflexivity |]. intros [_ [H _]]. specialize (H E4). congruence.
  - apply Nat.leb_gt in E4. destruct (contains alias tl) eqn:Em.
    + destruct (Hm true eq_refl) as [[-> Hg] | [-> [Hi Hg]]].
      * left. split; [reflexivity |]. repeat split; auto. intros H. lia.
      * right. split; [reflexivity |]. intros [_ [_ [_ H]]]. specialize (H Hi). congruence.
    + right. split; [reflexivity |]. intros [_ [_ [H _]]]. specialize (H E4). congruence.
Qed.

Lemma set_add_nodup : forall x s, NoDup s -> NoDup (set_add x s).
Proof. intros x s H. exact (proj1 (set_add_fold_spec [x] s H)). Qed.

Lemma resolve_aliases_own_spec :
  forall tl own ctx g am cs b, NoDup cs ->
    NoDup (fst (fold_left (alias_step tl own ctx g) am (cs, b))) /\
    (snd (fold_left (alias_step tl own ctx g) am (cs, b)) = true <->
     b = true \/ exists alias c, In (alias, c) am /\ alias_contributes tl ctx g alias c /\
                                 mem alias own = true).
Proof.
  intros tl own ctx g am. induction am as [| [alias canon] am IH]; intros cs b Hnd.
  - simpl. split; [exact Hnd |]. split; [tauto |]. intros [H | [a [c [[] _]]]]. exact H.
  - cbn [fold_left].
    destruct (alias_step_cases tl own ctx g cs b alias canon) as [[-> Hc] | [-> Hn]].
    + destruct (IH _ (b || mem alias own) (set_add_nodup canon cs Hnd)) as [H1 H2].
      split; [exact H1 |]. rewrite H2. split.
      * intros [H | [a [c [Ha Hr]]]].
        -- apply orb_prop in H as [H | H]; [left; exact H | right; exists alias, canon; split; [left; reflexivity | split; [exact Hc | exact H]]].
        -- right. exists a, c. split; [right; exact Ha | exact Hr].
      * intros [H | [a [c [[Ha | Ha] Hr]]]].
        -- left. rewrite H. reflexivity.
        -- injection Ha as <- <-. left. rewrite (proj2 Hr). apply orb_true_r.
        -- right. exists a, c. split; [exact Ha | exact Hr].
    + destruct (IH cs b Hnd) as [H1 H2]. split; [exact H1 |]. rewrite H2. split.
      * intros [H | [a [c [Ha Hr]]]]; [left; exact H | right; exists a, c; split; [right |]; assumption].
      * intros [H | [a [c [[Ha | Ha] Hr]]]]; [left; exact H | | right; exists a, c; auto].
        injection Ha as <- <-. exfalso. exact (Hn (proj1 Hr)).
Qed.

Lemma enrich_tags_shape :
  forall (cs : list string) (b1 b2 b3 b4 b5 b6 : bool),
    (In "company_mention"
        ((if match cs with [] => false | _ => true end then ["company_mention"] else [])
         ++ (if b1 then ["complaint"] else []) ++ (if b2 then ["praise"] else [])
         ++ (if b3 then ["question"] else []) ++ (if b4 then ["funding_news"] else [])
         ++ (if b5 then ["product_launch"] else []) ++ (if b6 then ["comparison"] else []))
     <-> cs <> []) /\
    NoDup ((if match cs with [] => false | _ => true end then ["company_mention"] else [])
           ++ (if b1 then ["complaint"] else []) ++ (if b2 then ["praise"] else [])
           ++ (if b3 then ["question"] else []) ++ (if b4 then ["funding_news"] else [])
           ++ (if b5 then ["product_launch"] else []) ++ (if b6 then ["comparison"] else [])) /\
    (b6 = true ->
     In "comparison"
        ((if match cs with [] => false | _ => true end then ["company_mention"] else [])
         ++ (if b1 then ["complaint"] else []) ++ (if b2 then ["praise"] else [])
         ++ (if b3 then ["question"] else []) ++ (if b4 then ["funding_news"] else [])
         ++ (if b5 then ["product_launch"] else []) ++ (if b6 then ["comparison"] else []))).
Proof.
  intros cs b1 b2 b3 b4 b5 b6.
  destruct cs as [| c cs]; destruct b1, b2, b3, b4, b5, b6; cbn [app];
    (split; [split; [intros H; simpl in H; intuition (try discriminate) | intros H; try (exfalso; apply H; reflexivity); left; reflexivity] |]);
    (split; [repeat constructor; simpl; intuition discriminate |]);
    intros H; try discriminate H; simpl; tauto.
Qed.

Lemma source_quality_range : forall source, 2 <= _source_quality source <= 5.
Proof.
  intros source. unfold _source_quality, SOURCE_QUALITY, source_quality_in.
  repeat match goal with |- context [if ?c then _ else _] => destruct c end; lia.
Qed.

(** enrich_post (enrich.py), shape of every enriched post (for any
    iteration order of the Python set): companies_mentioned is strictly
    increasing, so it has no duplicates; entity_tags has no duplicates and
    contains "company_mention" exactly when companies_mentioned is
    non-empty; a post flagged as competitive intel carries the
    "comparison" tag and at least two companies; the own-brand flag is
    set exactly when some alias that counts for the post is in
    own_brands; and source_quality lies between 2 and 5. *)
Theorem enrich_post_shape :
  forall (P : Patterns) (order : list string -> list string) (p : RawPost)
         (alias_map : list (string * string)) (own_brands ctx : list string),
    (forall l, Permutation (order l) l) ->
    Sorted (fun a b => String.compare a b = Lt)
           (companies_mentioned (enrich_post P order p alias_map own_brands ctx)) /\
    (In "company_mention" (entity_tags (enrich_post P order p alias_map own_brands ctx)) <->
     companies_mentioned (enrich_post P order p alias_map own_brands ctx) <> []) /\
    NoDup (entity_tags (enrich_post P order p alias_map own_brands ctx)) /\
    (is_competitive_intel (enrich_post P order p alias_map own_brands ctx) = true ->
     In "comparison" (entity_tags (enrich_post P order p alias_map own_brands ctx)) /\
     2 <= List.length (companies_mentioned (enrich_post P order p alias_map own_brands ctx))) /\
    (is_own_brand_mention (enrich_post P order p alias_map own_brands ctx) = true <->
     exists alias c, In (alias, c) alias_map /\
       alias_contributes (lower (strip (p_text p ++ " " ++ p_title p))) ctx
                         (_has_geo_terms (strip (p_text p ++ " " ++ p_title p))) alias c /\
       mem alias own_brands = true) /\
    2 <= source_quality (enrich_post P order p alias_map own_brands ctx) <= 5.
Proof.
  intros P order p am own ctx Hord. unfold enrich_post.
  set (text := strip (p_text p ++ " " ++ p_title p)).
  unfold resolve_aliases.
  destruct (resolve_aliases_own_spec (lower text) own ctx (_has_geo_terms text) am [] false
              (NoDup_nil _)) as [Hnd Hown].
  destruct (fold_left _ am ([], false)) as [companies is_own]. cbn [fst snd] in Hnd, Hown.
  destruct (_detect_sentiment P text) as [sent reason].
  cbn [companies_mentioned entity_tags is_competitive_intel is_own_brand_mention source_quality].
  assert (HP : Permutation (sorted (order companies)) companies)
    by (eapply perm_trans; [apply sorted_perm_self | apply Hord]).
  assert (Hlen : List.length (sorted (order companies)) = List.length companies)
    by (apply Permutation_length, HP).
  destruct (enrich_tags_shape companies (RE_COMPLAINT P text) (RE_PRAISE P text) (RE_QUESTION P text)
              (RE_FUNDING P text) (RE_LAUNCH P text) (RE_COMPARISON P text)) as [T1 [T2 T3]].
  split; [| split; [| split; [| split; [| split]]]].
  - apply sorted_nodup_strict; [apply sorted_sorted |].
    apply (Permutation_NoDup (Permutation_sym HP)), Hnd.
  - rewrite T1. split; intros H Hn; apply H; apply length_zero_iff_nil.
    + rewrite <- Hlen, Hn. reflexivity.
    + rewrite Hlen, Hn. reflexivity.
  - exact T2.
  - intros H. apply andb_prop in H as [Hc Hl]. split; [exact (T3 Hc) |].
    rewrite Hlen. apply Nat.leb_le, Hl.
  - rewrite Hown. split; [intros [H | H]; [discriminate | exact H] | intros H; right; exact H].
  - apply source_quality_range.
Qed.

Lemma enrich_post_shape_witness :
  (forall l : list string, Permutation ((fun l => l) l) l) /\
  Sorted (fun a b => String.compare a b = Lt)
         (companies_mentioned (enrich_post quiet_patterns (fun l => l) (hd (mk_post "" "" "" "" "") scraped_example)
            (alias_map_of (_load_companies (Some acme_cfg))) (own_names_of (_load_companies (Some acme_cfg)))
            (context_required_of (_load_companies (Some acme_cfg))))).
Proof.
  assert (Hord : forall l : list string, Permutation ((fun l => l) l) l) by (intros l; apply Permutation_refl).
  split; [exact Hord |].
  exact (proj1 (enrich_post_shape quiet_patterns (fun l => l) _ _ _ _ Hord)).
Defined.

Lemma append_nonempty_r : forall a b : string, b <> "" -> (a ++ b)%string <> "".
Proof. intros [| c a] b Hb; simpl; [exact Hb | discriminate]. Qed.

(** _time_ago (app.py): the label is empty exactly when the date string
    does not parse as a date; a date in the future gets a negative day
    count, "-N" followed by "d ago", where N is the number of days ahead. *)
Theorem time_ago_spec :
  forall (now : Now) (s : string),
    (_time_ago now s = "" <-> parse_date s = None) /\
    (forall d, parse_date s = Some d -> (now_day now < d)%Z ->
       _time_ago now s = ("-" ++ nat_to_string (Z.to_nat (d - now_day now)) ++ "d ago")%string).
Proof.
  intros now s. unfold _time_ago. split.
  - destruct (parse_date s) as [d |]; [| split; reflexivity]. split; [| discriminate].
    intros H; exfalso; revert H.
    destruct (now_day now - d =? 0)%Z; [discriminate |].
    destruct (now_day now - d =? 1)%Z; [discriminate |].
    destruct (now_day now - d <? 7)%Z; [| destruct (now_day now - d <? 30)%Z];
      apply append_nonempty_r; discriminate.
  - intros d Hd Hlt. rewrite Hd.
    replace (now_day now - d =? 0)%Z with false by (symmetry; apply Z.eqb_neq; lia).
    replace (now_day now - d =? 1)%Z with false by (symmetry; apply Z.eqb_neq; lia).
    replace (now_day now - d <? 7)%Z with true by (symmetry; apply Z.ltb_lt; lia).
    unfold py_int_str. replace (now_day now - d <? 0)%Z with true by (symmetry; apply Z.ltb_lt; lia).
    replace (- (now_day now - d))%Z with (d - now_day now)%Z by lia.
    reflexivity.
Qed.

(** _source_badge (app.py): the badge is never empty: it is one of the
    known platform keys, or the stripped source string, or "Source". *)
Theorem source_badge_nonempty :
  forall source : string,
    _source_badge source <> "" /\
    (In (_source_badge source) ["Reddit"; "Hacker News"; "Slack"; "Product Hunt"; "G2"; "News"; "RSS"] \/
     _source_badge source = strip source \/ _source_badge source = "Source").
Proof.
  intros source. unfold _source_badge.
  destruct (find _ _) as [key |] eqn:E.
  - apply find_some in E as [Hin _]. split; [| left; exact Hin].
    simpl in Hin. intuition (subst; discriminate).
  - destruct (String.eqb (strip source) "") eqn:Es.
    + split; [discriminate | right; right; reflexivity].
    + split; [apply String.eqb_neq, Es | right; left; reflexivity].
Qed.

Lemma div_step : forall k y, (0 < k)%Z -> (y / k - (y - 1) / k = if y mod k =? 0 then 1 else 0)%Z.
Proof.
  intros k y Hk. pose proof (Z.div_mod y k ltac:(lia)) as Hdm. pose proof (Z.mod_pos_bound y k Hk) as Hb.
  destruct (Z.eqb_spec (y mod k) 0) as [E | E].
  - assert (Hq : ((y - 1) / k = y / k - 1)%Z).
    { symmetry. apply (Z.div_unique (y - 1) k (y / k - 1) (k - 1)); [lia |]. rewrite E in Hdm. lia. }
    lia.
  - assert (Hq : ((y - 1) / k = y / k)%Z).
    { symmetry. apply (Z.div_unique (y - 1) k (y / k) (y mod k - 1)); lia. }
    lia.
Qed.

Lemma days_before_year_step :
  forall y, (_days_before_year (y + 1) - _days_before_year y = if _is_leap y then 366 else 365)%Z.
Proof.
  intros y. unfold _days_before_year, _is_leap.
  replace (y + 1 - 1)%Z with y by lia.
  pose proof (div_step 4 y ltac:(lia)) as H4. pose proof (div_step 100 y ltac:(lia)) as H100.
  pose proof (div_step 400 y ltac:(lia)) as H400.
  assert (I1 : (y mod 100 = 0 -> y mod 4 = 0)%Z).
  { intros H. apply Z.mod_divide in H; [| lia]. apply Z.mod_divide; [lia |].
    apply (Z.divide_trans _ 100); [exists 25%Z; reflexivity | exact H]. }
  assert (I2 : (y mod 400 = 0 -> y mod 100 = 0)%Z).
  { intros H. apply Z.mod_divide in H; [| lia]. apply Z.mod_divide; [lia |].
    apply (Z.divide_trans _ 400); [exists 4%Z; reflexivity | exact H]. }
  destruct (Z.eqb_spec (y mod 4) 0), (Z.eqb_spec (y mod 100) 0), (Z.eqb_spec (y mod 400) 0);
    simpl; try lia.
Qed.

Lemma days_before_month_bound :
  forall y m, (1 <= m <= 12)%Z ->
    (0 <= _days_before_month y m /\
     _days_before_month y m + _days_in_month y m <= (if _is_leap y then 366 else 365))%Z.
Proof.
  intros y m Hm.
  assert (Hc : (m = 1 \/ m = 2 \/ m = 3 \/ m = 4 \/ m = 5 \/ m = 6 \/ m = 7 \/ m = 8 \/ m = 9 \/
                m = 10 \/ m = 11 \/ m = 12)%Z) by lia.
  unfold _days_before_month, _days_in_month.
  destruct (_is_leap y);
    repeat (destruct Hc as [-> | Hc]; [simpl; lia |]); subst m; simpl; lia.
Qed.

Lemma isoweek1monday_spec :
  forall y, (exists k, _isoweek1monday y = 7 * k + 1)%Z /\
            (_ymd2ord y 1 1 - 3 <= _isoweek1monday y <= _ymd2ord y 1 1 + 3)%Z.
Proof.
  intros y. unfold _isoweek1monday.
  set (f := _ymd2ord y 1 1).
  pose proof (Z.div_mod (f + 6) 7 ltac:(lia)) as Hdm. pose proof (Z.mod_pos_bound (f + 6) 7 ltac:(lia)) as Hb.
  destruct (3 <? (f + 6) mod 7)%Z eqn:E.
  - apply Z.ltb_lt in E. split; [exists ((f + 6) / 7)%Z | ]; lia.
  - apply Z.ltb_ge in E. split; [exists ((f + 6) / 7 - 1)%Z | ]; lia.
Qed.

Lemma ymd2ord_year_start :
  forall y, (_ymd2ord (y + 1) 1 1 - _ymd2ord y 1 1 = if _is_leap y then 366 else 365)%Z.
Proof.
  intros y. unfold _ymd2ord. pose proof (days_before_year_step y).
  unfold _days_before_month. simpl. lia.
Qed.

Lemma isocalendar_week_range :
  forall y m d, (1 <= m <= 12)%Z -> (1 <= d <= _days_in_month y m)%Z ->
    (1 <= snd (isocalendar y m d) <= 53)%Z.
Proof.
  intros y m d Hm Hd. unfold isocalendar.
  pose proof (isoweek1monday_spec y) as [[k Hk] Hw].
  pose proof (isoweek1monday_spec (y - 1)) as [[k' Hk'] Hw'].
  pose proof (ymd2ord_year_start (y - 1)) as Hprev. replace (y - 1 + 1)%Z with y in Hprev by lia.
  pose proof (days_before_month_bound y m Hm) as [Hb0 Hb1].
  assert (HF : _ymd2ord y 1 1 = (_days_before_year y + 1)%Z)
    by (unfold _ymd2ord, _days_before_month; simpl; lia).
  assert (HT : _ymd2ord y m d = (_days_before_year y + _days_before_month y m + d)%Z) by reflexivity.
  set (today := _ymd2ord y m d) in *.
  set (w1 := _isoweek1monday y) in *. set (w1' := _isoweek1monday (y - 1)) in *.
  pose proof (Z.div_mod (today - w1) 7 ltac:(lia)) as D1.
  pose proof (Z.mod_pos_bound (today - w1) 7 ltac:(lia)) as M1.
  pose proof (Z.div_mod (today - w1') 7 ltac:(lia)) as D2.
  pose proof (Z.mod_pos_bound (today - w1') 7 ltac:(lia)) as M2.
  destruct (_is_leap y), (_is_leap (y - 1));
  (destruct ((today - w1) / 7 <? 0)%Z eqn:E1;
   [apply Z.ltb_lt in E1; cbn [snd]; lia |]);
  apply Z.ltb_ge in E1;
  (destruct ((52 <=? (today - w1) / 7)%Z && (_isoweek1monday (y + 1) <=? today)%Z);
   cbn [snd]; lia).
Qed.

Lemma digit_in_range : forall lo hi c d, digit_in lo hi c = Some d -> lo <= d <= hi.
Proof.
  intros lo hi c d. unfold digit_in. destruct (digit c) as [x |]; [| discriminate].
  destruct ((lo <=? x) && (x <=? hi)) eqn:E; [| discriminate]. intros H. injection H as <-.
  apply andb_prop in E as [E1 E2]. apply Nat.leb_le in E1, E2. lia.
Qed.

Lemma first_some_In {A B} : forall (f : A -> option B) l x, first_some f l = Some x -> exists a, In a l /\ f a = Some x.
Proof.
  intros f l x. induction l as [| a l IH]; simpl; [discriminate |].
  destruct (f a) eqn:E; [intros H; injection H as <-; exists a; auto |].
  intros H. destruct (IH H) as [a' [Ha Hf]]. exists a'. auto.
Qed.

Lemma month_alts_range : forall l m r, In (m, r) (month_alts l) -> 1 <= m <= 12.
Proof.
  intros l m r H. unfold month_alts in H.
  apply in_app_iff in H as [H | H]; [| apply in_app_iff in H as [H | H]].
  - destruct l as [| a l]; [destruct H |].
    destruct a as [[] [] [] [] [] [] [] []]; simpl in H; try contradiction;
      destruct l as [| c r0]; simpl in H; try contradiction;
      destruct (digit_in 0 2 c) eqn:Ed; simpl in H; try contradiction;
      destruct H as [H | []]; injection H as <- <-; apply digit_in_range in Ed; lia.
  - destruct l as [| a l]; [destruct H |].
    destruct a as [[] [] [] [] [] [] [] []]; simpl in H; try contradiction;
      destruct l as [| c r0]; simpl in H; try contradiction;
      destruct (digit_in 1 9 c) eqn:Ed; simpl in H; try contradiction;
      destruct H as [H | []]; injection H as <- <-; apply digit_in_range in Ed; lia.
  - destruct l as [| c l]; [destruct H |].
    destruct (digit_in 1 9 c) eqn:Ed; [| destruct H].
    destruct H as [H | []]. injection H as <- <-. apply digit_in_range in Ed. lia.
Qed.

Lemma strptime_month_range :
  forall s y m d, strptime_ymd s = Some (y, m, d) -> 1 <= m <= 12.
Proof.
  intros s y m d. unfold strptime_ymd.
  destruct (list_ascii_of_string s) as [| y1 [| y2 [| y3 [| y4 [| sep rest]]]]]; try discriminate.
  destruct sep as [[] [] [] [] [] [] [] []]; try discriminate.
  destruct (digit y1), (digit y2), (digit y3), (digit y4); try discriminate.
  destruct (first_some _ (month_alts rest)) as [[[m' dd] r3] |] eqn:E; [| discriminate].
  destruct r3; [| discriminate]. intros H. injection H as _ <- _.
  apply first_some_In in E as [[m0 r1] [Hin Hf]].
  destruct r1 as [| c r2]; [discriminate |].
  destruct c as [[] [] [] [] [] [] [] []]; try discriminate;
    destruct (day_alts r2) as [| [dd' r3'] ?]; try discriminate;
    injection Hf as <- _ _; exact (month_alts_range _ _ _ Hin).
Qed.

Lemma pad2_length : forall n, 1 <= n <= 53 -> String.length (pad2 n) = 2.
Proof.
  intros n Hn. do 54 (destruct n as [| n]; [first [reflexivity | lia] |]). lia.
Qed.

(** _iso_week (trends.py): every week key it returns has the form
    "<ISO year>-W<week>", where the week number is between 1 and 53 and is
    written with exactly two digits. *)
Theorem iso_week_format :
  forall (s w : string),
    _iso_week s = Some w ->
    exists iy wk, 1 <= wk <= 53 /\ String.length (pad2 wk) = 2 /\
                  w = (nat_to_string iy ++ "-W" ++ pad2 wk)%string.
Proof.
  intros s w H. unfold _iso_week in H.
  destruct (strptime_ymd s) as [[[y m] d] |] eqn:E; [| discriminate].
  pose proof (strptime_month_range _ _ _ _ E) as Hm.
  destruct ((1 <=? y) && (1 <=? d) && (Z.of_nat d <=? _days_in_month (Z.of_nat y) (Z.of_nat m))%Z)
    eqn:Hv; [| discriminate].
  apply andb_prop in Hv as [Hv Hdm]. apply andb_prop in Hv as [_ Hd1].
  apply Nat.leb_le in Hd1. apply Z.leb_le in Hdm.
  pose proof (isocalendar_week_range (Z.of_nat y) (Z.of_nat m) (Z.of_nat d)
                ltac:(lia) ltac:(lia)) as Hr.
  destruct (isocalendar (Z.of_nat y) (Z.of_nat m) (Z.of_nat d)) as [iy iw].
  cbn [snd] in Hr. injection H as <-.
  exists (Z.to_nat iy), (Z.to_nat iw).
  assert (Hw : 1 <= Z.to_nat iw <= 53) by lia.
  split; [exact Hw | split; [apply pad2_length, Hw | reflexivity]].
Qed.

Lemma iso_week_format_witness :
  _iso_week "2026-02-16" = Some "2026-W08" /\
  exists iy wk, 1 <= wk <= 53 /\ String.length (pad2 wk) = 2 /\
                "2026-W08" = (nat_to_string iy ++ "-W" ++ pad2 wk)%string.
Proof.
  assert (H : _iso_week "2026-02-16" = Some "2026-W08") by (vm_compute; reflexivity).
  split; [exact H | exact (iso_week_format _ _ H)].
Defined.
